(** * FreshQuant: factor scoring, cross-sectional regression and utilities

    A shallow embedding of [freshquant/general/util.py] and
    [freshquant/factors/multiple_factor_analysis.py], with the properties
    of the specification, and further properties read off the code,
    stated over it.

    Conventions.  A pandas float cell that is finite or missing is a
    [cell] ([None] is NaN); values that may have become infinite through a
    division are [fl].  Finite arithmetic is exact (rationals): rounding is
    not modelled.  Python exceptions are values of [exn]; a call that may
    raise returns [exn + A]; text written by [print] is threaded as a
    list of lines.  The library functions that the code calls (pandas'
    [rank], [rolling], [concat] and [update], the statsmodels fit) are
    modelled by what they return; the functions of the repository that
    [src/] does not hold are parameters. *)

From Stdlib Require Import String Ascii DecimalString Bool Arith Lia ZArith QArith Qabs Lqa Field List Permutation Sorted.
From Stdlib Require OrderedTypeEx DecimalNat.
Import ListNotations.
Open Scope string_scope.
Open Scope list_scope.
Open Scope nat_scope.

(** ** Python exceptions and printed output *)

Inductive exn : Type :=
| KeyError (key : string)
| ValueError (msg : string)
| OtherError (msg : string).

Definition result (A : Type) : Type := (exn + A)%type.

Definition ok {A} (a : A) : result A := inr a.
Definition raise {A} (e : exn) : result A := inl e.

Definition bind {A B} (m : result A) (k : A -> result B) : result B :=
  match m with
  | inl e => inl e
  | inr a => k a
  end.

Notation "x <- m ;; k" := (bind m (fun x => k))
  (at level 61, m at next level, right associativity).

Fixpoint mapM {A B} (f : A -> result B) (l : list A) : result (list B) :=
  match l with
  | [] => ok []
  | a :: l' => b <- f a ;; bs <- mapM f l' ;; ok (b :: bs)
  end.

(** A computation that prints and may raise: the lines printed so far
    and the outcome. *)
Definition py (A : Type) : Type := (list string * result A)%type.

Definition ret {A} (a : A) : py A := ([], ok a).

Definition throw {A} (e : exn) : py A := ([], raise e).

Definition lift {A} (r : result A) : py A := ([], r).

Definition print (line : string) : py unit := ([line], ok tt).

Definition pbind {A B} (m : py A) (k : A -> py B) : py B :=
  match m with
  | (out, inl e) => (out, inl e)
  | (out, inr a) => let r := k a in (out ++ fst r, snd r)
  end.

Notation "x <~ m ;; k" := (pbind m (fun x => k))
  (at level 61, m at next level, right associativity).

(** ** Floating-point cells

    [cell] is a float that is finite or NaN, as the panel's columns hold
    them.  [fl] adds the two infinities, which a division by zero
    produces.  Signed zeros and rounding are not modelled. *)

Definition cell : Type := option Q.

Inductive fl : Type :=
| Fin (q : Q)
| PInf
| NInf
| NaN.

Definition fl_of_cell (c : cell) : fl :=
  match c with
  | Some q => Fin q
  | None => NaN
  end.

Definition Q_of_nat (n : nat) : Q := inject_Z (Z.of_nat n).

Definition fl_of_nat (n : nat) : fl := Fin (Q_of_nat n).

Definition Qis_zero (q : Q) : bool := Qeq_bool q 0.

Definition Qis_neg (q : Q) : bool := negb (Qle_bool 0 q).

Definition is_nan (x : fl) : bool :=
  match x with
  | NaN => true
  | _ => false
  end.

Definition fl_add (x y : fl) : fl :=
  match x, y with
  | NaN, _ | _, NaN => NaN
  | Fin a, Fin b => Fin (a + b)
  | PInf, NInf | NInf, PInf => NaN
  | PInf, _ | _, PInf => PInf
  | NInf, _ | _, NInf => NInf
  end.

Definition fl_mul (x y : fl) : fl :=
  match x, y with
  | NaN, _ | _, NaN => NaN
  | Fin a, Fin b => Fin (a * b)
  | Fin a, PInf | PInf, Fin a =>
      if Qis_zero a then NaN else if Qis_neg a then NInf else PInf
  | Fin a, NInf | NInf, Fin a =>
      if Qis_zero a then NaN else if Qis_neg a then PInf else NInf
  | PInf, PInf | NInf, NInf => PInf
  | PInf, NInf | NInf, PInf => NInf
  end.

Definition fl_div (x y : fl) : fl :=
  match x, y with
  | NaN, _ | _, NaN => NaN
  | Fin a, Fin b =>
      if Qis_zero b
      then if Qis_zero a then NaN else if Qis_neg a then NInf else PInf
      else Fin (a / b)
  | Fin _, PInf | Fin _, NInf => Fin 0
  | PInf, Fin b => if Qis_neg b then NInf else PInf
  | NInf, Fin b => if Qis_neg b then PInf else NInf
  | _, _ => NaN
  end.

(** [row.sum()] with pandas' default [skipna=True]: NaN entries are left
    out, and the sum of no entry is 0. *)
Definition sum_skipna (row : list fl) : fl :=
  fold_left (fun acc x => if is_nan x then acc else fl_add acc x) row (Fin 0).

(** [row.mean()] with [skipna=True]. *)
Definition mean_skipna (row : list fl) : fl :=
  match filter (fun x => negb (is_nan x)) row with
  | [] => NaN
  | vs => fl_div (sum_skipna vs) (fl_of_nat (length vs))
  end.

(** The non-missing values of a column, in order. *)
Definition valid (l : list cell) : list Q :=
  flat_map (fun c => match c with Some q => [q] | None => [] end) l.

Definition Qsum (l : list Q) : Q := fold_left Qplus l 0%Q.

Definition count_nan (l : list cell) : nat :=
  length (filter (fun c => match c with None => true | Some _ => false end) l).

(** ** Stable sorting, as [sort_index], [sorted] and [argsort(kind='mergesort')]
    behave: elements that compare equal keep their order. *)

Fixpoint insert_by {A} (le : A -> A -> bool) (x : A) (l : list A) : list A :=
  match l with
  | [] => [x]
  | y :: l' => if le x y then x :: l else y :: insert_by le x l'
  end.

Definition sort_by {A} (le : A -> A -> bool) (l : list A) : list A :=
  fold_right (insert_by le) [] l.

(** [l[i:j]] for non-negative [i] and [j]. *)
Definition slice {A} (l : list A) (i j : nat) : list A :=
  firstn (j - i) (skipn i l).

(** [d.get(k)] on a dictionary kept as a list of items. *)
Definition lookup {A} (k : string) (d : list (string * A)) : option A :=
  option_map snd (find (fun c => String.eqb (fst c) k) d).

(** Membership of a name in a list of names. *)
Definition mem (s : string) (l : list string) : bool :=
  existsb (String.eqb s) l.

(** Position of the first occurrence of a name. *)
Fixpoint index_of (s : string) (l : list string) : option nat :=
  match l with
  | [] => None
  | x :: l' => if String.eqb s x then Some 0 else option_map S (index_of s l')
  end.

(** [str(n)] for a non-negative integer. *)
Definition str_of_nat (n : nat) : string :=
  NilEmpty.string_of_uint (Nat.to_uint n).

(** [sep.join(l)] *)
Fixpoint join (sep : string) (l : list string) : string :=
  match l with
  | [] => ""
  | [x] => x
  | x :: l' => (x ++ sep ++ join sep l')%string
  end.

(** [repr] of a list of plain strings, as [format] prints a list. *)
Definition repr_list (l : list string) : string :=
  ("[" ++ join ", " (map (fun k => "'" ++ k ++ "'") l) ++ "]")%string.

(** ** [util.py]: the industry classification lookup *)

Module Util.

Section StockIndustry.
Context {code row : Type}.

(** [csf.get_stock_industry(sub_codes, field=fields)]: the upstream
    service, one request per call. *)
Variable get_stock_industry : list code -> list row.

(** [list(range(0, stop, step))] for a positive [step]. *)
Definition py_range (stop step : nat) : list nat :=
  map (fun k => k * step) (seq 0 ((stop + step - 1) / step)).

(** [cutter = list(range(0, codes_len, 100)); cutter.append(codes_len - 1)] *)
Definition cutter (codes_len : nat) : list nat :=
  py_range codes_len 100 ++ [codes_len - 1].

(** [dict_cutter = list(zip(cutter[0:-1], cutter[1:]))] *)
Definition dict_cutter (codes_len : nat) : list (nat * nat) :=
  combine (removelast (cutter codes_len)) (tl (cutter codes_len)).

(** The requests sent upstream, in order: the [sub_codes] of the loop,
    or the whole list when it has at most 100 identifiers. *)
Definition requests (codes : list code) : list (list code) :=
  let codes_len := length codes in
  if 100 <? codes_len
  then map (fun ij => slice codes (fst ij) (snd ij)) (dict_cutter codes_len)
  else [codes].

(** [__get_stock_industry(codes)]: [df] starts empty and each answer is
    appended with [pd.concat([df, temp])]. *)
Definition __get_stock_industry (codes : list code) : list row :=
  let codes_len := length codes in
  if 100 <? codes_len
  then fold_left (fun df ij => df ++ get_stock_industry (slice codes (fst ij) (snd ij)))
                 (dict_cutter codes_len) []
  else get_stock_industry codes.

(** Every identifier that some request carries. *)
Definition queried (codes : list code) : list code := concat (requests codes).

End StockIndustry.

(** A list of cut points that never decreases. *)
Fixpoint chain (a : nat) (cs : list nat) : Prop :=
  match cs with
  | [] => True
  | b :: cs' => a <= b /\ chain b cs'
  end.

(** ** [util.py]: column-wise neutralization

    A [frame] is one date's cross-section after
    [df0.reset_index(level=0, drop=True)]: an index of security codes and
    named columns of that length, with distinct names. *)

Record frame : Type := mk_frame {
  f_index : list string;
  f_cols : list (string * list cell)
}.

(** [x[:1]] *)
Definition first_char (s : string) : string :=
  match s with
  | EmptyString => ""
  | String a _ => String a ""
  end.

(** [df[col]]: a missing column is a [KeyError]. *)
Definition column (col : string) (df : frame) : result (list cell) :=
  match lookup col (f_cols df) with
  | Some c => ok c
  | None => raise (KeyError col)
  end.

(** [formula.replace('Y', col)] *)
Fixpoint replace_Y (formula col : string) : string :=
  match formula with
  | EmptyString => ""
  | String a rest =>
      if Ascii.eqb a "Y"%char
      then (col ++ replace_Y rest col)%string
      else String a (replace_Y rest col)
  end.

(** Keep the rows at which the target column [c] is not missing:
    [df.loc[df[col].dropna().index, :]]. *)
Fixpoint keep_rows {A} (c : list cell) (l : list A) : list A :=
  match c, l with
  | Some _ :: c', a :: l' => a :: keep_rows c' l'
  | None :: c', _ :: l' => keep_rows c' l'
  | _, _ => []
  end.

Definition dropna_rows (c : list cell) (df : frame) : frame :=
  mk_frame (keep_rows c (f_index df))
           (map (fun nc => (fst nc, keep_rows c (snd nc))) (f_cols df)).

(** [.fillna(0)] *)
Definition fillna0 (df : frame) : frame :=
  mk_frame (f_index df)
           (map (fun nc => (fst nc, map (fun v => match v with
                                                  | None => Some 0%Q
                                                  | Some q => Some q
                                                  end) (snd nc)))
                (f_cols df)).

(** [pd.DataFrame(resid, index=kept, columns=[col]).loc[df.index, :]]:
    the residuals go back to the rows that were kept, the other rows are
    missing. *)
Fixpoint reindex (c : list cell) (resid : list Q) : list cell :=
  match c with
  | [] => []
  | None :: c' => None :: reindex c' resid
  | Some _ :: c' =>
      match resid with
      | r :: rs => Some r :: reindex c' rs
      | [] => None :: reindex c' []
      end
  end.

Definition reserved_neutral : list string := ["ret"; "cap"; "benchmark_returns"].

Section Neutral.

(** [smf.ols(formula, data=data).fit().resid]: statsmodels' fit, one
    residual per row of [data], or an exception (a name of the formula
    that [data] does not have, a singular design, ...). *)
Variable smf_ols_resid : string -> frame -> result (list Q).

(** The body of the [try] block of [__single_neutral]: the [if] has no
    [else], so a column that is entirely missing falls off the end of the
    function, which then returns Python's [None] ([ok None] here). *)
Definition try_neutral (col formula : string) (df : frame)
  : result (option (string * list cell)) :=
  c <- column col df ;;
  if negb (count_nan c =? length (f_index df))
  then
    resid <- smf_ols_resid (replace_Y formula col) (fillna0 (dropna_rows c df)) ;;
    if length resid =? length (valid c)
    then ok (Some (col, reindex c resid))
    else raise (ValueError "Shape of passed values")
  else ok None.

(** [__single_neutral(col, formula, df)]; the bare [except:] catches every
    exception of the [try] block.  ([print(col)] is left out.) *)
Definition __single_neutral (col formula : string) (df : frame)
  : result (option (string * list cell)) :=
  if negb (mem col reserved_neutral)
  then
    match try_neutral col formula df with
    | inr r => ok r
    | inl _ => c <- column col df ;; ok (Some (col, c))
    end
  else c <- column col df ;; ok (Some (col, c)).

Definition field_x (cols : list string) : list string :=
  filter (fun x => negb (mem (first_char x) ["M"; "r"; "b"])) cols.

Definition field_dic (cols : list string) : list (string * string) :=
  combine (field_x cols)
          (map (fun i => ("x" ++ str_of_nat i)%string)
               (seq 1 (length (field_x cols)))).

(** The new column names: [cap] is in [field_x] and so in [field_dic] and
    in the formula, but keeps its name. *)
Definition renamed (cols : list string) : list string :=
  map (fun col =>
         if mem col (field_x cols) && negb (mem col ["cap"])
         then match lookup col (field_dic cols) with
              | Some x => x
              | None => col
              end
         else col) cols.

Definition formula_of (cols : list string) : string :=
  ("Y~" ++ join "+" (map snd (field_dic cols)))%string.

Definition field_y (cols : list string) : list string :=
  filter (fun col => mem (first_char col) ["M"; "r"; "c"; "b"]) (renamed cols).

(** [pd.concat(result, axis=1)]: [None] entries are dropped silently, and
    a list with nothing else is an error. *)
Definition pd_concat_axis1 {A} (objs : list (option A)) : result (list A) :=
  match objs with
  | [] => raise (ValueError "No objects to concatenate")
  | _ =>
      match flat_map (fun o => match o with Some c => [c] | None => [] end) objs with
      | [] => raise (ValueError "All objects passed were None")
      | cs => ok cs
      end
  end.

(** [df.update(other)]: the non-missing values of [other] overwrite. *)
Definition update_col (orig new : list cell) : list cell :=
  map (fun on => match snd on with Some q => Some q | None => fst on end)
      (combine orig new).

Definition update (df : frame) (other : list (string * list cell)) : frame :=
  mk_frame (f_index df)
           (map (fun nc => match lookup (fst nc) other with
                           | Some new => (fst nc, update_col (snd nc) new)
                           | None => nc
                           end) (f_cols df)).

(** [single_neutral(df0)]; the workers of [Parallel] run the calls
    independently, their results come back in the order of [field_y], and
    an exception in a worker is raised in the caller. *)
Definition single_neutral (df0 : frame) : result frame :=
  let cols := map fst (f_cols df0) in
  let df := mk_frame (f_index df0) (combine (renamed cols) (map snd (f_cols df0))) in
  res <- mapM (fun col => __single_neutral col (formula_of cols) df) (field_y cols) ;;
  other <- pd_concat_axis1 res ;;
  ok (update df other).

End Neutral.

End Util.

(** ** [multiple_factor_analysis.py]: panels

    A panel is a table keyed by (date, security): [r_vals] holds one cell
    per name of [columns], in that order.  Dates are ordinal numbers. *)

Module Factors.

Record row : Type := mk_row {
  r_date : nat;
  r_code : string;
  r_vals : list cell
}.

Record panel : Type := mk_panel {
  columns : list string;
  rows : list row
}.

(** The order of [sort_index] on the (date, security) index. *)
Definition key_leb (a b : row) : bool :=
  (r_date a <? r_date b)
  || ((r_date a =? r_date b) && String.leb (r_code a) (r_code b)).

Definition sort_index (p : panel) : panel :=
  mk_panel (columns p) (sort_by key_leb (rows p)).

Definition reserved : list string :=
  ["ret"; "cap"; "benchmark_returns"; "group"].

Fixpoint dedup (l : list string) : list string :=
  match l with
  | [] => []
  | x :: l' => if mem x l' then dedup l' else x :: dedup l'
  end.

Fixpoint dedup_nat (l : list nat) : list nat :=
  match l with
  | [] => []
  | x :: l' => if existsb (Nat.eqb x) l' then dedup_nat l' else x :: dedup_nat l'
  end.

(** [sorted(set(...))] *)
Definition sorted_set (l : list string) : list string :=
  sort_by String.leb (dedup l).

(** [sorted(set(fac_ret_data.columns) - {'ret', 'cap', 'benchmark_returns', 'group'})] *)
Definition factor_names_of (p : panel) : list string :=
  sorted_set (filter (fun c => negb (mem c reserved)) (columns p)).

(** [sorted(set(fac_ret_data.columns) - factor_names)] *)
Definition other_names_of (p : panel) : list string :=
  sorted_set (filter (fun c => mem c reserved) (columns p)).

(** The check shared by [regress], [score] and [dynamic_score]. *)
Definition check_factors (p : panel) : result (list string) :=
  match factor_names_of p with
  | [] => raise (ValueError "fac_ret_data must have at least 1 factor, got 0.")
  | fs => ok fs
  end.

(** The cell of a row in a named column. *)
Definition cell_at (cols : list string) (name : string) (r : row) : cell :=
  match index_of name cols with
  | Some i => nth i (r_vals r) None
  | None => None
  end.

(** [groupby(level=0)]: the groups come in ascending order of the date
    and keep the order of the rows. *)
Definition dates_of (rs : list row) : list nat :=
  sort_by Nat.leb (dedup_nat (map r_date rs)).

Definition group_at (d : nat) (rs : list row) : list row :=
  filter (fun r => r_date r =? d) rs.

Definition groupby_date (rs : list row) : list (nat * list row) :=
  map (fun d => (d, group_at d rs)) (dates_of rs).

(** [try: return valid_method[method]() except KeyError: print(...); raise]

    The call is inside the [try]: the handler sees the [KeyError] of the
    dictionary lookup and any [KeyError] that the strategy itself raises. *)
Definition not_valid_message (method : string) (names : list string) : string :=
  (method ++ " is not a valid method. valid methods are: " ++ repr_list names)%string.

Definition dispatch {A} (valid_method : list (string * py A)) (method : string) : py A :=
  let call :=
    match lookup method valid_method with
    | Some strategy => strategy
    | None => throw (KeyError method)
    end in
  match call with
  | (out, inl (KeyError k)) =>
      (out ++ [not_valid_message method (map fst valid_method)], inl (KeyError k))
  | r => r
  end.

(** *** [regress] *)

(** One row of the frame that [get_params] returns: the residual of a
    security on a date, with the intercept and the betas fitted on that
    date. *)
Record fit_row : Type := mk_fit {
  p_date : nat;
  p_code : string;
  p_resid : Q;
  p_intercept : Q;
  p_betas : list Q
}.

Fixpoint all_some (l : list cell) : option (list Q) :=
  match l with
  | [] => Some []
  | None :: _ => None
  | Some q :: l' => option_map (cons q) (all_some l')
  end.

(** The factor values and the return of a row, when none is missing:
    the formula interface drops the other rows before fitting. *)
Definition complete_case (cols facs : list string) (r : row) : option (list Q * Q) :=
  match all_some (map (fun f => cell_at cols f r) facs), cell_at cols "ret" r with
  | Some xs, Some y => Some (xs, y)
  | _, _ => None
  end.

(** [acc += x * b], factor by factor. *)
Definition add_products (start : Q) (xs bs : list Q) : Q :=
  fold_left (fun acc xb => (acc + fst xb * snd xb)%Q) (combine xs bs) start.

(** The rows of a date that the fit keeps, with their key: the date, the
    security, the factor values and the return. *)
Definition complete_rows (cols facs : list string) (x : list row)
  : list (nat * string * (list Q * Q)) :=
  flat_map (fun r => match complete_case cols facs r with
                     | Some xy => [(r_date r, r_code r, xy)]
                     | None => []
                     end) x.

Definition fit_row_of (fit : Q * list Q) (k : nat * string * (list Q * Q)) : fit_row :=
  mk_fit (fst (fst k)) (snd (fst k))
         (snd (snd k) - add_products (fst fit) (fst (snd k)) (snd fit))%Q
         (fst fit) (snd fit).

Definition row_key (r : row) : nat * string := (r_date r, r_code r).

(** Two rows, of two panels with the same columns, that differ at most by
    the return, and by that only on date [T]. *)
Definition same_but_ret_at (cols : list string) (T : nat) (r r' : row) : Prop :=
  r_date r = r_date r' /\ r_code r = r_code r'
  /\ (forall f, f <> "ret" -> cell_at cols f r = cell_at cols f r')
  /\ (r_date r <> T -> cell_at cols "ret" r = cell_at cols "ret" r').

(** The reconstructed returns of an output, by date and security, and
    those of the dates before [T]. *)
Definition reconstructed (out : list (row * Q)) : list (nat * string * Q) :=
  map (fun o => (r_date (fst o), r_code (fst o), snd o)) out.

Definition before (T : nat) (l : list (nat * string * Q)) : list (nat * string * Q) :=
  filter (fun o => fst (fst o) <? T) l.

(** The order of the rows of the parameter frame: by date, and two rows
    of a date are rows of two securities. *)
Definition fit_before (a b : fit_row) : Prop :=
  p_date a < p_date b \/ (p_date a = p_date b /\ p_code a <> p_code b).

Section Regress.

(** [smf.ols(formula, data).fit().params]: the intercept and one beta per
    factor, fitted on the rows given (factor values, return); statsmodels
    may raise, for instance on a date without a complete row. *)
Variable ols : list (list Q * Q) -> result (Q * list Q).

(** [ret_ols_fac(x)]: the fit runs on the complete rows of the date, the
    residuals are the returns minus the fitted values, and every row
    carries the parameters of its date. *)
Definition fit_on (cols facs : list string) (x : list row) : result (Q * list Q) :=
  ols (map snd (complete_rows cols facs x)).

Definition ret_ols_fac (cols facs : list string) (x : list row) : result (list fit_row) :=
  fit <- fit_on cols facs x ;;
  ok (map (fit_row_of fit) (complete_rows cols facs x)).

(** [get_params()]: [fac_ret_data[factor_names + ['ret']]] needs the
    [ret] column. *)
Definition get_params (p : panel) (facs : list string) : result (list fit_row) :=
  if mem "ret" (columns p)
  then
    frames <- mapM (fun dg => ret_ols_fac (columns p) facs (snd dg))
                   (groupby_date (rows p)) ;;
    ok (concat frames)
  else raise (KeyError "ret").

(** [params.groupby(level=1).shift(1)]: every row gets the values of the
    row before it among the rows of its security, all columns alike, the
    residual included; [seen] holds the last row of each security. *)
Fixpoint shift_by_code (seen : list (string * fit_row)) (frame : list fit_row)
  : list (fit_row * option fit_row) :=
  match frame with
  | [] => []
  | q :: frame' =>
      (q, lookup (p_code q) seen) :: shift_by_code ((p_code q, q) :: seen) frame'
  end.

(** [.dropna()] after the shift: the rows without a row before them go. *)
Definition lagged (frame : list fit_row) : list (fit_row * fit_row) :=
  flat_map (fun qo => match snd qo with
                      | Some q' => [(fst qo, q')]
                      | None => []
                      end)
           (shift_by_code [] frame).

Definition find_lag (d : nat) (c : string) (lag : list (fit_row * fit_row))
  : option fit_row :=
  option_map snd
    (find (fun e => (p_date (fst e) =? d) && String.eqb (p_code (fst e)) c) lag).

(** [pd.concat([fac_ret_data[factor_names], params], axis=1).dropna()],
    then [combined['ret'] = Intercept + resid] and the loop over the
    factors; the result keeps the panel's row next to the new [ret]. *)
Definition combine_row (cols facs : list string) (lag : list (fit_row * fit_row)) (r : row)
  : list (row * Q) :=
  match find_lag (r_date r) (r_code r) lag,
        all_some (map (fun f => cell_at cols f r) facs) with
  | Some q', Some xs =>
      [(r, add_products (p_intercept q' + p_resid q')%Q xs (p_betas q'))]
  | _, _ => []
  end.

Definition common_regress (p : panel) (facs : list string) : result (list (row * Q)) :=
  params <- get_params p facs ;;
  ok (flat_map (combine_row (columns p) facs (lagged params)) (rows p)).

(** [regress(fac_ret_data, method)] *)
Definition regress (fac_ret_data : panel) (method : string) : py (list (row * Q)) :=
  let p := sort_index fac_ret_data in
  facs <~ lift (check_factors p) ;;
  dispatch [("common_regress", lift (common_regress p facs))] method.

End Regress.

(** *** Ranking

    [Series.rank(method='first', na_option='keep', ascending=...)]: the
    positions of the non-missing values are sorted by value with a stable
    sort, so that equal values keep their order of appearance, and a
    position's rank is its place in that order, from 1; a missing value
    has no rank. *)

(** The positions of the non-missing values, counted from [s]. *)
Definition positions_from (s : nat) (g : list cell) : list (nat * Q) :=
  flat_map (fun iv => match snd iv with
                      | Some v => [(fst iv, v)]
                      | None => []
                      end)
           (combine (seq s (length g)) g).

Definition valid_positions (vs : list cell) : list (nat * Q) :=
  positions_from 0 vs.

Definition value_leb (ascending : bool) (a b : nat * Q) : bool :=
  if ascending then Qle_bool (snd a) (snd b) else Qle_bool (snd b) (snd a).

Definition argsort (ascending : bool) (vs : list cell) : list nat :=
  map fst (sort_by (value_leb ascending) (valid_positions vs)).

Fixpoint position (i : nat) (l : list nat) : nat :=
  match l with
  | [] => 0
  | x :: l' => if x =? i then 0 else S (position i l')
  end.

Definition rank_first (ascending : bool) (vs : list cell) : list (option nat) :=
  map (fun iv => match snd iv with
                 | Some _ => Some (S (position (fst iv) (argsort ascending vs)))
                 | None => None
                 end)
      (combine (seq 0 (length vs)) vs).

(** [col.groupby(level=0)] followed by an operation that returns one value
    per row: [f] runs on the values of each date, and every row receives
    the value at its place within its date. *)
Definition groupby_apply {A B} (dflt : B) (f : list A -> list B)
  (dates : list nat) (col : list A) : list B :=
  map (fun i =>
         let d := nth i dates 0 in
         nth (length (filter (Nat.eqb d) (firstn i dates)))
             (f (map snd (filter (fun e => fst e =? d) (combine dates col))))
             dflt)
      (seq 0 (length col)).

Definition count_none {A} (l : list (option A)) : nat :=
  length (filter (fun o => match o with None => true | Some _ => false end) l).

(** [x + x.isnull().sum()] on one column *)
Definition add_nulls (x : list (option nat)) : list (option nat) :=
  map (option_map (fun n => n + count_none x)) x.

(** [.fillna(0.0)] *)
Definition fillna_rank (o : option nat) : nat :=
  match o with
  | Some n => n
  | None => 0
  end.

(** One column of [score]'s [get_rank]: the count of missing values is
    taken date by date,
    [rnk.groupby(level=0).apply(lambda x: x + x.isnull().sum())]. *)
Definition score_rank_column (ascending : bool) (dates : list nat) (vs : list cell)
  : list nat :=
  let rnk := groupby_apply None (rank_first ascending) dates vs in
  map fillna_rank (groupby_apply None add_nulls dates rnk).

(** One column of [dynamic_score]'s [get_rank], at its default
    [rank_method='first'] and [na_option='keep']: the count of missing
    values is taken over the whole column, [rnk += rnk.isnull().sum()]. *)
Definition dynamic_rank_column (ascending : bool) (dates : list nat) (vs : list cell)
  : list nat :=
  let rnk := groupby_apply None (rank_first ascending) dates vs in
  map fillna_rank (add_nulls rnk).

(** The rows of date [d] of a column, each with its value and the rank
    it received, and the ranks of those with and without a value. *)
Definition ranks_of_date (d : nat) (dates : list nat) (vs : list cell) (ranks : list nat)
  : list (cell * nat) :=
  map snd (filter (fun e => fst e =? d) (combine dates (combine vs ranks))).

Definition valid_ranks (l : list (cell * nat)) : list nat :=
  flat_map (fun e => match fst e with Some _ => [snd e] | None => [] end) l.

Definition missing_ranks (l : list (cell * nat)) : list nat :=
  flat_map (fun e => match fst e with Some _ => [] | None => [snd e] end) l.

(** The rows of a table given by its columns. *)
Definition rows_of {A} (dflt : A) (n : nat) (cols : list (list A)) : list (list A) :=
  map (fun i => map (fun c => nth i c dflt) cols) (seq 0 n).

(** The [direction] argument: absent, one flag for all factors, or a
    dictionary by factor. *)
Inductive direction_arg : Type :=
| DirNone
| DirBool (b : bool)
| DirDict (d : list (string * bool)).

Definition direction_warning : string :=
  "direction 长度与因子数目不同, 未指明的将按照默认降序排序(大值排名靠前).".

(** [default_direction = dict(zip(factor_names, [False] * n));
     default_direction.update(direction)] *)
Definition dict_direction (d : list (string * bool)) (col : string) : bool :=
  match lookup col d with
  | Some b => b
  | None => false
  end.

(** *** Weights and scores *)

Definition mean_cells (l : list cell) : cell :=
  match valid l with
  | [] => None
  | vs => Some (Qsum vs / Q_of_nat (length vs))%Q
  end.

(** [rolling(window, min_periods=1)] on a date by factor table: the
    statistic of each column over the last [window] rows. *)
Definition rolling (window : nat) (stat : list cell -> cell) (ncols : nat)
  (m : list (list cell)) : result (list (list cell)) :=
  if window =? 0
  then raise (ValueError "min_periods 1 must be <= window 0")
  else ok (map (fun i =>
                  map (fun j => stat (map (fun r => nth j r None)
                                          (slice m (i + 1 - window) (i + 1))))
                      (seq 0 ncols))
               (seq 0 (length m))).

(** [row.div(row.sum())]: each contribution over the sum of the
    non-missing contributions of its date. *)
Definition normalize (row : list fl) : list fl :=
  map (fun x => fl_div x (sum_skipna row)) row.

(** [rank * weight], one row of ranks against the weights of its date;
    a date without weights gives no product. *)
Definition weight_at (d : nat) (weights : list (nat * list fl)) : list fl :=
  match find (fun w => fst w =? d) weights with
  | Some w => snd w
  | None => []
  end.

Definition products (ranks : list nat) (w : list fl) : list fl :=
  map (fun rw => fl_mul (fl_of_nat (fst rw)) (snd rw)) (combine ranks w).

Definition scored_leb (a b : row * fl) : bool := key_leb (fst a) (fst b).

(** [(rank * weight).sum(axis=1)], each score next to its row of the
    panel, sorted by the index; the join itself is [join_panel]. *)
Definition weighted_score (p : panel) (rank : list (list nat))
  (weights : list (nat * list fl)) : list (row * fl) :=
  sort_by scored_leb
    (map (fun rr => (fst rr,
                     sum_skipna (products (snd rr) (weight_at (r_date (fst rr)) weights))))
         (combine (rows p) rank)).

(** [score_.join(fac_ret_data)]: the frame of scores has the single
    column [score]; pandas refuses the join when the panel has a column
    of that name, which the set difference counts as a factor. *)
Definition join_overlap : exn :=
  ValueError "columns overlap but no suffix specified: Index(['score'], dtype='object')".

Definition join_panel {A} (p : panel) (score_ : A) : py A :=
  if mem "score" (columns p) then throw join_overlap else ret score_.

(** *** Predicates on rows of weights *)

(** Equality of floats up to the representation of the rational. *)
Definition fl_eq (x y : fl) : Prop :=
  match x, y with
  | Fin a, Fin b => (a == b)%Q
  | PInf, PInf | NInf, NInf | NaN, NaN => True
  | _, _ => False
  end.

Definition zero_or_nan (x : fl) : Prop :=
  match x with
  | NaN => True
  | Fin a => (a == 0)%Q
  | _ => False
  end.

Definition finite_or_nan (x : fl) : Prop :=
  match x with
  | NaN | Fin _ => True
  | _ => False
  end.

Definition nonneg_or_nan (x : fl) : Prop :=
  match x with
  | NaN => True
  | Fin a => (0 <= a)%Q
  | _ => False
  end.

(** A contribution that is neither zero nor missing. *)
Definition contributes (x : fl) : Prop :=
  match x with
  | NaN => False
  | Fin a => ~ (a == 0)%Q
  | _ => True
  end.

(** The weights of a date sum to 1, the missing ones left out. *)
Definition sums_to_one (w : list fl) : Prop := fl_eq (sum_skipna w) (Fin 1).

(** The sum of the finite entries of a row on top of [acc], in the order
    in which [sum_skipna] adds them. *)
Fixpoint qsum_from (acc : Q) (c : list fl) : Q :=
  match c with
  | [] => acc
  | Fin a :: c' => qsum_from (acc + a)%Q c'
  | _ :: c' => qsum_from acc c'
  end.

(** What the division by the row sum gives for the contributions [c] of
    a date: missing weights when every contribution is zero or missing,
    and weights that sum to 1 when no contribution is infinite and the
    contributions do not cancel. *)
Definition weight_law (c : list fl) : Prop :=
  (Forall zero_or_nan c -> Forall (fun w => w = NaN) (normalize c))
  /\ (Forall finite_or_nan c -> ~ fl_eq (sum_skipna c) (Fin 0) ->
      sums_to_one (normalize c)).

(** The same for contributions that cannot be negative: one contribution
    that is neither zero nor missing is enough. *)
Definition nonneg_weight_law (c : list fl) : Prop :=
  Forall nonneg_or_nan c
  /\ (Forall zero_or_nan c -> Forall (fun w => w = NaN) (normalize c))
  /\ (Exists contributes c -> sums_to_one (normalize c)).

(** The arguments that [add_group] is called with; [None] is an argument
    left at its default. *)
Record add_group_args : Type := mk_args {
  num_group : nat;
  ascending : option bool;
  rank_method : option string;
  na_option : option string
}.

(** [data.groupby([dates, data.group])['ret'].mean().unstack()[['Q01']]]:
    the mean return, date by date, of the rows whose label is Q01. *)
Definition first_group_return (labels : list string) (data : panel) (d : nat) : cell :=
  mean_cells
    (map (fun lr => cell_at (columns data) "ret" (snd lr))
         (filter (fun lr => String.eqb (fst lr) "Q01" && (r_date (snd lr) =? d))
                 (combine labels (rows data)))).

Definition top_group_returns (labels : list string) (data : panel) : result (list cell) :=
  if mem "ret" (columns data)
  then if mem "Q01" labels
       then ok (map (first_group_return labels data) (dates_of (rows data)))
       else raise (KeyError "['Q01'] not in index")
  else raise (KeyError "Column not found: ret").

Section Score.

(** [information_coefficient(x, y)[0]], from the [metrics] module. *)
Variable information_coefficient : list cell -> list cell -> cell.

(** [numpy]'s square root, for the rolling standard deviation. *)
Variable sqrtQ : Q -> Q.

(** [add_group(data, ...)], from the [analysis] module: the group label
    of every row. *)
Variable add_group : add_group_args -> panel -> list string.

(** The [code] and [ascend] columns of the file at [FACTORS_DETAIL_PATH]. *)
Variable FACTORS_DETAIL : list (string * bool).

(** [context_weighted()]: it reads a file at a fixed path and multiplies
    per-date matrices; no property below depends on what it computes. *)
Variable context_weighted : panel -> list string -> direction_arg -> py (list (row * fl)).

Definition std_cells (l : list cell) : cell :=
  let vs := valid l in
  if length vs <? 2
  then None
  else
    let m := (Qsum vs / Q_of_nat (length vs))%Q in
    Some (sqrtQ (Qsum (map (fun x => ((x - m) * (x - m))%Q) vs)
                 / Q_of_nat (length vs - 1))%Q).

(** The [ascending] flag of every factor, [not direction]. *)
Definition ascending_flags (direction : direction_arg) (facs : list string)
  : py (list bool) :=
  match direction with
  | DirNone =>
      lift (mapM (fun col => match lookup col (rev FACTORS_DETAIL) with
                             | Some b => ok (negb b)
                             | None => raise (KeyError col)
                             end) facs)
  | DirBool b => ret (map (fun _ => negb b) facs)
  | DirDict d =>
      _ <~ (if length d =? length facs then ret tt else print direction_warning) ;;
      ret (map (fun col => negb (dict_direction d col)) facs)
  end.

(** [score]'s [get_rank()]: one row of ranks per row of the panel. *)
Definition get_rank (p : panel) (facs : list string) (direction : direction_arg)
  : py (list (list nat)) :=
  flags <~ ascending_flags direction facs ;;
  ret (rows_of 0 (length (rows p))
         (map (fun fa => score_rank_column (snd fa) (map r_date (rows p))
                           (map (cell_at (columns p) (fst fa)) (rows p)))
              (combine facs flags))).

(** [get_ic()]: one row per date, one cell per factor. *)
Definition get_ic (p : panel) (facs : list string) : result (list (nat * list cell)) :=
  mapM (fun dg =>
          if mem "ret" (columns p)
          then ok (fst dg,
                   map (fun fac =>
                          information_coefficient
                            (map (cell_at (columns p) fac) (snd dg))
                            (map (cell_at (columns p) "ret") (snd dg)))
                       facs)
          else raise (KeyError "ret"))
       (groupby_date (rows p)).

Definition abs_cells (row : list cell) : list cell := map (option_map Qabs) row.

(** [equal_weighted()]: a weight of 1 for every date and factor, the
    mean of the products across the factors, and the join to the panel. *)
Definition equal_weighted (p : panel) (facs : list string) (direction : direction_arg)
  : py (list (row * fl)) :=
  rnk <~ get_rank p facs direction ;;
  let weight := map (fun d => (d, map (fun _ => Fin 1) facs)) (dates_of (rows p)) in
  join_panel p
    (sort_by scored_leb
       (map (fun rr => (fst rr,
                        mean_skipna (products (snd rr) (weight_at (r_date (fst rr)) weight))))
            (combine (rows p) rnk))).

(** The contributions of [ic_weighted()], the rolling mean of the
    absolute coefficients, and its weights. *)
Definition ic_contributions (p : panel) (facs : list string) (score_window : nat)
  : result (list (nat * list fl)) :=
  ic <- get_ic p facs ;;
  rolling_ic <- rolling score_window mean_cells (length facs)
                        (map (fun r => abs_cells (snd r)) ic) ;;
  ok (combine (map fst ic) (map (map fl_of_cell) rolling_ic)).

Definition ic_weights (p : panel) (facs : list string) (score_window : nat)
  : result (list (nat * list fl)) :=
  rolling_ic <- ic_contributions p facs score_window ;;
  ok (map (fun r => (fst r, normalize (snd r))) rolling_ic).

Definition ic_weighted (p : panel) (facs : list string) (direction : direction_arg)
  (score_window : nat) : py (list (row * fl)) :=
  weight <~ lift (ic_weights p facs score_window) ;;
  rank <~ get_rank p facs direction ;;
  join_panel p (weighted_score p rank weight).

(** The ratios of [icir_weighted()], [rolling_ic / rolling_std] after
    [rolling_std.iloc[0, :] = 1], and its weights. *)
Definition icir_ratios (p : panel) (facs : list string) (score_window : nat)
  : result (list (nat * list fl)) :=
  ic <- get_ic p facs ;;
  rolling_ic <- rolling score_window mean_cells (length facs)
                        (map (fun r => abs_cells (snd r)) ic) ;;
  rolling_std <- rolling score_window std_cells (length facs)
                         (map (fun r => abs_cells (snd r)) ic) ;;
  match rolling_std with
  | [] => raise (OtherError "IndexError: single positional indexer is out-of-bounds")
  | first :: rest =>
      let rolling_std := map (fun _ => Some 1%Q) first :: rest in
      ok (combine (map fst ic)
            (map (fun ms => map (fun m_s => fl_div (fl_of_cell (fst m_s)) (fl_of_cell (snd m_s)))
                                (combine (fst ms) (snd ms)))
                 (combine rolling_ic rolling_std)))
  end.

Definition icir_weights (p : panel) (facs : list string) (score_window : nat)
  : result (list (nat * list fl)) :=
  icir <- icir_ratios p facs score_window ;;
  ok (map (fun r => (fst r, normalize (snd r))) icir).

Definition icir_weighted (p : panel) (facs : list string) (direction : direction_arg)
  (score_window : nat) : py (list (row * fl)) :=
  weight <~ lift (icir_weights p facs score_window) ;;
  rank <~ get_rank p facs direction ;;
  join_panel p (weighted_score p rank weight).

(** The loop of [score]'s [ret_weighted()]: for each factor, its rank as
    the [score] column next to the reserved columns, grouped into 5, and
    the series of top-group returns appended to [first_group_returns]. *)
Definition score_first_group_returns (p : panel) (facs : list string)
  (rank : list (list nat)) : result (list (list cell)) :=
  mapM (fun j =>
          let others := other_names_of p in
          let data :=
            mk_panel ("score" :: others)
              (map (fun rr =>
                      mk_row (r_date (fst rr)) (r_code (fst rr))
                             (Some (Q_of_nat (nth j (snd rr) 0))
                              :: map (fun o => cell_at (columns p) o (fst rr)) others))
                   (combine (rows p) rank)) in
          top_group_returns (add_group (mk_args 5 None None None) data) data)
       (seq 0 (length facs)).

(** [returns], after [pd.concat(first_group_returns, axis=1)] and the
    rolling mean: a date by factor table. *)
Definition ret_contributions (p : panel) (facs : list string) (rank : list (list nat))
  (score_window : nat) : result (list (nat * list fl)) :=
  first_group_returns <- score_first_group_returns p facs rank ;;
  returns <- rolling score_window mean_cells (length first_group_returns)
                     (rows_of None (length (dates_of (rows p))) first_group_returns) ;;
  ok (combine (dates_of (rows p)) (map (map fl_of_cell) returns)).

Definition ret_weights (p : panel) (facs : list string) (rank : list (list nat))
  (score_window : nat) : result (list (nat * list fl)) :=
  returns <- ret_contributions p facs rank score_window ;;
  ok (map (fun r => (fst r, normalize (snd r))) returns).

Definition ret_weighted (p : panel) (facs : list string) (direction : direction_arg)
  (score_window : nat) : py (list (row * fl)) :=
  rank <~ get_rank p facs direction ;;
  weight <~ lift (ret_weights p facs rank score_window) ;;
  join_panel p (weighted_score p rank weight).

Definition valid_methods : list string :=
  ["equal_weighted"; "ic_weighted"; "icir_weighted"; "ret_weighted"; "context_weighted"].

(** [score(fac_ret_data, method, direction, score_window, num_group)];
    [num_group] is accepted and not used. *)
Definition score (fac_ret_data : panel) (method : string) (direction : direction_arg)
  (score_window : nat) : py (list (row * fl)) :=
  let p := sort_index fac_ret_data in
  facs <~ lift (check_factors p) ;;
  dispatch [("equal_weighted", equal_weighted p facs direction);
            ("ic_weighted", ic_weighted p facs direction score_window);
            ("icir_weighted", icir_weighted p facs direction score_window);
            ("ret_weighted", ret_weighted p facs direction score_window);
            ("context_weighted", context_weighted p facs direction)]
           method.

End Score.

(** *** [dynamic_score]

    Modelled at its default [rank_method='first'] and [na_option='keep'].
    The panel is not sorted first. *)

Inductive group_ascending_arg : Type :=
| GaBool (b : bool)
| GaDict (d : list (string * bool)).

Section DynamicScore.

Variable add_group : add_group_args -> panel -> list string.

(** [ic_weighted()], [icir_weighted()] and [context_weighted()] of
    [dynamic_score]: they divide a table by a series, select rows by the
    label 0 and read a file; no property below depends on what they
    compute. *)
Variable dynamic_ic_weighted : panel -> list string -> direction_arg -> nat -> py (list (row * fl)).
Variable dynamic_icir_weighted : panel -> list string -> direction_arg -> nat -> py (list (row * fl)).
Variable dynamic_context_weighted : panel -> list string -> direction_arg -> py (list (row * fl)).

(** [dynamic_score]'s [get_rank()]: with a [direction] that is neither a
    flag nor a dictionary, [rnk] is never bound. *)
Definition dynamic_get_rank (p : panel) (facs : list string) (direction : direction_arg)
  : py (list (list nat)) :=
  let ranks flags :=
    rows_of 0 (length (rows p))
      (map (fun fa => dynamic_rank_column (snd fa) (map r_date (rows p))
                        (map (cell_at (columns p) (fst fa)) (rows p)))
           (combine facs flags)) in
  match direction with
  | DirNone =>
      throw (OtherError "UnboundLocalError: local variable 'rnk' referenced before assignment")
  | DirBool b => ret (ranks (map (fun _ => negb b) facs))
  | DirDict d =>
      _ <~ (if length d =? length facs then ret tt else print direction_warning) ;;
      ret (ranks (map (fun col => negb (dict_direction d col)) facs))
  end.

(** [fac_ret_data[factor_names].mul(rnk.mean(axis=1), axis=0).sum(axis=1)] *)
Definition dynamic_equal_weighted (p : panel) (facs : list string)
  (direction : direction_arg) : py (list (row * fl)) :=
  rnk <~ dynamic_get_rank p facs direction ;;
  join_panel p
    (map (fun rr =>
            let mean_rank := mean_skipna (map fl_of_nat (snd rr)) in
            (fst rr,
             sum_skipna (map (fun fac => fl_mul (fl_of_cell (cell_at (columns p) fac (fst rr)))
                                                mean_rank)
                             facs)))
         (combine (rows p) rnk)).

(** [dynamic_score]'s [ret_weighted()].  The loop computes [ret] for each
    factor and never appends it: [first_group_returns] is still the empty
    list when [pd.concat] receives it.  What follows the [concat] is
    written as the source has it: a rolling mean over 12 rows, a division
    of the table by a series indexed by date, which matches no factor
    column and leaves every weight missing, and the weighted sum. *)
Definition dynamic_ret_weighted (p : panel) (facs : list string)
  (direction : direction_arg) (num_group : nat) (group_ascending : group_ascending_arg)
  : py (list (row * fl)) :=
  let group_ascending_default fac :=
    match group_ascending with
    | GaBool _ => false
    | GaDict d => dict_direction d fac
    end in
  let first_group_returns : list (option (list cell)) := [] in
  _ <~ lift (mapM (fun fac =>
                     let others := other_names_of p in
                     let data :=
                       mk_panel (fac :: others)
                         (map (fun r => mk_row (r_date r) (r_code r)
                                          (map (fun o => cell_at (columns p) o r) (fac :: others)))
                              (rows p)) in
                     top_group_returns
                       (add_group (mk_args num_group (Some (group_ascending_default fac))
                                           (Some "first") (Some "keep")) data)
                       data)
                  facs) ;;
  returns <~ lift (Util.pd_concat_axis1 first_group_returns) ;;
  returns <~ lift (rolling 12 mean_cells (length returns)
                           (rows_of None (length (dates_of (rows p))) returns)) ;;
  let weight := combine (dates_of (rows p)) (map (map (fun _ : cell => NaN)) returns) in
  rank <~ dynamic_get_rank p facs direction ;;
  join_panel p
    (map (fun rr => (fst rr,
                     sum_skipna (products (snd rr) (weight_at (r_date (fst rr)) weight))))
         (combine (rows p) rank)).

(** [dynamic_score(fac_ret_data, method, direction, score_window,
    num_group, group_ascending)] *)
Definition dynamic_score (fac_ret_data : panel) (method : string)
  (direction : direction_arg) (score_window num_group : nat)
  (group_ascending : group_ascending_arg) : py (list (row * fl)) :=
  let p := fac_ret_data in
  facs <~ lift (check_factors p) ;;
  dispatch [("equal_weighted", dynamic_equal_weighted p facs direction);
            ("ic_weighted", dynamic_ic_weighted p facs direction score_window);
            ("icir_weighted", dynamic_icir_weighted p facs direction score_window);
            ("ret_weighted", dynamic_ret_weighted p facs direction num_group group_ascending);
            ("context_weighted", dynamic_context_weighted p facs direction)]
           method.

End DynamicScore.

End Factors.

(** ** Collaborators and inputs used to run the code

    The functions that [src/] does not hold, and the panels and frames at
    which the properties below are evaluated. *)

Module Examples.
Import Factors.

Definition q (z : Z) : cell := Some (inject_Z z).

Definition qq (n : Z) (d : positive) : cell := Some (n # d).

(** [ranks] with the missing values pushed to the bottom, in their order
    of appearance ([na_option='bottom']). *)
Definition rank_bottom (ascending : bool) (vs : list cell) : list nat :=
  let order :=
    argsort ascending vs
    ++ flat_map (fun iv => match snd iv with
                           | None => [fst iv]
                           | Some _ => []
                           end)
                (combine (seq 0 (length vs)) vs) in
  map (fun i => S (position i order)) (seq 0 (length vs)).

(** The sizes of [k] buckets for [n] items: [n // k] each, and one more
    for the first [n mod k]. *)
Definition bucket_sizes (n k : nat) : list nat :=
  map (fun i => n / k + (if i <? n mod k then 1 else 0)) (seq 0 k).

(** The bucket, counted from 0, that holds a rank counted from 1. *)
Fixpoint bucket_of (sizes : list nat) (rank : nat) : nat :=
  match sizes with
  | [] => 0
  | size :: sizes' => if rank <=? size then 0 else S (bucket_of sizes' (rank - size))
  end.

Definition group_label (g : nat) : string :=
  if S g <? 10
  then ("Q0" ++ str_of_nat (S g))%string
  else ("Q" ++ str_of_nat (S g))%string.

(** Modelled from the spec: [add_group] of the [analysis] module, which
    [src/] does not hold (section 4.5, the grouping primitive).  On each
    date the rows are ranked on the first column of [data], ties in order
    of appearance and missing values last, descending unless [ascending]
    is set; the ranked rows are split into [num_group] buckets as evenly
    as possible, the first buckets taking the remainder; the labels are
    Q01, Q02, ... in rank order. *)
Definition add_group (args : add_group_args) (data : panel) : list string :=
  let asc := match ascending args with Some b => b | None => false end in
  groupby_apply ""
    (fun vs => map (fun r => group_label (bucket_of (bucket_sizes (length vs) (num_group args)) r))
                   (rank_bottom asc vs))
    (map r_date (rows data))
    (map (fun r => nth 0 (r_vals r) None) (rows data)).

(** Collaborators that the paths taken below never call. *)
Definition no_ic (x y : list cell) : cell := None.

Definition no_sqrt (x : Q) : Q := x.

Definition no_context (p : panel) (facs : list string) (d : direction_arg)
  : py (list (row * fl)) :=
  throw (OtherError "context_weighted").

(** The least-squares fit of a return on one factor and an intercept, in
    closed form: [beta = Sxy / Sxx] and [intercept = mean y - beta * mean x].
    When the factor is constant the design is singular and the
    pseudo-inverse gives the solution of least norm.  No row is an error,
    and so is a row that does not carry exactly one factor. *)
Definition one_factor (rows : list (list Q * Q)) : option (list (Q * Q)) :=
  fold_right (fun r acc =>
                match fst r, acc with
                | [x], Some l => Some ((x, snd r) :: l)
                | _, _ => None
                end) (Some []) rows.

Definition ols_single_factor (rows : list (list Q * Q)) : result (Q * list Q) :=
  match one_factor rows with
  | None => raise (OtherError "more than one factor")
  | Some [] => raise (ValueError "zero-size array to reduction operation maximum which has no identity")
  | Some xy =>
      let n := Q_of_nat (length xy) in
      let mx := (Qsum (map fst xy) / n)%Q in
      let my := (Qsum (map snd xy) / n)%Q in
      let sxx := Qsum (map (fun p => (fst p - mx) * (fst p - mx))%Q xy) in
      let sxy := Qsum (map (fun p => (fst p - mx) * (snd p - my))%Q xy) in
      if Qis_zero sxx
      then ok (Qred (my / (1 + mx * mx)), [Qred (mx * my / (1 + mx * mx))])%Q
      else ok (Qred (my - sxy / sxx * mx), [Qred (sxy / sxx)])%Q
  end.

(** The scores of a date, in the order of the output. *)
Definition date_scores {A} (d : nat) (out : list (row * A)) : list (string * A) :=
  map (fun ra => (r_code (fst ra), snd ra))
      (filter (fun ra => r_date (fst ra) =? d) out).

(** Two dates, three securities, one factor with 3, 1, 2 on date 1. *)
Definition panel_abc (x y z : cell) : panel :=
  mk_panel ["F1"; "ret"]
    [ mk_row 1 "A" [q 3; q 0]; mk_row 1 "B" [q 1; q 0]; mk_row 1 "C" [q 2; q 0];
      mk_row 2 "A" [x; q 0]; mk_row 2 "B" [y; q 0]; mk_row 2 "C" [z; q 0] ].

(** Two dates, three securities, one factor with a missing value on date
    1 and one on date 2. *)
Definition panel_missing : panel :=
  mk_panel ["F1"; "ret"]
    [ mk_row 1 "A" [q 5; q 0]; mk_row 1 "B" [None; q 0]; mk_row 1 "C" [q 3; q 0];
      mk_row 2 "A" [None; q 0]; mk_row 2 "B" [q 1; q 0]; mk_row 2 "C" [q 2; q 0] ].

(** A panel with a factor and no [ret] column. *)
Definition panel_no_ret : panel :=
  mk_panel ["F1"; "cap"]
    [ mk_row 1 "A" [q 3; q 10]; mk_row 1 "B" [q 1; q 20] ].

(** One date, two securities, two factors that rank them in opposite
    orders, and the returns of the two. *)
Definition panel_top_returns (a b : cell) : panel :=
  mk_panel ["F1"; "F2"; "ret"]
    [ mk_row 1 "A" [q 2; q 1; a]; mk_row 1 "B" [q 1; q 2; b] ].

(** Returns of +1/10 and -1/10. *)
Definition panel_opposite : panel := panel_top_returns (qq 1 10) (qq (-1) 10).

(** Two dates, three securities, one factor, with residuals that differ
    from one date to the next. *)
Definition panel_two_fits : panel :=
  mk_panel ["F1"; "ret"]
    [ mk_row 1 "A" [q 0; q 0]; mk_row 1 "B" [q 1; q 0]; mk_row 1 "C" [q 2; q 3];
      mk_row 2 "A" [q 0; q 0]; mk_row 2 "B" [q 1; q 3]; mk_row 2 "C" [q 2; q 0] ].

(** The same two dates followed by a third one with the returns given. *)
Definition panel_three_dates (a b c : cell) : panel :=
  mk_panel ["F1"; "ret"]
    (rows panel_two_fits
     ++ [ mk_row 3 "A" [q 1; a]; mk_row 3 "B" [q 2; b]; mk_row 3 "C" [q 0; c] ]).

(** The return that C1 states for a row: the intercept and the betas of
    the prior fit with the residual of the current one. *)
Definition claimed_return (prior current : fit_row) (xs : list Q) : Q :=
  add_products (p_intercept prior + p_resid current)%Q xs (p_betas prior).

(** A cross-section whose only target column, [M1], is entirely missing,
    next to one explanatory column. *)
Definition frame_all_missing : Util.frame :=
  Util.mk_frame ["A"; "B"] [("M1", [None; None]); ("ind", [q 1; q 0])].

(** The same cross-section with a [ret] column. *)
Definition frame_missing_and_ret : Util.frame :=
  Util.mk_frame ["A"; "B"]
    [("M1", [None; None]); ("ind", [q 1; q 0]); ("ret", [q 4; q 5])].

End Examples.

(** ** [util.py]: windows, outliers, scaling, groups and directions *)

Module Tools.
Import Util Factors.

(** *** [window] *)

Section Window.
Context {B : Type}.

(** Python's [None], with which [longest=True] pads the last windows. *)
Variable none : B.

(** The [for elem in it] loop: the window drops its first element and
    takes [elem]. *)
Fixpoint slide (result : list B) (it : list B) : list (list B) :=
  match it with
  | [] => []
  | elem :: it' => (tl result ++ [elem]) :: slide (tl result ++ [elem]) it'
  end.

(** [window(seq, n, longest)], as the list of the tuples it yields. *)
Definition window (data : list B) (n : nat) (longest : bool) : list (list B) :=
  let it := if longest then data ++ repeat none (n - 1) else data in
  let result := firstn n it in
  (if length result =? n then [result] else []) ++ slide result (skipn n it).

End Window.

(** *** [mean_abs_deviation], [get_factor_name], [extreme_process], [data_scale] *)

(** [data - m] for a scalar [m] that may be missing. *)
Definition sub_cells (data : list cell) (m : cell) : list cell :=
  map (fun c => match c, m with
                | Some x, Some y => Some (x - y)%Q
                | _, _ => None
                end) data.

(** [((data - data.mean()).abs()).mean()] *)
Definition mean_abs_deviation (data : list cell) : cell :=
  mean_cells (abs_cells (sub_cells data (mean_cells data))).

Definition keep_columns : list string := ["cap"; "benchmark_returns"; "ret"; "group"].

(** [data_.loc[:, name] = values] *)
Definition set_col (name : string) (values : list cell) (df : frame) : frame :=
  mk_frame (f_index df)
           (map (fun nc => if String.eqb (fst nc) name then (fst nc, values) else nc)
                (f_cols df)).

(** [Series.clip(lower, upper)] for two numbers: pandas puts them in
    order first. *)
Definition clip (lower upper x : Q) : Q :=
  let lo := if Qle_bool lower upper then lower else upper in
  let hi := if Qle_bool lower upper then upper else lower in
  if negb (Qle_bool lo x) then lo
  else if negb (Qle_bool x hi) then hi
  else x.

Definition fl_neg (x : fl) : fl :=
  match x with
  | Fin a => Fin (- a)
  | PInf => NInf
  | NInf => PInf
  | NaN => NaN
  end.

Definition fl_sub (x y : fl) : fl := fl_add x (fl_neg y).

(** The frame that [data_scale] returns: [s_frame] with its column
    [s_name] holding [s_values], which a division may have made infinite. *)
Record scaled : Type := mk_scaled {
  s_frame : frame;
  s_name : string;
  s_values : list fl
}.

Section Preprocess.

(** The element that [set.pop()] takes from a set of several names: the
    order of a Python set is not specified. *)
Variable set_pop : list string -> string.

Variable sqrtQ : Q -> Q.

(** What the [try] block of [extreme_process] leaves when a threshold is
    NaN: pandas refuses the threshold or ignores it, by version. *)
Variable clip_na : frame -> py frame.

(** [get_factor_name(fac_ret)]: [pop] on the set of the columns that are
    not kept. *)
Definition get_factor_name (cols : list string) : result string :=
  match dedup (filter (fun c => negb (mem c keep_columns)) cols) with
  | [] => raise (KeyError "pop from an empty set")
  | [f] => ok f
  | fs => ok (set_pop fs)
  end.

(** [extreme_process(data, num, method)] on a data frame. *)
Definition extreme_process (data : frame) (num : Q) (method : string) : py frame :=
  factor_name <~ lift (get_factor_name (map fst (f_cols data))) ;;
  col <~ lift (column factor_name data) ;;
  let mu := mean_cells col in
  let ind := if String.eqb method "mad"
             then mean_abs_deviation col
             else std_cells sqrtQ col in
  match mu, ind with
  | Some m, Some i =>
      ret (set_col factor_name
             (map (option_map (clip (m - num * i) (m + num * i))) col) data)
  | _, _ => clip_na data
  end.

(** [data_scale(data, method)].  NumPy rounds every operation and the
    arithmetic here is exact: of the scaled values only what rounding
    keeps is stated below (which cells are missing, the order of the
    values), not what holds of exact numbers alone (a mean of zero). *)
Definition data_scale (data : frame) (method : string) : result scaled :=
  factor_name <- get_factor_name (map fst (f_cols data)) ;;
  if String.eqb method "normal"
  then
    col <- column factor_name data ;;
    let centred := sub_cells col (mean_cells col) in
    ok (mk_scaled data factor_name
          (map (fun c => fl_div (fl_of_cell c) (fl_of_cell (std_cells sqrtQ col))) centred))
  else if String.eqb method "cap"
  then
    cap <- column "cap" data ;;
    let total := sum_skipna (map fl_of_cell cap) in
    let cap_weight := map (fun c => fl_div (fl_of_cell c) total) cap in
    col <- column factor_name data ;;
    let avg := sum_skipna (map (fun xw => fl_mul (fl_of_cell (fst xw)) (snd xw))
                               (combine col cap_weight)) in
    ok (mk_scaled data factor_name
          (map (fun c => fl_div (fl_sub (fl_of_cell c) avg)
                                (fl_of_cell (std_cells sqrtQ col))) col))
  else raise (ValueError "标准化算法现在仅支持normal与cap").

End Preprocess.

(** *** [cut_group] *)

(** [np.array(each_group).cumsum()], on top of [acc]. *)
Fixpoint cumsum_from (acc : nat) (l : list nat) : list nat :=
  match l with
  | [] => []
  | x :: l' => (acc + x) :: cumsum_from (acc + x) l'
  end.

(** [''.join(['Q', str(grp + 1)])] *)
Definition group_name (grp : nat) : string := ("Q" ++ str_of_nat (grp + 1))%string.

(** [mask = (idx > start) & (idx <= end); groups[mask] = label] *)
Definition set_group (idx : list nat) (groups : list (option string))
  (start end_ grp : nat) : list (option string) :=
  map (fun ig => if (start <? fst ig) && (fst ig <=? end_)
                 then Some (group_name grp)
                 else snd ig)
      (combine idx groups).

(** [cut_group(data_, num_group, col_name, ascending)] on the column to
    sort by.  The ranks are [data.rank(method='first',
    na_option='bottom', ascending=ascending)]; [groups] starts as a
    series of missing values, [None] here; the division by a
    [num_group] of 0 raises.  The assignment [data['group'] = groups]
    writes to the copy and is not seen by the caller. *)
Definition cut_group (data : list cell) (num_group : nat) (ascending : bool)
  : result (list (option string)) :=
  if num_group =? 0
  then raise (OtherError "ZeroDivisionError: integer division or modulo by zero")
  else
    let data_len := length data in
    let each_group := cumsum_from 0 (Examples.bucket_sizes data_len num_group) in
    let idx := Examples.rank_bottom ascending data in
    let groups := map (fun _ => None) idx in
    ok (fst (fold_left
               (fun st ge => (set_group idx (fst st) (snd st) (snd ge) (fst ge), snd ge))
               (combine (seq 0 (length each_group)) each_group)
               (groups, 0))).

(** *** [__frame_to_rank] *)

(** [asc[k] = -1 if v else 1] *)
Definition sign_of (v : bool) : Q := if v then (-1)%Q else 1%Q.

(** [__frame_to_rank(direction, standardized_factor)]; the dictionary is
    a list of items with distinct keys. *)
Definition __frame_to_rank (direction : list (string * bool)) (df : frame)
  : result frame :=
  cols <- mapM (fun nc =>
                  if negb (mem (fst nc) ["cap"])
                  then match lookup (fst nc) direction with
                       | Some v => ok (fst nc,
                                       map (option_map (fun x => x * sign_of v)%Q) (snd nc))
                       | None => raise (KeyError (fst nc))
                       end
                  else ok nc)
               (f_cols df) ;;
  ok (mk_frame (f_index df) cols).

End Tools.

(** ** Frames and panels for the tools and the edge cases *)

Module MoreExamples.
Import Util Examples.

(** One factor with a missing value and an outlier, next to kept columns. *)
Definition frame_pe : frame :=
  mk_frame ["a"; "b"; "c"; "d"]
           [("pe", [q 1; q 2; None; q 60]);
            ("cap", [q 10; q 20; q 30; q 40]);
            ("ret", [q 1; q 0; q 1; q 0])].

(** A factor of variance 1. *)
Definition frame_unit : frame :=
  mk_frame ["a"; "b"; "c"; "d"]
           [("pe", [q 1; None; q 2; q 3]);
            ("ret", [q 1; q 0; q 1; q 0])].

(** A square root that is exact on 0 and 1, the values the examples take
    it at. *)
Definition sqrt_01 (x : Q) : Q := x.

(** [set.pop] taking the first name. *)
Definition pop_first (fs : list string) : string := hd "" fs.

Definition no_clip_na (df : frame) : py frame := throw (OtherError "clip").

(** A panel with a return and no factor. *)
Definition panel_only_ret : Factors.panel :=
  Factors.mk_panel ["ret"; "cap"]
    [Factors.mk_row 1 "a" [q 1; q 10]; Factors.mk_row 1 "b" [q 2; q 20]].

(** A panel with a factor and no return. *)
Definition panel_only_factor : Factors.panel :=
  Factors.mk_panel ["F1"; "cap"]
    [Factors.mk_row 1 "a" [q 1; q 10]; Factors.mk_row 1 "b" [q 2; q 20]].

(** Two dates, a factor and the return, rows out of order. *)
Definition panel_shuffled : Factors.panel :=
  Factors.mk_panel ["F1"; "ret"]
    [Factors.mk_row 2 "b" [q 4; q 1];
     Factors.mk_row 1 "b" [q 2; q 3];
     Factors.mk_row 2 "a" [None; q 2];
     Factors.mk_row 1 "a" [q 1; q 5]].

(** A panel with a column named [score], which counts as a factor. *)
Definition panel_with_score : Factors.panel :=
  Factors.mk_panel ["score"; "ret"]
    [Factors.mk_row 1 "a" [q 1; q 5]; Factors.mk_row 1 "b" [q 2; q 3]].

Definition no_ols (rows : list (list Q * Q)) : result (Q * list Q) :=
  raise (OtherError "ols").

(** A regression that fits exactly: one residual of zero per row. *)
Definition exact_fit (formula : string) (df : frame) : result (list Q) :=
  ok (map (fun _ => 0%Q) (f_index df)).

(** A cross-section with a target column that is partly missing. *)
Definition frame_partly_missing : frame :=
  mk_frame ["A"; "B"; "C"]
           [("M1", [q 3; None; q 5]); ("ind", [q 1; q 0; q 1]); ("ret", [q 4; q 5; None])].

(** An information coefficient of one half on every date. *)
Definition half_ic (x y : list cell) : cell := Some (1 # 2).

Definition no_strategy (p : Factors.panel) (facs : list string)
  (d : Factors.direction_arg) (w : nat) : py (list (Factors.row * fl)) :=
  throw (OtherError "strategy").

End MoreExamples.

(** * Properties *)

(** ** The error monad *)

Module MonadFacts.

Lemma bind_ok {A B} (m : result A) (k : A -> result B) (b : B) :
  bind m k = ok b -> exists a, m = ok a /\ k a = ok b.
Proof.
  destruct m as [e|a]; simpl; intros H; [discriminate|]. now exists a.
Qed.

Lemma mapM_app {A B} (f : A -> result B) (l1 l2 : list A) (bs : list B) :
  mapM f (l1 ++ l2) = ok bs ->
  exists b1 b2, mapM f l1 = ok b1 /\ mapM f l2 = ok b2 /\ bs = b1 ++ b2.
Proof.
  revert bs; induction l1 as [|a l1 IH]; intros bs H; simpl in *.
  - exists [], bs. auto.
  - destruct (f a) as [e|b]; simpl in *; [discriminate|].
    destruct (mapM f (l1 ++ l2)) as [e|bs'] eqn:E; simpl in *; [discriminate|].
    destruct (IH bs' eq_refl) as (b1 & b2 & -> & H2 & ->).
    inversion H; subst. exists (b :: b1), b2. simpl. auto.
Qed.

Lemma mapM_ext_in {A B} (f g : A -> result B) (l : list A) :
  (forall a, In a l -> f a = g a) -> mapM f l = mapM g l.
Proof.
  induction l as [|a l IH]; intros H; simpl; [reflexivity|].
  rewrite (H a (or_introl eq_refl)), IH; [reflexivity|].
  intros b Hb. apply H. now right.
Qed.

Lemma mapM_map {A B C} (f : B -> result C) (g : A -> B) (l : list A) :
  mapM f (map g l) = mapM (fun a => f (g a)) l.
Proof.
  induction l as [|a l IH]; simpl; [reflexivity|]. now rewrite IH.
Qed.

Lemma mapM_In {A B} (f : A -> result B) (l : list A) (bs : list B) (b : B) :
  mapM f l = ok bs -> In b bs -> exists a, In a l /\ f a = ok b.
Proof.
  revert bs; induction l as [|a l IH]; intros bs H Hb; simpl in H.
  - inversion H; subst. contradiction.
  - destruct (f a) as [e|b0] eqn:Ea; simpl in H; [discriminate|].
    destruct (mapM f l) as [e|bs'] eqn:E; simpl in H; [discriminate|].
    inversion H; subst. destruct Hb as [->|Hb].
    + exists a. split; [now left | exact Ea].
    + destruct (IH bs' eq_refl Hb) as (a' & H1 & H2). exists a'. split; [now right | exact H2].
Qed.

Lemma mapM_In_inv {A B} (f : A -> result B) (l : list A) (bs : list B) (a : A) :
  mapM f l = ok bs -> In a l -> exists b, f a = ok b /\ In b bs.
Proof.
  revert bs; induction l as [|a0 l IH]; intros bs H Ha; simpl in H; [contradiction|].
  apply bind_ok in H as (b0 & Hb0 & H). apply bind_ok in H as (bs' & Hbs & H).
  inversion H; subst bs; clear H. destruct Ha as [->|Ha].
  - exists b0. split; [exact Hb0 | now left].
  - destruct (IH bs' Hbs Ha) as (b & H1 & H2). exists b. split; [exact H1 | now right].
Qed.

Lemma mapM_length {A B} (f : A -> result B) (l : list A) (bs : list B) :
  mapM f l = ok bs -> length bs = length l.
Proof.
  revert bs; induction l as [|a l IH]; intros bs H; simpl in H.
  - inversion H. reflexivity.
  - destruct (f a) as [e|b]; simpl in H; [discriminate|].
    destruct (mapM f l) as [e|bs']; simpl in H; [discriminate|].
    inversion H. simpl. f_equal. now apply IH.
Qed.

End MonadFacts.

(** ** Stable sorting *)

Module SortFacts.

Lemma insert_by_perm {A} (le : A -> A -> bool) (x : A) (l : list A) :
  Permutation (insert_by le x l) (x :: l).
Proof.
  induction l as [|y l IH]; simpl; [reflexivity|].
  destruct (le x y); [reflexivity|].
  rewrite IH. apply perm_swap.
Qed.

Lemma sort_by_perm {A} (le : A -> A -> bool) (l : list A) :
  Permutation (sort_by le l) l.
Proof.
  induction l as [|x l IH]; simpl; [reflexivity|].
  rewrite insert_by_perm. now constructor.
Qed.

Lemma sort_by_In {A} (le : A -> A -> bool) (l : list A) (x : A) :
  In x (sort_by le l) <-> In x l.
Proof.
  split; apply Permutation_in; [|symmetry]; apply sort_by_perm.
Qed.

Lemma insert_by_rel {A} (R : A -> A -> Prop) (le : A -> A -> bool)
  (x x' : A) (l l' : list A) :
  (forall a a' b b', R a a' -> R b b' -> le a b = le a' b') ->
  R x x' -> Forall2 R l l' ->
  Forall2 R (insert_by le x l) (insert_by le x' l').
Proof.
  intros Hle Hx H; induction H as [|y y' l l' Hy H IH]; simpl.
  - repeat constructor. exact Hx.
  - rewrite (Hle x x' y y' Hx Hy).
    destruct (le x' y'); repeat constructor; assumption.
Qed.

Lemma sort_by_rel {A} (R : A -> A -> Prop) (le : A -> A -> bool) (l l' : list A) :
  (forall a a' b b', R a a' -> R b b' -> le a b = le a' b') ->
  Forall2 R l l' ->
  Forall2 R (sort_by le l) (sort_by le l').
Proof.
  intros Hle H; induction H as [|x x' l l' Hx H IH]; simpl.
  - constructor.
  - now apply insert_by_rel.
Qed.

Lemma insert_leb_sorted (x : nat) (l : list nat) :
  StronglySorted le l -> StronglySorted le (insert_by Nat.leb x l).
Proof.
  induction 1 as [|y l Hs IH Hy]; simpl.
  - repeat constructor.
  - destruct (Nat.leb x y) eqn:E.
    + apply Nat.leb_le in E. constructor; [now constructor|].
      constructor; [exact E|]. revert Hy. apply Forall_impl. intros; lia.
    + apply Nat.leb_gt in E. constructor; [exact IH|].
      eapply Permutation_Forall; [symmetry; apply insert_by_perm|].
      constructor; [lia | exact Hy].
Qed.

Lemma sort_leb_sorted (l : list nat) : StronglySorted le (sort_by Nat.leb l).
Proof.
  induction l as [|x l IH]; simpl; [constructor | now apply insert_leb_sorted].
Qed.

(** A sorted list of dates is the dates before [T] followed by the
    others. *)
Lemma sorted_split (T : nat) (l : list nat) :
  StronglySorted le l ->
  l = filter (fun d => d <? T) l ++ filter (fun d => negb (d <? T)) l.
Proof.
  induction 1 as [|a l Hs IH Ha]; simpl; [reflexivity|].
  destruct (a <? T) eqn:E; simpl.
  - now rewrite <- IH.
  - apply Nat.ltb_ge in E.
    assert (Hall : forall d, In d l -> (d <? T) = false).
    { intros d Hd. apply Nat.ltb_ge. rewrite Forall_forall in Ha.
      specialize (Ha d Hd). lia. }
    replace (filter (fun d => d <? T) l) with (@nil nat).
    + simpl. f_equal.
      clear -Hall. induction l as [|b l IH]; simpl; [reflexivity|].
      rewrite (Hall b (or_introl eq_refl)). simpl. f_equal.
      apply IH. intros d Hd. apply Hall. now right.
    + clear -Hall. induction l as [|b l IH]; simpl; [reflexivity|].
      rewrite (Hall b (or_introl eq_refl)).
      apply IH. intros d Hd. apply Hall. now right.
Qed.

End SortFacts.

(** ** The industry lookup *)

Module UtilFacts.
Import Util.

Lemma firstn_skipn_app {A} (x y : nat) (m : list A) :
  firstn x m ++ firstn y (skipn x m) = firstn (x + y) m.
Proof.
  revert m; induction x as [|x IH]; intros m; simpl.
  - reflexivity.
  - destruct m as [|a m]; simpl.
    + now rewrite firstn_nil.
    + now rewrite IH.
Qed.

Lemma slice_app {A} (l : list A) (a b c : nat) :
  a <= b -> b <= c -> slice l a b ++ slice l b c = slice l a c.
Proof.
  intros Hab Hbc. unfold slice.
  replace (skipn b l) with (skipn (b - a) (skipn a l)).
  - rewrite firstn_skipn_app. f_equal. lia.
  - rewrite skipn_skipn. f_equal. lia.
Qed.

Lemma last_cons_default {A} (l : list A) (b a d : A) :
  last (b :: l) a = last (b :: l) d.
Proof.
  revert b; induction l as [|c l IH]; intros b; simpl; auto.
  apply (IH c).
Qed.

Lemma last_cons {A} (l : list A) (b a : A) : last (b :: l) a = last l b.
Proof.
  destruct l as [|c l]; [reflexivity|].
  change (last (b :: c :: l) a) with (last (c :: l) a).
  apply last_cons_default.
Qed.

Lemma chain_last (a : nat) (cs : list nat) : chain a cs -> a <= last cs a.
Proof.
  revert a; induction cs as [|b cs IH]; intros a H.
  - simpl. lia.
  - destruct H as [Hab Hc]. rewrite last_cons.
    specialize (IH b Hc). lia.
Qed.

Lemma concat_slices {A} (l : list A) (cs : list nat) (a : nat) :
  chain a cs ->
  concat (map (fun ij => slice l (fst ij) (snd ij))
              (combine (removelast (a :: cs)) cs))
  = slice l a (last cs a).
Proof.
  revert a; induction cs as [|b cs IH]; intros a H.
  - simpl. unfold slice. now rewrite Nat.sub_diag.
  - destruct H as [Hab Hc].
    change (removelast (a :: b :: cs)) with (a :: removelast (b :: cs)).
    cbn [combine map concat fst snd].
    rewrite (IH b Hc).
    rewrite slice_app; [| exact Hab | now apply chain_last].
    f_equal. symmetry. apply last_cons.
Qed.

Lemma chain_range (m k s : nat) :
  (s + k) * 100 <= m ->
  chain (s * 100) (map (fun i => i * 100) (seq (S s) k) ++ [m]).
Proof.
  revert s; induction k as [|k IH]; intros s H; simpl.
  - split; [lia | exact I].
  - split; [lia|]. apply (IH (S s)). lia.
Qed.

Lemma cutter_shape (n : nat) :
  100 < n ->
  exists cs, cutter n = 0 :: cs /\ chain 0 cs /\ last cs 0 = n - 1.
Proof.
  intros Hn. unfold cutter, py_range.
  assert (Hk : exists k, (n + 100 - 1) / 100 = S k /\ k * 100 <= n - 1).
  { exists ((n + 100 - 1) / 100 - 1).
    pose proof (Nat.div_mod_eq (n + 100 - 1) 100) as E.
    pose proof (Nat.mod_upper_bound (n + 100 - 1) 100) as B.
    split; lia. }
  destruct Hk as (k & -> & Hle).
  exists (map (fun i => i * 100) (seq 1 k) ++ [n - 1]).
  split; [reflexivity|]. split.
  - apply (chain_range (n - 1) k 0). simpl. lia.
  - now rewrite last_last.
Qed.

Lemma removelast_firstn_pred {A} (l : list A) :
  removelast l = firstn (length l - 1) l.
Proof.
  induction l as [|a l IH]; [reflexivity|].
  destruct l as [|b l]; [reflexivity|].
  change (removelast (a :: b :: l)) with (a :: removelast (b :: l)).
  rewrite IH. simpl. now rewrite Nat.sub_0_r.
Qed.

(** The table returned is made of the answers to the requests, in order. *)
Lemma get_stock_industry_answers (A B : Type) (upstream : list A -> list B)
  (codes : list A) :
  __get_stock_industry upstream codes = concat (map upstream (requests codes)).
Proof.
  unfold __get_stock_industry, requests.
  destruct (100 <? length codes).
  - rewrite map_map.
    assert (H : forall l acc,
               fold_left (fun df ij => df ++ upstream (slice codes (fst ij) (snd ij))) l acc
               = acc ++ concat (map (fun ij => upstream (slice codes (fst ij) (snd ij))) l)).
    { induction l as [|ij l IH]; intros acc; simpl.
      - now rewrite app_nil_r.
      - rewrite IH. now rewrite <- app_assoc. }
    apply (H _ []).
  - simpl. now rewrite app_nil_r.
Qed.

(** C9.  A list of more than 100 identifiers is cut at 0, 100, 200, ...
    and at [codes_len - 1]: the requests carry every identifier but the
    last one, which no request holds. *)
Theorem requests_miss_last_code (A : Type) (codes : list A) :
  100 < length codes ->
  queried codes = removelast codes.
Proof.
  intros Hn. unfold queried, requests.
  apply Nat.ltb_lt in Hn as Hb. rewrite Hb.
  apply Nat.ltb_lt in Hb.
  destruct (cutter_shape (length codes) Hb) as (cs & Hc & Hch & Hl).
  unfold dict_cutter. rewrite Hc. cbn [tl].
  rewrite (concat_slices codes cs 0 Hch), Hl.
  unfold slice. rewrite Nat.sub_0_r. simpl.
  symmetry. apply removelast_firstn_pred.
Qed.

Lemma requests_miss_last_code_witness :
  100 < length (seq 0 101) /\ queried (seq 0 101) = removelast (seq 0 101).
Proof.
  split.
  - vm_compute. lia.
  - apply (requests_miss_last_code nat (seq 0 101)). vm_compute. lia.
Defined.

End UtilFacts.

(** ** Neutralization *)

Module NeutralFacts.
Import Util Examples.

(** A regression that fails leaves the column as it was: the handler
    returns [df[col]]. *)
Lemma single_neutral_failure_passthrough
  (smf : string -> frame -> result (list Q)) (col formula : string)
  (df : frame) (c : list cell) (e : exn) :
  column col df = ok c ->
  try_neutral smf col formula df = raise e ->
  __single_neutral smf col formula df = ok (Some (col, c)).
Proof.
  intros Hc Ht. unfold __single_neutral.
  destruct (negb (mem col reserved_neutral)).
  - rewrite Ht. unfold raise. rewrite Hc. reflexivity.
  - rewrite Hc. reflexivity.
Qed.

(** A target column that is entirely missing takes neither [return] of
    the [try] block: the call returns [None], not the column. *)
Lemma single_neutral_all_missing_returns_none
  (smf : string -> frame -> result (list Q)) (col formula : string)
  (df : frame) (c : list cell) :
  mem col reserved_neutral = false ->
  column col df = ok c ->
  count_nan c = length (f_index df) ->
  __single_neutral smf col formula df = ok None.
Proof.
  intros Hr Hc Hn. unfold __single_neutral, try_neutral.
  rewrite Hr, Hc. cbn [negb bind ok].
  rewrite Hn, Nat.eqb_refl. reflexivity.
Qed.

(** Next to a column that a worker does return, the missing column stays
    as it was. *)
Lemma single_neutral_missing_next_to_ret
  (smf : string -> frame -> result (list Q)) :
  exists df,
    single_neutral smf frame_missing_and_ret = ok df
    /\ lookup "M1" (f_cols df) = Some [None; None].
Proof.
  eexists. split; reflexivity.
Qed.

(** C7.  On a cross-section whose only target column is entirely missing
    every worker returns [None], [pd.concat] refuses the list, and the
    error reaches the caller of [single_neutral], whatever the regression
    does: the column is not handed back. *)
Theorem single_neutral_all_missing_raises
  (smf : string -> frame -> result (list Q)) :
  single_neutral smf frame_all_missing
  = raise (ValueError "All objects passed were None").
Proof.
  reflexivity.
Qed.

End NeutralFacts.

(** ** Method dispatch *)

Module DispatchFacts.
Import Factors Examples.

Lemma lookup_not_mem {A} (k : string) (d : list (string * A)) :
  mem k (map fst d) = false -> lookup k d = None.
Proof.
  unfold mem, lookup. induction d as [|[k' v] d IH]; simpl; intros H.
  - reflexivity.
  - apply orb_false_iff in H as [H1 H2].
    rewrite String.eqb_sym, H1. now apply IH.
Qed.

(** The handler reports the method as not valid whenever the call raises
    a [KeyError], whether the lookup or the strategy raised it. *)
Lemma dispatch_unknown {A} (valid_method : list (string * py A)) (method : string) :
  mem method (map fst valid_method) = false ->
  dispatch valid_method method
  = ([not_valid_message method (map fst valid_method)], inl (KeyError method)).
Proof.
  intros H. unfold dispatch. now rewrite (lookup_not_mem _ _ H).
Qed.

Lemma dispatch_strategy_key_error {A} (valid_method : list (string * py A))
  (method k : string) (out : list string) :
  lookup method valid_method = Some (out, inl (KeyError k)) ->
  dispatch valid_method method
  = (out ++ [not_valid_message method (map fst valid_method)], inl (KeyError k)).
Proof.
  intros H. unfold dispatch. now rewrite H.
Qed.

Lemma check_factors_sorted (p : panel) :
  check_factors (sort_index p) = check_factors p.
Proof. reflexivity. Qed.

Lemma pbind_lift_ok {A B} (a : A) (k : A -> py B) :
  pbind (lift (ok a)) k = k a.
Proof.
  unfold pbind, lift, ok. simpl. now destruct (k a).
Qed.

(** C8.  On a panel with at least one factor column, a method name outside
    the five valid ones makes [score] raise [KeyError], after printing a
    message that lists the valid names. *)
Theorem score_unknown_method_raises
  (ic : list cell -> list cell -> cell) (sqrtQ : Q -> Q)
  (ag : add_group_args -> panel -> list string) (fd : list (string * bool))
  (cw : panel -> list string -> direction_arg -> py (list (row * fl)))
  (p : panel) (method : string) (direction : direction_arg) (score_window : nat) :
  factor_names_of p <> [] ->
  mem method valid_methods = false ->
  score ic sqrtQ ag fd cw p method direction score_window
  = ([(method ++ " is not a valid method. valid methods are: ['equal_weighted', 'ic_weighted', 'icir_weighted', 'ret_weighted', 'context_weighted']")%string],
     inl (KeyError method)).
Proof.
  intros Hf Hm. unfold score.
  rewrite check_factors_sorted. unfold check_factors.
  destruct (factor_names_of p) as [|f fs] eqn:E; [congruence|].
  rewrite pbind_lift_ok.
  rewrite dispatch_unknown; [reflexivity | exact Hm].
Qed.

Lemma score_unknown_method_raises_witness :
  factor_names_of (panel_abc None None None) <> []
  /\ mem "rank_weighted" valid_methods = false
  /\ score no_ic no_sqrt add_group [] no_context (panel_abc None None None)
           "rank_weighted" (DirBool false) 12
     = (["rank_weighted is not a valid method. valid methods are: ['equal_weighted', 'ic_weighted', 'icir_weighted', 'ret_weighted', 'context_weighted']"],
        inl (KeyError "rank_weighted")).
Proof.
  split; [|split].
  - vm_compute. discriminate.
  - reflexivity.
  - apply (score_unknown_method_raises no_ic no_sqrt add_group [] no_context
             (panel_abc None None None) "rank_weighted" (DirBool false) 12).
    + vm_compute. discriminate.
    + reflexivity.
Defined.

(** C10.  With a valid method name and a panel without a [ret] column the
    selected strategy raises [KeyError] from a column lookup; the handler
    of the dispatch catches it and prints that the method, which it lists
    among the valid ones, is not valid, before the error goes on.  So for
    [regress], [score] and [dynamic_score]. *)
Theorem valid_method_reported_invalid :
  (forall ols,
     regress ols panel_no_ret "common_regress"
     = (["common_regress is not a valid method. valid methods are: ['common_regress']"],
        inl (KeyError "ret")))
  /\ (forall ic sqrtQ ag fd cw,
        score ic sqrtQ ag fd cw panel_no_ret "ic_weighted" (DirBool false) 12
        = (["ic_weighted is not a valid method. valid methods are: ['equal_weighted', 'ic_weighted', 'icir_weighted', 'ret_weighted', 'context_weighted']"],
           inl (KeyError "ret")))
  /\ (forall ag s1 s2 s3,
        dynamic_score ag s1 s2 s3 panel_no_ret "ret_weighted" (DirBool false) 12 5
                      (GaBool false)
        = (["ret_weighted is not a valid method. valid methods are: ['equal_weighted', 'ic_weighted', 'icir_weighted', 'ret_weighted', 'context_weighted']"],
           inl (KeyError "Column not found: ret"))).
Proof.
  repeat split; intros; reflexivity.
Qed.

End DispatchFacts.

(** ** The return-weighted scheme *)

Module RetWeightedFacts.
Import Factors Examples MonadFacts.

(** [score]'s variant appends one series per factor. *)
Lemma score_returns_one_column_per_factor
  (ag : add_group_args -> panel -> list string) (p : panel) (facs : list string)
  (rank : list (list nat)) (cols : list (list cell)) :
  score_first_group_returns ag p facs rank = ok cols ->
  length cols = length facs.
Proof.
  intros H. unfold score_first_group_returns in H.
  apply mapM_length in H. now rewrite length_seq in H.
Qed.

(** C5.  [dynamic_score]'s variant never produces weights: its loop
    appends nothing, so [pd.concat] receives an empty list and raises,
    unless the loop itself has raised before.  Whatever the panel and the
    arguments, the outcome is an exception. *)
Theorem dynamic_ret_weighted_never_returns
  (ag : add_group_args -> panel -> list string) (p : panel) (facs : list string)
  (direction : direction_arg) (num_group : nat) (group_ascending : group_ascending_arg) :
  exists out e,
    dynamic_ret_weighted ag p facs direction num_group group_ascending = (out, inl e).
Proof.
  unfold dynamic_ret_weighted.
  match goal with
  | |- context [lift (mapM ?f facs)] => destruct (mapM f facs) as [e|cols]
  end.
  - exists [], e. reflexivity.
  - exists [], (ValueError "No objects to concatenate"). reflexivity.
Qed.

(** On a panel where every step of the loop succeeds, the error is that
    of the empty [concat]. *)
Lemma dynamic_ret_weighted_empty_concat :
  dynamic_ret_weighted add_group (panel_abc (q 1) (q 2) (q 3)) ["F1"]
                       (DirBool false) 5 (GaBool false)
  = ([], inl (ValueError "No objects to concatenate")).
Proof. reflexivity. Qed.

End RetWeightedFacts.

(** ** Ranks and the equal-weight score *)

Module RankFacts.
Import Factors Examples.

(** With [direction=False], larger is better, [rank] is called with
    [ascending=True]: the largest value has the largest rank. *)
Lemma rank_first_3_1_2 :
  rank_first true [q 3; q 1; q 2] = [Some 3; Some 1; Some 2]
  /\ rank_first false [q 3; q 1; q 2] = [Some 1; Some 3; Some 2].
Proof. split; reflexivity. Qed.

(** Equal values keep their order of appearance, in both directions. *)
Lemma rank_first_ties :
  rank_first true [q 2; q 1; q 2] = [Some 2; Some 1; Some 3]
  /\ rank_first false [q 2; q 1; q 2] = [Some 1; Some 3; Some 2].
Proof. split; reflexivity. Qed.

(** The scenario of C4 as stated fails: under [direction=False] the ranks
    and the scores of date 1 are 3, 1, 2 for A, B, C, not 1, 3, 2. *)
Lemma equal_weight_scores_are_not_1_3_2 :
  exists out,
    score no_ic no_sqrt add_group [] no_context
          (panel_abc (q 1) (q 2) (q 3)) "equal_weighted" (DirBool false) 12
    = ([], inr out)
    /\ date_scores 1 out = [("A", Fin 3); ("B", Fin 1); ("C", Fin 2)]
    /\ date_scores 1 out <> [("A", Fin 1); ("B", Fin 3); ("C", Fin 2)].
Proof.
  eexists. split; [reflexivity|]. split; [reflexivity|].
  vm_compute. discriminate.
Qed.

(** C4, amended.  With the values 3, 1, 2 on date 1, whatever the values
    of date 2, the equal-weight score under [direction=False] (larger is
    better) is the rank, and the rank grows with the value: 3, 1, 2 for
    A, B, C.  The ranks 1, 3, 2 are those of [direction=True]. *)
Theorem equal_weight_single_factor_scores
  (ic : list cell -> list cell -> cell) (sqrtQ : Q -> Q)
  (ag : add_group_args -> panel -> list string) (fd : list (string * bool))
  (cw : panel -> list string -> direction_arg -> py (list (row * fl)))
  (x y z : cell) (score_window : nat) :
  (exists out,
     score ic sqrtQ ag fd cw (panel_abc x y z) "equal_weighted" (DirBool false) score_window
     = ([], inr out)
     /\ date_scores 1 out = [("A", Fin 3); ("B", Fin 1); ("C", Fin 2)])
  /\ (exists out,
        score ic sqrtQ ag fd cw (panel_abc x y z) "equal_weighted" (DirBool true) score_window
        = ([], inr out)
        /\ date_scores 1 out = [("A", Fin 1); ("B", Fin 3); ("C", Fin 2)]).
Proof.
  split; eexists; (split; [reflexivity|]); vm_compute; reflexivity.
Qed.

(** C2.  [dynamic_score]'s [get_rank] adds to every rank the number of
    missing values of the whole column, all dates together: on date 1,
    with three securities and one missing value, the valid ranks are 4
    and 3, not 3 and 2.  [score]'s [get_rank] counts date by date and
    gives 3 and 2. *)
Theorem dynamic_get_rank_counts_missing_over_all_dates :
  dynamic_get_rank panel_missing ["F1"] (DirBool false)
  = ret [[4]; [0]; [3]; [0]; [3]; [4]]
  /\ get_rank [] panel_missing ["F1"] (DirBool false)
     = ret [[3]; [0]; [2]; [0]; [2]; [3]].
Proof. split; reflexivity. Qed.

End RankFacts.

(** ** Rank completeness of [score]'s [get_rank] *)

Module RankCompleteFacts.
Import Factors Examples SortFacts.

Lemma map_nth_seq {A} (l : list A) (dflt : A) :
  map (fun j => nth j l dflt) (seq 0 (length l)) = l.
Proof.
  induction l as [|a l IH]; simpl; [reflexivity|].
  f_equal. rewrite <- seq_shift, map_map. exact IH.
Qed.

Lemma filter_combine_length {A} (d : nat) (dates : list nat) (col : list A) :
  length dates = length col ->
  length (filter (fun e : nat * A => fst e =? d) (combine dates col))
  = length (filter (Nat.eqb d) dates).
Proof.
  revert col; induction dates as [|a dates IH]; intros [|c col] H; simpl in *;
    try discriminate; [reflexivity|].
  rewrite (Nat.eqb_sym d a). destruct (a =? d); simpl; rewrite IH; auto.
Qed.

(** The rows of a date receive, in their order, the values that the
    operation returns for that date. *)
Lemma groupby_apply_from {B} (dflt : B) (F : nat -> list B) (d : nat)
  (out : nat -> B) (pre suf : list nat) :
  (forall i, i < length (pre ++ suf) ->
     out i = nth (length (filter (Nat.eqb (nth i (pre ++ suf) 0)) (firstn i (pre ++ suf))))
                 (F (nth i (pre ++ suf) 0)) dflt) ->
  map snd (filter (fun e : nat * B => fst e =? d)
                  (combine suf (map out (seq (length pre) (length suf)))))
  = map (fun j => nth j (F d) dflt)
        (seq (length (filter (Nat.eqb d) pre)) (length (filter (Nat.eqb d) suf))).
Proof.
  revert pre; induction suf as [|a suf IH]; intros pre Hout; simpl; [reflexivity|].
  assert (E : pre ++ a :: suf = (pre ++ [a]) ++ suf) by (rewrite <- app_assoc; reflexivity).
  specialize (IH (pre ++ [a])). rewrite <- E in IH. specialize (IH Hout).
  rewrite length_app in IH. simpl in IH. rewrite Nat.add_1_r in IH.
  rewrite (Nat.eqb_sym d a). destruct (a =? d) eqn:Ea; simpl.
  - apply Nat.eqb_eq in Ea. subst a. rewrite IH. f_equal.
    + rewrite Hout by (rewrite length_app; simpl; lia).
      rewrite nth_middle, firstn_app, Nat.sub_diag, firstn_all. simpl.
      now rewrite app_nil_r.
    + rewrite filter_app, length_app. simpl. rewrite Nat.eqb_refl. simpl.
      now rewrite Nat.add_1_r.
  - rewrite IH. rewrite filter_app, length_app. simpl.
    rewrite (Nat.eqb_sym d a), Ea. simpl. now rewrite Nat.add_0_r.
Qed.

Lemma groupby_apply_group {A B} (dflt : B) (f : list A -> list B)
  (dates : list nat) (col : list A) (d : nat) :
  length dates = length col ->
  (forall g, length (f g) = length g) ->
  map snd (filter (fun e : nat * B => fst e =? d)
                  (combine dates (groupby_apply dflt f dates col)))
  = f (map snd (filter (fun e : nat * A => fst e =? d) (combine dates col))).
Proof.
  intros Hlen Hf. unfold groupby_apply. rewrite <- Hlen.
  rewrite (groupby_apply_from dflt
             (fun d' => f (map snd (filter (fun e : nat * A => fst e =? d') (combine dates col))))
             d _ [] dates).
  - simpl. rewrite <- (filter_combine_length d dates col Hlen).
    rewrite <- (length_map snd), <- Hf. apply map_nth_seq.
  - intros i _. reflexivity.
Qed.

(** *** The ranks of one date *)

Lemma positions_from_bound (s : nat) (g : list cell) :
  Forall (fun iv => s <= fst iv) (positions_from s g).
Proof.
  revert s; induction g as [|c g IH]; intros s; unfold positions_from in *; simpl.
  - constructor.
  - assert (H : Forall (fun iv : nat * Q => s <= fst iv)
                  (flat_map (fun iv => match snd iv with
                                       | Some v => [(fst iv, v)]
                                       | None => []
                                       end) (combine (seq (S s) (length g)) g))).
    { eapply Forall_impl; [|apply (IH (S s))]. simpl. intros; lia. }
    destruct c; simpl; [constructor; [simpl; lia | exact H] | exact H].
Qed.

Lemma positions_from_NoDup (s : nat) (g : list cell) :
  NoDup (map fst (positions_from s g)).
Proof.
  revert s; induction g as [|c g IH]; intros s; [constructor|].
  change (positions_from s (c :: g))
    with ((match c with Some v => [(s, v)] | None => [] end) ++ positions_from (S s) g).
  destruct c as [v|]; simpl; [|apply IH].
  constructor; [|apply IH].
  intros H. apply in_map_iff in H as (iv & E & Hin).
  pose proof (positions_from_bound (S s) g) as Hb.
  rewrite Forall_forall in Hb. specialize (Hb iv Hin). lia.
Qed.

Lemma positions_from_length (s : nat) (g : list cell) :
  length (positions_from s g) + count_nan g = length g.
Proof.
  revert s; induction g as [|c g IH]; intros s; [reflexivity|].
  change (positions_from s (c :: g))
    with ((match c with Some v => [(s, v)] | None => [] end) ++ positions_from (S s) g).
  unfold count_nan in *. destruct c as [v|]; simpl; specialize (IH (S s)); lia.
Qed.

(** The ranks of the rows with a value, for ranks given by position. *)
Lemma valid_ranks_by_position (h : nat -> nat) (s : nat) (g : list cell) :
  valid_ranks (combine g (map (fun iv : nat * cell =>
                                 match snd iv with Some _ => h (fst iv) | None => 0 end)
                              (combine (seq s (length g)) g)))
  = map h (map fst (positions_from s g))
  /\ Forall (fun r => r = 0)
       (missing_ranks (combine g (map (fun iv : nat * cell =>
                                         match snd iv with Some _ => h (fst iv) | None => 0 end)
                                      (combine (seq s (length g)) g)))).
Proof.
  revert s; induction g as [|c g IH]; intros s; [split; [reflexivity|constructor]|].
  change (positions_from s (c :: g))
    with ((match c with Some v => [(s, v)] | None => [] end) ++ positions_from (S s) g).
  destruct (IH (S s)) as (IH1 & IH2).
  unfold valid_ranks, missing_ranks in *. simpl.
  destruct c as [v|]; simpl; rewrite IH1; split; auto.
Qed.

Lemma position_self (l : list nat) :
  NoDup l -> map (fun i => position i l) l = seq 0 (length l).
Proof.
  induction 1 as [|x l Hx Hn IH]; simpl; [reflexivity|].
  rewrite Nat.eqb_refl. f_equal.
  rewrite <- seq_shift, <- IH, map_map. apply map_ext_in.
  intros i Hi. destruct (x =? i) eqn:E; [|reflexivity].
  apply Nat.eqb_eq in E. subst. contradiction.
Qed.

Lemma argsort_perm (asc : bool) (g : list cell) :
  Permutation (argsort asc g) (map fst (positions_from 0 g)).
Proof.
  unfold argsort. apply Permutation_map.
  apply sort_by_perm.
Qed.

Lemma count_none_rank_first (asc : bool) (g : list cell) :
  count_none (rank_first asc g) = count_nan g.
Proof.
  unfold rank_first, count_none, count_nan.
  generalize (argsort asc g) as order. generalize 0 as s.
  induction g as [|c g IH]; intros s order; simpl; [reflexivity|].
  destruct c; simpl; rewrite IH; reflexivity.
Qed.

Lemma rank_first_length (asc : bool) (g : list cell) :
  length (rank_first asc g) = length g.
Proof.
  unfold rank_first. rewrite length_map, length_combine, length_seq. lia.
Qed.

Lemma add_nulls_length (x : list (option nat)) : length (add_nulls x) = length x.
Proof. unfold add_nulls. apply length_map. Qed.

(** On one date with [N] rows of which [M] have no value, the rows with a
    value receive the ranks [M+1 .. N], each once, and the others 0. *)
Lemma date_ranks_complete (asc : bool) (g : list cell) :
  Permutation
    (valid_ranks (combine g (map fillna_rank (add_nulls (rank_first asc g)))))
    (seq (count_nan g + 1) (length g - count_nan g))
  /\ Forall (fun r => r = 0)
       (missing_ranks (combine g (map fillna_rank (add_nulls (rank_first asc g))))).
Proof.
  assert (E : map fillna_rank (add_nulls (rank_first asc g))
              = map (fun iv : nat * cell =>
                       match snd iv with
                       | Some _ => S (position (fst iv) (argsort asc g)) + count_nan g
                       | None => 0
                       end)
                    (combine (seq 0 (length g)) g)).
  { unfold add_nulls. rewrite count_none_rank_first. unfold rank_first.
    rewrite !map_map. apply map_ext. intros [i [v|]]; reflexivity. }
  rewrite E.
  destruct (valid_ranks_by_position
              (fun i => S (position i (argsort asc g)) + count_nan g) 0 g) as (H1 & H2).
  split; [|exact H2]. rewrite H1.
  pose proof (argsort_perm asc g) as Hp.
  assert (Hn : NoDup (argsort asc g)).
  { eapply Permutation_NoDup; [symmetry; exact Hp | apply positions_from_NoDup]. }
  rewrite <- Hp.
  rewrite <- (map_map (fun i => position i (argsort asc g)) (fun k => S k + count_nan g)).
  rewrite (position_self _ Hn).
  assert (El : length (argsort asc g) = length g - count_nan g).
  { rewrite (Permutation_length Hp), length_map.
    pose proof (positions_from_length 0 g). lia. }
  rewrite El. generalize (length g - count_nan g) as k. generalize (count_nan g) as m.
  intros m k. replace (m + 1) with (0 + S m) by lia. generalize 0 as s.
  induction k as [|k IH]; intros s; simpl; [reflexivity|].
  replace (s + S m) with (S (s + m)) by lia. constructor.
  replace (S (S (s + m))) with (S s + S m) by lia. apply IH.
Qed.

(** *** The ranks of a column, date by date *)

Lemma groupby_apply_length {A B} (dflt : B) (f : list A -> list B)
  (dates : list nat) (col : list A) :
  length (groupby_apply dflt f dates col) = length col.
Proof.
  unfold groupby_apply. now rewrite length_map, length_seq.
Qed.

Lemma filter_combine_map {A B} (P : nat -> bool) (h : A -> B)
  (dates : list nat) (col : list A) :
  map snd (filter (fun e : nat * B => P (fst e)) (combine dates (map h col)))
  = map h (map snd (filter (fun e : nat * A => P (fst e)) (combine dates col))).
Proof.
  revert col; induction dates as [|a dates IH]; intros [|c col]; simpl; try reflexivity.
  destruct (P a); simpl; now rewrite IH.
Qed.

Lemma filter_combine_pair {A B} (P : nat -> bool) (dates : list nat)
  (xs : list A) (ys : list B) :
  length dates = length xs -> length dates = length ys ->
  map snd (filter (fun e : nat * (A * B) => P (fst e)) (combine dates (combine xs ys)))
  = combine (map snd (filter (fun e : nat * A => P (fst e)) (combine dates xs)))
            (map snd (filter (fun e : nat * B => P (fst e)) (combine dates ys))).
Proof.
  revert xs ys; induction dates as [|a dates IH]; intros [|x xs] [|y ys] Hx Hy;
    simpl in *; try discriminate; [reflexivity|].
  destruct (P a); simpl; rewrite IH; auto.
Qed.

Lemma missing_ranks_length (g : list cell) (ranks : list nat) :
  length g = length ranks ->
  length (missing_ranks (combine g ranks)) = count_nan g.
Proof.
  revert ranks; induction g as [|c g IH]; intros [|r ranks] H; simpl in *;
    try discriminate; [reflexivity|].
  unfold missing_ranks, count_nan in *. simpl.
  destruct c; simpl; rewrite IH; auto.
Qed.

(** X25.  Rank completeness for [score]'s [get_rank]: in every column and on
    every date, with [N] securities of which [M] have no value, the
    securities with a value receive the ranks [M+1 .. N], each once, and
    the others receive 0. *)
Lemma score_rank_column_complete (asc : bool) (dates : list nat) (vs : list cell) (d : nat) :
  length dates = length vs ->
  let g := ranks_of_date d dates vs (score_rank_column asc dates vs) in
  let N := length g in
  let M := length (missing_ranks g) in
  Permutation (valid_ranks g) (seq (M + 1) (N - M))
  /\ Forall (fun r => r = 0) (missing_ranks g).
Proof.
  intros Hlen. cbv zeta.
  set (gv := map snd (filter (fun e : nat * cell => fst e =? d) (combine dates vs))).
  assert (E : ranks_of_date d dates vs (score_rank_column asc dates vs)
              = combine gv (map fillna_rank (add_nulls (rank_first asc gv)))).
  { unfold ranks_of_date, score_rank_column.
    rewrite (filter_combine_pair (fun x => x =? d)); [|exact Hlen|].
    - fold gv. f_equal.
      rewrite (filter_combine_map (fun x => x =? d)). f_equal.
      rewrite groupby_apply_group;
        [|now rewrite groupby_apply_length | apply add_nulls_length].
      f_equal. apply groupby_apply_group; [exact Hlen | apply rank_first_length].
    - now rewrite length_map, !groupby_apply_length. }
  rewrite E.
  assert (Hl : length gv = length (map fillna_rank (add_nulls (rank_first asc gv))))
    by now rewrite length_map, add_nulls_length, rank_first_length.
  rewrite (missing_ranks_length gv _ Hl), length_combine, <- Hl, Nat.min_id.
  apply date_ranks_complete.
Qed.

Lemma score_rank_column_complete_witness :
  Permutation
    (valid_ranks (ranks_of_date 2 [1; 2; 1; 2; 2] [q 5; q 7; None; None; q 9]
                    (score_rank_column false [1; 2; 1; 2; 2] [q 5; q 7; None; None; q 9])))
    [2; 3]
  /\ Forall (fun r => r = 0)
       (missing_ranks (ranks_of_date 2 [1; 2; 1; 2; 2] [q 5; q 7; None; None; q 9]
                         (score_rank_column false [1; 2; 1; 2; 2]
                                            [q 5; q 7; None; None; q 9]))).
Proof.
  apply (score_rank_column_complete false [1; 2; 1; 2; 2] [q 5; q 7; None; None; q 9] 2).
  reflexivity.
Defined.

(** With one flag for all factors, the columns of [get_rank] are those
    columns. *)
Lemma get_rank_columns (fd : list (string * bool)) (p : panel) (facs : list string)
  (b : bool) :
  get_rank fd p facs (DirBool b)
  = ret (rows_of 0 (length (rows p))
           (map (fun f => score_rank_column (negb b) (map r_date (rows p))
                            (map (cell_at (columns p) f) (rows p)))
                facs)).
Proof.
  unfold get_rank, ascending_flags, pbind, ret. simpl. do 3 f_equal.
  induction facs as [|f facs IH]; simpl; [reflexivity|]. now rewrite IH.
Qed.

End RankCompleteFacts.

(** ** Normalized weights *)

Module WeightFacts.
Import Factors Examples MonadFacts.

Lemma sum_skipna_finite (c : list fl) (acc : Q) :
  Forall finite_or_nan c ->
  fold_left (fun a x => if is_nan x then a else fl_add a x) c (Fin acc)
  = Fin (qsum_from acc c).
Proof.
  intros H; revert acc; induction H as [|x c Hx _ IH]; intros acc; simpl.
  - reflexivity.
  - destruct x as [a| | |]; simpl in *; try contradiction; apply IH.
Qed.

Lemma qsum_from_acc (c : list fl) (acc : Q) :
  (qsum_from acc c == acc + qsum_from 0 c)%Q.
Proof.
  revert acc; induction c as [|x c IH]; intros acc; simpl.
  - ring.
  - destruct x as [a| | |]; try apply IH.
    rewrite (IH (acc + a)%Q), (IH (0 + a)%Q). ring.
Qed.

Lemma zero_or_nan_finite (c : list fl) :
  Forall zero_or_nan c -> Forall finite_or_nan c.
Proof.
  apply Forall_impl. intros [a| | |]; simpl; tauto.
Qed.

Lemma nonneg_or_nan_finite (c : list fl) :
  Forall nonneg_or_nan c -> Forall finite_or_nan c.
Proof.
  apply Forall_impl. intros [a| | |]; simpl; tauto.
Qed.

Lemma qsum_zero (c : list fl) :
  Forall zero_or_nan c -> (qsum_from 0 c == 0)%Q.
Proof.
  induction 1 as [|x c Hx _ IH]; simpl.
  - reflexivity.
  - destruct x as [a| | |]; simpl in Hx; try contradiction; [|exact IH].
    rewrite qsum_from_acc, IH, Hx. ring.
Qed.

Lemma qsum_nonneg (c : list fl) :
  Forall nonneg_or_nan c -> (0 <= qsum_from 0 c)%Q.
Proof.
  induction 1 as [|x c Hx _ IH]; simpl.
  - apply Qle_refl.
  - destruct x as [a| | |]; simpl in Hx; try contradiction; [|exact IH].
    rewrite qsum_from_acc. lra.
Qed.

Lemma qsum_positive (c : list fl) :
  Forall nonneg_or_nan c -> Exists contributes c -> (0 < qsum_from 0 c)%Q.
Proof.
  induction 1 as [|x c Hx Hc IH]; intros He.
  - inversion He.
  - pose proof (qsum_nonneg c Hc) as Hn.
    simpl. destruct x as [a| | |]; simpl in Hx; try contradiction.
    + rewrite qsum_from_acc.
      inversion He as [? ? Hq|? ? Hq]; subst.
      * simpl in Hq. assert (0 < a)%Q by (apply Qle_lteq in Hx as [|E]; [assumption|]; exfalso; apply Hq; symmetry; exact E). lra.
      * specialize (IH Hq). lra.
    + inversion He as [? ? Hq|? ? Hq]; subst; [simpl in Hq; contradiction|].
      now apply IH.
Qed.

(** When every contribution of a date is zero or missing, every weight of
    that date is missing. *)
Lemma normalize_all_nan (c : list fl) :
  Forall zero_or_nan c -> Forall (fun w => w = NaN) (normalize c).
Proof.
  intros H.
  assert (E : sum_skipna c = Fin (qsum_from 0 c))
    by apply (sum_skipna_finite c 0 (zero_or_nan_finite c H)).
  unfold normalize. rewrite E.
  pose proof (qsum_zero c H) as Hz.
  apply Forall_map. revert H. apply Forall_impl.
  intros [a| | |]; simpl; try tauto. intros Ha.
  apply Qeq_bool_iff in Hz, Ha. unfold Qis_zero. now rewrite Hz, Ha.
Qed.

Lemma qsum_div (s : Q) (c : list fl) (acc : Q) :
  Forall finite_or_nan c ->
  Qis_zero s = false ->
  (qsum_from acc (map (fun x => fl_div x (Fin s)) c) == acc + qsum_from 0 c / s)%Q.
Proof.
  intros H Hs.
  assert (Hs' : ~ (s == 0)%Q).
  { intros E. apply Qeq_bool_iff in E. unfold Qis_zero in Hs. congruence. }
  revert acc; induction H as [|x c Hx _ IH]; intros acc; simpl.
  - field. exact Hs'.
  - destruct x as [a| | |]; simpl in Hx; try contradiction; simpl.
    + rewrite Hs. rewrite IH. rewrite (qsum_from_acc c (0 + a)%Q). field. exact Hs'.
    + apply IH.
Qed.

Lemma div_finite (s : Q) (c : list fl) :
  Forall finite_or_nan c ->
  Qis_zero s = false ->
  Forall finite_or_nan (map (fun x => fl_div x (Fin s)) c).
Proof.
  intros H Hs. apply Forall_map. revert H. apply Forall_impl.
  intros [a| | |]; simpl; try tauto. now rewrite Hs.
Qed.

(** When no contribution is infinite and their sum is not zero, the
    weights sum to 1. *)
Lemma normalize_sums_to_one (c : list fl) :
  Forall finite_or_nan c ->
  ~ fl_eq (sum_skipna c) (Fin 0) ->
  sums_to_one (normalize c).
Proof.
  intros H.
  assert (E : sum_skipna c = Fin (qsum_from 0 c)) by apply (sum_skipna_finite c 0 H).
  unfold sums_to_one, normalize. rewrite E. simpl. intros Hs.
  assert (Hb : Qis_zero (qsum_from 0 c) = false).
  { unfold Qis_zero. destruct (Qeq_bool (qsum_from 0 c) 0) eqn:E0; [|reflexivity].
    apply Qeq_bool_iff in E0. contradiction. }
  unfold sum_skipna.
  rewrite (sum_skipna_finite _ 0 (div_finite _ c H Hb)). simpl.
  rewrite (qsum_div _ c 0 H Hb). field. exact Hs.
Qed.

Lemma weight_law_holds (c : list fl) : weight_law c.
Proof.
  split; [apply normalize_all_nan | apply normalize_sums_to_one].
Qed.

Lemma nonneg_weight_law_holds (c : list fl) :
  Forall nonneg_or_nan c -> nonneg_weight_law c.
Proof.
  intros H. split; [exact H|]. split; [apply normalize_all_nan|].
  intros He. apply normalize_sums_to_one; [now apply nonneg_or_nan_finite|].
  assert (E : sum_skipna c = Fin (qsum_from 0 c))
    by apply (sum_skipna_finite c 0 (nonneg_or_nan_finite c H)).
  rewrite E. simpl. pose proof (qsum_positive c H He). lra.
Qed.

Lemma in_slice {A} (m : list A) (i j : nat) (x : A) : In x (slice m i j) -> In x m.
Proof.
  unfold slice. intros H.
  rewrite <- (firstn_skipn i m). apply in_or_app. right.
  rewrite <- (firstn_skipn (j - i) (skipn i m)). apply in_or_app. now left.
Qed.

Lemma Qsum_nonneg (vs : list Q) (acc : Q) :
  Forall (fun v => 0 <= v)%Q vs -> (0 <= acc)%Q -> (0 <= fold_left Qplus vs acc)%Q.
Proof.
  intros H; revert acc; induction H as [|v vs Hv _ IH]; intros acc Ha; simpl.
  - exact Ha.
  - apply IH. lra.
Qed.

Lemma valid_nonneg (l : list cell) :
  Forall (fun c => nonneg_or_nan (fl_of_cell c)) l -> Forall (fun v => 0 <= v)%Q (valid l).
Proof.
  induction 1 as [|c l Hc _ IH]; simpl; [constructor|].
  destruct c as [v|]; simpl; [constructor|]; assumption.
Qed.

Lemma Q_of_nat_pos (n : nat) : (0 < Q_of_nat (S n))%Q.
Proof.
  unfold Q_of_nat, Qlt. simpl. lia.
Qed.

Lemma mean_cells_nonneg (l : list cell) :
  Forall (fun c => nonneg_or_nan (fl_of_cell c)) l ->
  nonneg_or_nan (fl_of_cell (mean_cells l)).
Proof.
  intros H. apply valid_nonneg in H. unfold mean_cells.
  destruct (valid l) as [|v vs] eqn:E; [exact I|]. simpl fl_of_cell. cbn [nonneg_or_nan].
  apply Qle_shift_div_l; [apply Q_of_nat_pos|].
  rewrite Qmult_0_l. apply Qsum_nonneg; [exact H | apply Qle_refl].
Qed.

Lemma abs_cells_nonneg (row : list cell) :
  Forall (fun c => nonneg_or_nan (fl_of_cell c)) (abs_cells row).
Proof.
  unfold abs_cells. apply Forall_map. apply Forall_forall. intros [v|] _; simpl; [|exact I].
  apply Qabs_nonneg.
Qed.

Lemma rolling_mean_nonneg (w n : nat) (m R : list (list cell)) :
  Forall (Forall (fun c => nonneg_or_nan (fl_of_cell c))) m ->
  rolling w mean_cells n m = ok R ->
  Forall (fun r => Forall nonneg_or_nan (map fl_of_cell r)) R.
Proof.
  intros Hm H. unfold rolling in H. destruct (w =? 0); [discriminate|].
  inversion H; subst R; clear H.
  apply Forall_map. apply Forall_forall. intros i _.
  apply Forall_map. apply Forall_map. apply Forall_forall. intros j _.
  apply mean_cells_nonneg. apply Forall_map. apply Forall_forall. intros r Hr.
  apply in_slice in Hr. rewrite Forall_forall in Hm. specialize (Hm r Hr).
  destruct (nth_in_or_default j r None) as [Hin|Hd].
  - rewrite Forall_forall in Hm. now apply Hm.
  - rewrite Hd. exact I.
Qed.

(** The contributions of the IC scheme are never negative. *)
Lemma ic_contributions_nonneg
  (ic : list cell -> list cell -> cell) (p : panel) (facs : list string) (w : nat)
  (C : list (nat * list fl)) (d : nat) (c : list fl) :
  ic_contributions ic p facs w = ok C -> In (d, c) C -> Forall nonneg_or_nan c.
Proof.
  unfold ic_contributions. intros H Hin.
  apply bind_ok in H as (t & _ & H).
  apply bind_ok in H as (R & HR & H).
  inversion H; subst C; clear H.
  apply in_combine_r in Hin. apply in_map_iff in Hin as (r & <- & Hr).
  apply rolling_mean_nonneg in HR.
  - rewrite Forall_forall in HR. now apply HR.
  - apply Forall_map. apply Forall_forall. intros x _. apply abs_cells_nonneg.
Qed.

(** C3, amended.  For [ic_weighted], [icir_weighted] and [ret_weighted]
    the weights of a date are its contributions divided by their sum, the
    missing ones left out.  They are all missing when every contribution
    is zero or missing; they sum to 1 when no contribution is infinite and
    the sum of the contributions is not zero, which for [ic_weighted],
    whose contributions are never negative, is whenever one contribution
    is neither zero nor missing. *)
Theorem weights_are_normalized_contributions
  (ic : list cell -> list cell -> cell) (sqrtQ : Q -> Q)
  (ag : add_group_args -> panel -> list string)
  (p : panel) (facs : list string) (rank : list (list nat)) (w : nat) :
  (forall W, ic_weights ic p facs w = ok W ->
     exists C, ic_contributions ic p facs w = ok C
               /\ W = map (fun r => (fst r, normalize (snd r))) C
               /\ forall d c, In (d, c) C -> nonneg_weight_law c)
  /\ (forall W, icir_weights ic sqrtQ p facs w = ok W ->
        exists C, icir_ratios ic sqrtQ p facs w = ok C
                  /\ W = map (fun r => (fst r, normalize (snd r))) C
                  /\ forall d c, In (d, c) C -> weight_law c)
  /\ (forall W, ret_weights ag p facs rank w = ok W ->
        exists C, ret_contributions ag p facs rank w = ok C
                  /\ W = map (fun r => (fst r, normalize (snd r))) C
                  /\ forall d c, In (d, c) C -> weight_law c).
Proof.
  repeat split.
  - intros W H. unfold ic_weights in H. apply bind_ok in H as (C & HC & H).
    exists C. split; [exact HC|]. split; [now inversion H|].
    intros d c Hin. apply nonneg_weight_law_holds.
    exact (ic_contributions_nonneg ic p facs w C d c HC Hin).
  - intros W H. unfold icir_weights in H. apply bind_ok in H as (C & HC & H).
    exists C. split; [exact HC|]. split; [now inversion H|].
    intros d c _. apply weight_law_holds.
  - intros W H. unfold ret_weights in H. apply bind_ok in H as (C & HC & H).
    exists C. split; [exact HC|]. split; [now inversion H|].
    intros d c _. apply weight_law_holds.
Qed.

(** The claim of C3 as stated fails for [ret_weighted]: with top-group
    returns of +1/10 and -1/10 both factors contribute, their sum is 0,
    and the weights are the two infinities, which do not sum to 1. *)
Lemma ret_weights_cancel :
  exists rank,
    get_rank [] (sort_index panel_opposite) ["F1"; "F2"] (DirBool false) = ret rank
    /\ ret_contributions add_group (sort_index panel_opposite) ["F1"; "F2"] rank 12
       = ok [(1, [Fin (1 # 10); Fin (-1 # 10)])]
    /\ Forall contributes [Fin (1 # 10); Fin (-1 # 10)]
    /\ ret_weights add_group (sort_index panel_opposite) ["F1"; "F2"] rank 12
       = ok [(1, [PInf; NInf])]
    /\ ~ sums_to_one [PInf; NInf].
Proof.
  eexists. split; [reflexivity|]. split; [reflexivity|]. split.
  - repeat constructor; simpl; intros E; discriminate E.
  - split; [reflexivity|]. unfold sums_to_one. simpl. tauto.
Qed.

Lemma weights_are_normalized_contributions_witness :
  exists W C,
    ret_weights add_group (panel_top_returns (qq 3 10) (qq (-1) 10)) ["F1"; "F2"]
                [[2; 1]; [1; 2]] 12 = ok W
    /\ ret_contributions add_group (panel_top_returns (qq 3 10) (qq (-1) 10)) ["F1"; "F2"]
                         [[2; 1]; [1; 2]] 12 = ok C
    /\ W = map (fun r => (fst r, normalize (snd r))) C
    /\ (forall d c, In (d, c) C -> weight_law c)
    /\ Forall (fun r => sums_to_one (snd r)) W.
Proof.
  eexists.
  destruct (proj2 (proj2 (weights_are_normalized_contributions
                            no_ic no_sqrt add_group
                            (panel_top_returns (qq 3 10) (qq (-1) 10)) ["F1"; "F2"]
                            [[2; 1]; [1; 2]] 12)) _ eq_refl) as (C & HC & HW & Hlaw).
  exists C. split; [reflexivity|]. split; [exact HC|]. split; [exact HW|].
  split; [exact Hlaw|].
  repeat constructor.
Defined.

End WeightFacts.

(** ** The regression *)

Module RegressFacts.
Import Factors Examples MonadFacts SortFacts.

(** *** The dates of a panel *)

Lemma dedup_nat_In (l : list nat) (x : nat) : In x (dedup_nat l) <-> In x l.
Proof.
  induction l as [|y l IH]; simpl; [reflexivity|].
  destruct (existsb (Nat.eqb y) l) eqn:E.
  - rewrite IH. split; [now right|]. intros [->|H]; [|exact H].
    apply existsb_exists in E as (z & Hz & Ez). apply Nat.eqb_eq in Ez. now subst.
  - simpl. now rewrite IH.
Qed.

Lemma dedup_nat_NoDup (l : list nat) : NoDup (dedup_nat l).
Proof.
  induction l as [|y l IH]; simpl; [constructor|].
  destruct (existsb (Nat.eqb y) l) eqn:E; [exact IH|].
  constructor; [|exact IH].
  rewrite dedup_nat_In. intros Hy.
  assert (existsb (Nat.eqb y) l = true); [|congruence].
  apply existsb_exists. exists y. split; [exact Hy | apply Nat.eqb_refl].
Qed.

Lemma dates_of_sorted (rs : list row) : StronglySorted lt (dates_of rs).
Proof.
  unfold dates_of.
  assert (Hn : NoDup (sort_by Nat.leb (dedup_nat (map r_date rs)))).
  { eapply Permutation_NoDup; [symmetry; apply sort_by_perm | apply dedup_nat_NoDup]. }
  pose proof (sort_leb_sorted (dedup_nat (map r_date rs))) as Hs.
  induction Hs as [|a l Hs IH Ha]; [constructor|].
  inversion Hn as [|? ? Hnot Hn']; subst.
  constructor; [now apply IH|].
  rewrite Forall_forall in *. intros d Hd. specialize (Ha d Hd).
  assert (a <> d) by (intros ->; contradiction). lia.
Qed.

Lemma dates_of_In (rs : list row) (d : nat) :
  In d (dates_of rs) <-> exists r, In r rs /\ r_date r = d.
Proof.
  unfold dates_of. rewrite sort_by_In, dedup_nat_In, in_map_iff.
  split; intros (r & H1 & H2); exists r; tauto.
Qed.

(** *** From [regress] to [common_regress] *)

Lemma regress_ok (ols : list (list Q * Q) -> result (Q * list Q)) (p : panel)
  (method : string) (prints : list string) (out : list (row * Q)) :
  regress ols p method = (prints, ok out) ->
  common_regress ols (sort_index p) (factor_names_of p) = ok out.
Proof.
  unfold regress. change (check_factors (sort_index p)) with (check_factors p).
  unfold check_factors. destruct (factor_names_of p) as [|f fs] eqn:E.
  - simpl. discriminate.
  - rewrite DispatchFacts.pbind_lift_ok. unfold dispatch, lookup.
    cbn [find fst snd option_map].
    destruct (String.eqb "common_regress" method); cbn [option_map snd].
    + unfold lift.
      destruct (common_regress ols (sort_index p) (f :: fs)) as [e|o].
      * destruct e; intros H; inversion H.
      * intros H; inversion H; reflexivity.
    + unfold throw. intros H; inversion H.
Qed.

Lemma dedup_In (l : list string) (x : string) : In x (dedup l) -> In x l.
Proof.
  induction l as [|y l IH]; simpl; [tauto|].
  destruct (mem y l); simpl; intuition.
Qed.

Lemma factor_names_not_ret (p : panel) : ~ In "ret" (factor_names_of p).
Proof.
  unfold factor_names_of, sorted_set. rewrite sort_by_In. intros H.
  apply dedup_In in H. apply filter_In in H as [_ H]. discriminate H.
Qed.

(** *** The lag *)

Lemma shift_app (seen : list (string * fit_row)) (A B : list fit_row) :
  shift_by_code seen (A ++ B)
  = shift_by_code seen A
    ++ shift_by_code (rev (map (fun q => (p_code q, q)) A) ++ seen) B.
Proof.
  revert seen; induction A as [|a A IH]; intros seen; simpl; [reflexivity|].
  rewrite IH. rewrite <- app_assoc. reflexivity.
Qed.

Lemma shift_fst (seen : list (string * fit_row)) (B : list fit_row) :
  Forall (fun e => In (fst e) B) (shift_by_code seen B).
Proof.
  revert seen; induction B as [|b B IH]; intros seen; simpl; constructor.
  - now left.
  - eapply Forall_impl; [|apply IH]. intros e He. now right.
Qed.

Lemma lagged_app (A B : list fit_row) :
  exists LB, lagged (A ++ B) = lagged A ++ LB /\ Forall (fun e => In (fst e) B) LB.
Proof.
  unfold lagged. rewrite shift_app, flat_map_app. eexists. split; [reflexivity|].
  apply Forall_flat_map.
  eapply Forall_impl; [|apply shift_fst].
  intros [q [q'|]] Hq; simpl in *; repeat constructor. exact Hq.
Qed.

Lemma find_lag_app (d : nat) (c : string) (LA LB : list (fit_row * fit_row)) :
  Forall (fun e => p_date (fst e) <> d) LB ->
  find_lag d c (LA ++ LB) = find_lag d c LA.
Proof.
  intros H. unfold find_lag. f_equal.
  induction LA as [|a LA IH]; simpl.
  - induction H as [|b LB Hb _ IHB]; simpl; [reflexivity|].
    apply Nat.eqb_neq in Hb. rewrite Hb. simpl. exact IHB.
  - destruct ((p_date (fst a) =? d) && String.eqb (p_code (fst a)) c); [reflexivity|exact IH].
Qed.

(** *** Two panels that differ by the returns of date [T] *)

Section TwoRuns.

Variable ols : list (list Q * Q) -> result (Q * list Q).
Variables (cols facs : list string) (T : nat).
Hypothesis facs_not_ret : ~ In "ret" facs.

Let R := same_but_ret_at cols T.

Lemma key_leb_rel (a a' b b' : row) :
  R a a' -> R b b' -> key_leb a b = key_leb a' b'.
Proof.
  intros (Ha1 & Ha2 & _) (Hb1 & Hb2 & _). unfold key_leb.
  now rewrite Ha1, Ha2, Hb1, Hb2.
Qed.

Lemma dates_rel (l l' : list row) : Forall2 R l l' -> dates_of l = dates_of l'.
Proof.
  intros H. unfold dates_of. f_equal. f_equal.
  induction H as [|r r' l l' (Hr & _) _ IH]; simpl; congruence.
Qed.

Lemma group_rel (d : nat) (l l' : list row) :
  Forall2 R l l' -> Forall2 R (group_at d l) (group_at d l').
Proof.
  unfold group_at.
  induction 1 as [|r r' l l' Hr _ IH]; simpl; [constructor|].
  destruct Hr as (Hd & Hrest). rewrite <- Hd.
  destruct (r_date r =? d); [constructor|]; auto. split; assumption.
Qed.

Lemma group_dates (d : nat) (l : list row) :
  Forall (fun r => r_date r = d) (group_at d l).
Proof.
  apply Forall_forall. intros r Hr. apply filter_In in Hr as [_ Hr].
  now apply Nat.eqb_eq.
Qed.

Lemma factors_rel (r r' : row) :
  R r r' ->
  map (fun f => cell_at cols f r) facs = map (fun f => cell_at cols f r') facs.
Proof.
  intros (_ & _ & Hf & _). apply map_ext_in. intros f Hin. apply Hf.
  intros ->. contradiction.
Qed.

Lemma complete_rows_rel (g g' : list row) :
  Forall2 R g g' -> Forall (fun r => r_date r <> T) g ->
  complete_rows cols facs g = complete_rows cols facs g'.
Proof.
  unfold complete_rows.
  induction 1 as [|r r' g g' Hr _ IH]; intros Hd; simpl; [reflexivity|].
  inversion Hd as [|? ? Hr0 Hd']; subst.
  rewrite (IH Hd'). f_equal. unfold complete_case.
  rewrite (factors_rel r r' Hr).
  destruct Hr as (H1 & H2 & _ & H4). rewrite <- (H4 Hr0), H1, H2. reflexivity.
Qed.

Lemma ret_ols_fac_rel (d : nat) (l l' : list row) :
  Forall2 R l l' -> d <> T ->
  ret_ols_fac ols cols facs (group_at d l) = ret_ols_fac ols cols facs (group_at d l').
Proof.
  intros H Hd. unfold ret_ols_fac, fit_on.
  rewrite (complete_rows_rel (group_at d l) (group_at d l')); [reflexivity| |].
  - now apply group_rel.
  - eapply Forall_impl; [|apply group_dates]. intros r ->. exact Hd.
Qed.

Lemma ret_ols_fac_dates (d : nat) (l : list row) (fr : list fit_row) :
  ret_ols_fac ols cols facs (group_at d l) = ok fr ->
  Forall (fun q => p_date q = d) fr.
Proof.
  unfold ret_ols_fac. intros H. apply bind_ok in H as (fit & _ & H).
  inversion H; subst fr; clear H.
  apply Forall_map. unfold complete_rows. apply Forall_flat_map.
  eapply Forall_impl; [|apply group_dates].
  intros r Hr. destruct (complete_case cols facs r); repeat constructor. exact Hr.
Qed.

(** The parameter frames of the two runs share their rows of the dates
    before [T]; their other rows are of date [T] or later. *)
Lemma get_params_split (S S' : list row) (P P' : list fit_row) :
  Forall2 R S S' ->
  get_params ols (mk_panel cols S) facs = ok P ->
  get_params ols (mk_panel cols S') facs = ok P' ->
  exists A B B',
    P = A ++ B /\ P' = A ++ B'
    /\ Forall (fun q => T <= p_date q) B /\ Forall (fun q => T <= p_date q) B'.
Proof.
  intros HR HP HP'. unfold get_params in *. cbn [columns rows] in *.
  destruct (mem "ret" cols); [|discriminate].
  apply bind_ok in HP as (fr & HP & E). inversion E; subst P; clear E.
  apply bind_ok in HP' as (fr' & HP' & E). inversion E; subst P'; clear E.
  unfold groupby_date in *. rewrite mapM_map in HP, HP'. cbn [snd] in *.
  rewrite <- (dates_rel S S' HR) in HP'.
  assert (Hs : StronglySorted le (dates_of S)) by apply sort_leb_sorted.
  rewrite (sorted_split T _ Hs) in HP, HP'.
  apply mapM_app in HP as (a & b & Ha & Hb & ->).
  apply mapM_app in HP' as (a' & b' & Ha' & Hb' & ->).
  assert (a' = a).
  { rewrite (mapM_ext_in _ (fun d => ret_ols_fac ols cols facs (group_at d S'))) in Ha.
    - rewrite Ha in Ha'. now inversion Ha'.
    - intros d Hd. apply filter_In in Hd as [_ Hd]. apply Nat.ltb_lt in Hd.
      apply ret_ols_fac_rel; [exact HR | lia]. }
  subst a'. exists (concat a), (concat b), (concat b').
  rewrite !concat_app. repeat split; try reflexivity.
  - apply Forall_concat. apply Forall_forall. intros f Hf.
    destruct (mapM_In _ _ _ f Hb Hf) as (d & Hd & Hfd).
    apply filter_In in Hd as [_ Hd]. apply negb_true_iff, Nat.ltb_ge in Hd.
    eapply Forall_impl; [|apply (ret_ols_fac_dates d S f Hfd)]. intros q ->. exact Hd.
  - apply Forall_concat. apply Forall_forall. intros f Hf.
    destruct (mapM_In _ _ _ f Hb' Hf) as (d & Hd & Hfd).
    apply filter_In in Hd as [_ Hd]. apply negb_true_iff, Nat.ltb_ge in Hd.
    eapply Forall_impl; [|apply (ret_ols_fac_dates d S' f Hfd)]. intros q ->. exact Hd.
Qed.

Lemma combine_row_date (lag : list (fit_row * fit_row)) (r : row) :
  Forall (fun o => r_date (fst o) = r_date r) (combine_row cols facs lag r).
Proof.
  unfold combine_row.
  destruct (find_lag (r_date r) (r_code r) lag); [|constructor].
  destruct (all_some _); repeat constructor.
Qed.

Lemma combine_rows_before (LA LB LB' : list (fit_row * fit_row)) (S S' : list row) :
  Forall (fun e => T <= p_date (fst e)) LB ->
  Forall (fun e => T <= p_date (fst e)) LB' ->
  Forall2 R S S' ->
  before T (reconstructed (flat_map (combine_row cols facs (LA ++ LB)) S))
  = before T (reconstructed (flat_map (combine_row cols facs (LA ++ LB')) S')).
Proof.
  intros HB HB'. induction 1 as [|r r' S S' Hr _ IH]; simpl; [reflexivity|].
  unfold reconstructed, before in *. rewrite !map_app, !filter_app, IH. f_equal.
  destruct (r_date r <? T) eqn:E.
  - apply Nat.ltb_lt in E. unfold combine_row.
    rewrite <- (factors_rel r r' Hr).
    destruct Hr as (H1 & H2 & _). rewrite <- H1, <- H2.
    rewrite !find_lag_app.
    + destruct (find_lag (r_date r) (r_code r) LA); [|reflexivity].
      destruct (all_some _); [|reflexivity]. simpl. now rewrite <- H1, <- H2.
    + eapply Forall_impl; [|exact HB']. simpl. intros; lia.
    + eapply Forall_impl; [|exact HB]. simpl. intros; lia.
  - assert (Hnone : forall lag x, r_date x = r_date r ->
              filter (fun o : nat * string * Q => fst (fst o) <? T)
                (map (fun o => (r_date (fst o), r_code (fst o), snd o))
                     (combine_row cols facs lag x)) = []).
    { intros lag x Hx. pose proof (combine_row_date lag x) as Hd.
      induction Hd as [|o l Ho _ IHd]; simpl; [reflexivity|].
      rewrite Ho, Hx, E. exact IHd. }
    rewrite (Hnone _ r eq_refl), (Hnone _ r'); [reflexivity|].
    destruct Hr as (H1 & _). now symmetry.
Qed.

End TwoRuns.

(** C6.  Two runs of [regress] on panels that differ only by the returns
    of date [T] reconstruct the same returns on every date before [T]. *)
Theorem regress_no_look_ahead
  (ols : list (list Q * Q) -> result (Q * list Q)) (p p' : panel) (T : nat)
  (method : string) (prints prints' : list string) (out out' : list (row * Q)) :
  columns p' = columns p ->
  Forall2 (same_but_ret_at (columns p) T) (rows p) (rows p') ->
  regress ols p method = (prints, ok out) ->
  regress ols p' method = (prints', ok out') ->
  before T (reconstructed out) = before T (reconstructed out').
Proof.
  intros Hc HR H H'.
  apply regress_ok in H, H'.
  assert (Hf : factor_names_of p' = factor_names_of p)
    by (unfold factor_names_of; now rewrite Hc).
  rewrite Hf in H'. unfold common_regress in H, H'.
  apply bind_ok in H as (P & HP & E). inversion E; subst out; clear E.
  apply bind_ok in H' as (P' & HP' & E). inversion E; subst out'; clear E.
  unfold sort_index in *. cbn [columns rows] in *. rewrite Hc in HP'. rewrite Hc.
  assert (HS : Forall2 (same_but_ret_at (columns p) T)
                 (sort_by key_leb (rows p)) (sort_by key_leb (rows p'))).
  { apply sort_by_rel; [|exact HR]. apply key_leb_rel. }
  destruct (get_params_split ols (columns p) (factor_names_of p) T
              (factor_names_not_ret p) _ _ P P' HS HP HP')
    as (A & B & B' & -> & -> & HB & HB').
  destruct (lagged_app A B) as (LB & -> & HLB).
  destruct (lagged_app A B') as (LB' & -> & HLB').
  apply combine_rows_before; [exact (factor_names_not_ret p) | | | exact HS].
  - eapply Forall_impl; [|exact HLB]. intros e He.
    rewrite Forall_forall in HB. now apply HB.
  - eapply Forall_impl; [|exact HLB']. intros e He.
    rewrite Forall_forall in HB'. now apply HB'.
Qed.

Lemma regress_no_look_ahead_witness :
  columns (panel_three_dates (q 7) None (q 1)) = columns (panel_three_dates (q 1) (q 2) (q 4))
  /\ Forall2 (same_but_ret_at (columns (panel_three_dates (q 1) (q 2) (q 4))) 3)
             (rows (panel_three_dates (q 1) (q 2) (q 4)))
             (rows (panel_three_dates (q 7) None (q 1)))
  /\ (exists out out',
        regress ols_single_factor (panel_three_dates (q 1) (q 2) (q 4)) "common_regress"
        = ([], ok out)
        /\ regress ols_single_factor (panel_three_dates (q 7) None (q 1)) "common_regress"
           = ([], ok out')
        /\ map (fun o => (fst o, Qred (snd o))) (before 3 (reconstructed out))
           = [(2, "A", 0%Q); (2, "B", 0%Q); (2, "C", 3%Q)]
        /\ before 3 (reconstructed out) = before 3 (reconstructed out')).
Proof.
  assert (Hr : Forall2 (same_but_ret_at (columns (panel_three_dates (q 1) (q 2) (q 4))) 3)
                 (rows (panel_three_dates (q 1) (q 2) (q 4)))
                 (rows (panel_three_dates (q 7) None (q 1)))).
  { repeat constructor; simpl; try reflexivity;
      try (intros f Hf; unfold cell_at; simpl;
           destruct (String.eqb f "F1"); [reflexivity|];
           destruct (String.eqb f "ret") eqn:E; [apply String.eqb_eq in E; contradiction|];
           reflexivity);
      try (intros Hd; exfalso; apply Hd; reflexivity). }
  split; [reflexivity|]. split; [exact Hr|].
  eexists. eexists. split; [reflexivity|]. split; [reflexivity|].
  split; [reflexivity|].
  exact (regress_no_look_ahead ols_single_factor
           (panel_three_dates (q 1) (q 2) (q 4)) (panel_three_dates (q 7) None (q 1)) 3
           "common_regress" [] [] _ _ eq_refl Hr eq_refl eq_refl).
Defined.

(** *** The order of the parameter frame *)

Lemma StronglySorted_app {A} (Rel : A -> A -> Prop) (l1 l2 : list A) :
  StronglySorted Rel l1 -> StronglySorted Rel l2 ->
  (forall a b, In a l1 -> In b l2 -> Rel a b) ->
  StronglySorted Rel (l1 ++ l2).
Proof.
  induction 1 as [|a l1 Hs IH Ha]; intros H2 H12; simpl; [exact H2|].
  constructor.
  - apply IH; [exact H2|]. intros x y Hx Hy. apply H12; [now right | exact Hy].
  - apply Forall_app. split; [exact Ha|].
    apply Forall_forall. intros y Hy. apply H12; [now left | exact Hy].
Qed.

Lemma StronglySorted_between {A} (Rel : A -> A -> Prop) (X Y Z : list A) (a b : A) :
  StronglySorted Rel (X ++ a :: Y ++ b :: Z) -> Rel a b.
Proof.
  induction X as [|x X IH]; simpl; intros H.
  - inversion H as [|? ? _ Hall]; subst. rewrite Forall_forall in Hall.
    apply Hall. apply in_or_app. right. now left.
  - inversion H; subst. now apply IH.
Qed.

Lemma StronglySorted_filter {A} (Rel : A -> A -> Prop) (f : A -> bool) (l : list A) :
  StronglySorted Rel l -> StronglySorted Rel (filter f l).
Proof.
  induction 1 as [|a l Hs IH Ha]; simpl; [constructor|].
  destruct (f a); [|exact IH]. constructor; [exact IH|].
  rewrite Forall_forall in *. intros x Hx. apply Ha.
  now apply filter_In in Hx.
Qed.

Lemma StronglySorted_map_in {A B} (Rel : A -> A -> Prop) (Rel' : B -> B -> Prop)
  (f : A -> B) (l : list A) :
  (forall a b, In a l -> In b l -> Rel a b -> Rel' (f a) (f b)) ->
  StronglySorted Rel l -> StronglySorted Rel' (map f l).
Proof.
  intros Hf H; induction H as [|a l Hs IH Ha]; simpl; [constructor|].
  constructor.
  - apply IH. intros x y Hx Hy. apply Hf; now right.
  - apply Forall_map. rewrite Forall_forall in *. intros x Hx.
    apply Hf; [now left | now right | now apply Ha].
Qed.

Lemma NoDup_keys_sorted (S : list row) :
  NoDup (map row_key S) -> StronglySorted (fun a b => row_key a <> row_key b) S.
Proof.
  induction S as [|a S IH]; simpl; intros H; [constructor|].
  inversion H as [|? ? Hnot Hn]; subst. constructor; [now apply IH|].
  apply Forall_forall. intros b Hb E. apply Hnot. rewrite E. now apply in_map.
Qed.

Lemma complete_rows_In (cols facs : list string) (g : list row)
  (k : nat * string * (list Q * Q)) :
  In k (complete_rows cols facs g) ->
  exists r, In r g /\ complete_case cols facs r = Some (snd k) /\ fst k = row_key r.
Proof.
  unfold complete_rows. intros H. apply in_flat_map in H as (r & Hr & H).
  destruct (complete_case cols facs r) as [xy|] eqn:E; [|contradiction].
  destruct H as [<-|[]]. exists r. auto.
Qed.

Lemma complete_rows_sorted (cols facs : list string) (g : list row) :
  StronglySorted (fun a b => row_key a <> row_key b) g ->
  StronglySorted (fun a b : nat * string * (list Q * Q) => fst a <> fst b)
                 (complete_rows cols facs g).
Proof.
  induction 1 as [|r g Hs IH Hr]; [constructor|].
  unfold complete_rows in *. simpl.
  destruct (complete_case cols facs r) as [xy|]; [|exact IH].
  simpl. constructor; [exact IH|].
  apply Forall_forall. intros k Hk.
  destruct (complete_rows_In cols facs g k Hk) as (r' & Hr' & _ & ->).
  rewrite Forall_forall in Hr. now apply Hr.
Qed.

Section Frames.

Variable ols : list (list Q * Q) -> result (Q * list Q).
Variables (cols facs : list string) (S : list row).
Hypothesis keys_unique : NoDup (map row_key S).

Lemma frame_sorted (d : nat) (fr : list fit_row) :
  ret_ols_fac ols cols facs (group_at d S) = ok fr ->
  StronglySorted fit_before fr.
Proof.
  unfold ret_ols_fac. intros H. apply bind_ok in H as (fit & _ & H).
  inversion H; subst fr; clear H.
  eapply StronglySorted_map_in;
    [|apply complete_rows_sorted, StronglySorted_filter, NoDup_keys_sorted, keys_unique].
  intros a b Ha Hb Hab. unfold fit_before, fit_row_of. cbn [p_date p_code].
  destruct (complete_rows_In _ _ _ a Ha) as (ra & Hra & _ & Ea).
  destruct (complete_rows_In _ _ _ b Hb) as (rb & Hrb & _ & Eb).
  apply filter_In in Hra as [_ Hra]. apply filter_In in Hrb as [_ Hrb].
  apply Nat.eqb_eq in Hra, Hrb.
  destruct a as [[da ca] xa], b as [[db cb] xb]. unfold row_key in *. simpl in *.
  inversion Ea; inversion Eb; subst. right. split; [congruence|].
  intros E. apply Hab. congruence.
Qed.

Lemma frames_sorted (ds : list nat) (frames : list (list fit_row)) :
  StronglySorted lt ds ->
  mapM (fun d => ret_ols_fac ols cols facs (group_at d S)) ds = ok frames ->
  StronglySorted fit_before (concat frames)
  /\ Forall (fun q => In (p_date q) ds) (concat frames).
Proof.
  intros Hs; revert frames; induction Hs as [|d ds Hs IH Hd]; intros frames H; simpl in H.
  - inversion H; subst. simpl. split; constructor.
  - apply bind_ok in H as (fr & Hfr & H). apply bind_ok in H as (rest & Hrest & H).
    inversion H; subst frames; clear H. simpl.
    destruct (IH rest Hrest) as (IH1 & IH2).
    pose proof (ret_ols_fac_dates ols cols facs d S fr Hfr) as Hdates.
    split.
    + apply StronglySorted_app; [exact (frame_sorted d fr Hfr) | exact IH1 |].
      intros a b Ha Hb. left.
      rewrite Forall_forall in Hdates, IH2, Hd.
      rewrite (Hdates a Ha). apply Hd. now apply IH2.
    + apply Forall_app. split.
      * eapply Forall_impl; [|exact Hdates]. intros q ->. now left.
      * eapply Forall_impl; [|exact IH2]. intros q Hq. now right.
Qed.

Lemma params_sorted (P : list fit_row) :
  get_params ols (mk_panel cols S) facs = ok P -> StronglySorted fit_before P.
Proof.
  unfold get_params. cbn [columns rows]. destruct (mem "ret" cols); [|discriminate].
  intros H. apply bind_ok in H as (frames & H & E). inversion E; subst P; clear E.
  unfold groupby_date in H. rewrite mapM_map in H. cbn [snd] in H.
  exact (proj1 (frames_sorted _ _ (dates_of_sorted S) H)).
Qed.

(** Every row of the parameter frame comes from a complete row of the
    panel and from the fit of its date. *)
Lemma params_In (P : list fit_row) (q : fit_row) :
  get_params ols (mk_panel cols S) facs = ok P -> In q P ->
  exists r xs y i bs,
    In r S /\ row_key r = (p_date q, p_code q)
    /\ complete_case cols facs r = Some (xs, y)
    /\ fit_on ols cols facs (group_at (r_date r) S) = ok (i, bs)
    /\ p_intercept q = i /\ p_betas q = bs
    /\ p_resid q = (y - add_products i xs bs)%Q.
Proof.
  unfold get_params. cbn [columns rows]. destruct (mem "ret" cols); [|discriminate].
  intros H Hq. apply bind_ok in H as (frames & H & E). inversion E; subst P; clear E.
  unfold groupby_date in H. rewrite mapM_map in H. cbn [snd] in H.
  apply in_concat in Hq as (fr & Hfr & Hq).
  destruct (mapM_In _ _ _ fr H Hfr) as (d & _ & Hd).
  unfold ret_ols_fac in Hd. apply bind_ok in Hd as ([i bs] & Hfit & E).
  inversion E; subst fr; clear E.
  apply in_map_iff in Hq as (k & <- & Hk).
  destruct (complete_rows_In _ _ _ k Hk) as (r & Hr & Hc & Hkey).
  apply filter_In in Hr as [Hr Hdate]. apply Nat.eqb_eq in Hdate.
  destruct k as [[dk ck] [xs y]]. simpl in *.
  exists r, xs, y, i, bs. rewrite Hdate. repeat split; auto.
Qed.

End Frames.

(** Every complete row of the panel has its row in the parameter frame. *)
Lemma params_has (ols : list (list Q * Q) -> result (Q * list Q))
  (cols facs : list string) (S : list row) (P : list fit_row) (r : row)
  (xy : list Q * Q) :
  get_params ols (mk_panel cols S) facs = ok P ->
  In r S -> complete_case cols facs r = Some xy ->
  exists q, In q P /\ p_date q = r_date r /\ p_code q = r_code r.
Proof.
  unfold get_params. cbn [columns rows]. destruct (mem "ret" cols); [|discriminate].
  intros H Hr Hc. apply bind_ok in H as (frames & H & E). inversion E; subst P; clear E.
  unfold groupby_date in H. rewrite mapM_map in H. cbn [snd] in H.
  assert (Hd : In (r_date r) (dates_of S)) by (apply dates_of_In; now exists r).
  destruct (mapM_In_inv _ _ _ _ H Hd) as (fr & Hfr & Hin).
  unfold ret_ols_fac in Hfr. apply bind_ok in Hfr as (fit & _ & E).
  inversion E; subst fr; clear E.
  exists (fit_row_of fit (r_date r, r_code r, xy)). split; [|split; reflexivity].
  apply in_concat. eexists. split; [exact Hin|].
  apply in_map. unfold complete_rows. apply in_flat_map. exists r. split.
  - apply filter_In. split; [exact Hr | apply Nat.eqb_refl].
  - rewrite Hc. now left.
Qed.

Lemma fit_before_date (a b : fit_row) : fit_before a b -> p_date a <= p_date b.
Proof. intros [H|[H _]]; lia. Qed.

(** In a sorted frame, a row of the security of [q] whose date lies
    strictly between those of [q'] and [q] would stand between them. *)
Lemma no_row_between (X Y Z : list fit_row) (q q' q1 : fit_row) :
  StronglySorted fit_before (X ++ q' :: Y ++ q :: Z) ->
  Forall (fun x => p_code x <> p_code q) Y ->
  In q1 (X ++ q' :: Y ++ q :: Z) ->
  p_code q1 = p_code q ->
  ~ (p_date q' < p_date q1 < p_date q).
Proof.
  intros Hs HY Hin Hc [H1 H2].
  apply in_app_or in Hin as [Hin|[->|Hin]]; [| lia |].
  - apply in_split in Hin as (X1 & X2 & ->).
    rewrite <- app_assoc in Hs. simpl in Hs.
    apply StronglySorted_between, fit_before_date in Hs. lia.
  - apply in_app_or in Hin as [Hin|[->|Hin]]; [| lia |].
    + rewrite Forall_forall in HY. now apply (HY q1 Hin).
    + apply in_split in Hin as (Z1 & Z2 & ->).
      replace (X ++ q' :: Y ++ q :: Z1 ++ q1 :: Z2)
        with ((X ++ q' :: Y) ++ q :: Z1 ++ q1 :: Z2) in Hs
        by (rewrite <- app_assoc; reflexivity).
      apply StronglySorted_between, fit_before_date in Hs. lia.
Qed.

(** A row with a lagged value has, before it in the frame, a row of the
    same security, with no row of that security in between. *)
Lemma shift_by_code_prior (seen : list (string * fit_row)) (frame : list fit_row)
  (q q' : fit_row) :
  In (q, Some q') (shift_by_code seen frame) ->
  (exists Y Z, frame = Y ++ q :: Z /\ lookup (p_code q) seen = Some q'
               /\ Forall (fun x => p_code x <> p_code q) Y)
  \/ (exists X Y Z, frame = X ++ q' :: Y ++ q :: Z /\ p_code q' = p_code q
                    /\ Forall (fun x => p_code x <> p_code q) Y).
Proof.
  revert seen; induction frame as [|a frame IH]; intros seen H; simpl in H; [contradiction|].
  destruct H as [H|H].
  - inversion H; subst. left. exists [], frame. repeat split; auto.
  - destruct (IH _ H) as [(Y & Z & -> & Hl & HY)|(X & Y & Z & -> & Hc & HY)].
    + unfold lookup in Hl. simpl in Hl.
      destruct (String.eqb (p_code a) (p_code q)) eqn:E.
      * simpl in Hl. inversion Hl; subst q'. apply String.eqb_eq in E.
        right. exists [], Y, Z. repeat split; auto.
      * apply String.eqb_neq in E. left. exists (a :: Y), Z. repeat split; auto.
    + right. exists (a :: X), Y, Z. repeat split; auto.
Qed.

Lemma lagged_prior (frame : list fit_row) (q q' : fit_row) :
  In (q, q') (lagged frame) ->
  exists X Y Z, frame = X ++ q' :: Y ++ q :: Z /\ p_code q' = p_code q
                /\ Forall (fun x => p_code x <> p_code q) Y.
Proof.
  unfold lagged. intros H. apply in_flat_map in H as ([q0 o] & H & Hin).
  destruct o as [q1|]; simpl in Hin; [|contradiction].
  destruct Hin as [E|[]]. inversion E; subst q0 q1; clear E.
  destruct (shift_by_code_prior [] frame q q' H) as [(Y & Z & _ & Hl & _)|H']; [|exact H'].
  discriminate Hl.
Qed.

Lemma NoDup_keys_inj (l : list row) (a b : row) :
  NoDup (map row_key l) -> In a l -> In b l -> row_key a = row_key b -> a = b.
Proof.
  induction l as [|x l IH]; [contradiction|].
  cbn [map]. intros H Ha Hb E. inversion H as [|? ? Hnot Hn]; subst.
  destruct Ha as [->|Ha], Hb as [->|Hb]; auto.
  - exfalso. apply Hnot. rewrite E. now apply in_map.
  - exfalso. apply Hnot. rewrite <- E. now apply in_map.
Qed.

(** A row of the frame that stands after a row of its security, or whose
    security has been seen, receives a lagged value. *)
Lemma shift_has_prior (seen : list (string * fit_row)) (X Z : list fit_row)
  (q : fit_row) :
  (exists x, In x X /\ p_code x = p_code q) \/ lookup (p_code q) seen <> None ->
  exists q', In (q, Some q') (shift_by_code seen (X ++ q :: Z)).
Proof.
  revert seen; induction X as [|a X IH]; intros seen H; cbn [app shift_by_code].
  - destruct H as [(x & [] & _)|H].
    destruct (lookup (p_code q) seen) as [q'|]; [|congruence].
    exists q'. now left.
  - destruct (IH ((p_code a, a) :: seen)) as (q' & Hq').
    + destruct H as [(x & [->|Hx] & Hc)|H].
      * right. unfold lookup. cbn [find fst]. rewrite Hc, String.eqb_refl. discriminate.
      * left. now exists x.
      * right. unfold lookup in *. cbn [find fst].
        destruct (String.eqb (p_code a) (p_code q)); [discriminate | exact H].
    + exists q'. now right.
Qed.

(** In a sorted frame a row of an earlier date stands before. *)
Lemma earlier_stands_before (P : list fit_row) (q0 q : fit_row) :
  StronglySorted fit_before P -> In q0 P -> In q P -> p_date q0 < p_date q ->
  exists X Z, P = X ++ q :: Z /\ In q0 X.
Proof.
  intros Hs H0 Hq Hlt. apply in_split in Hq as (X & Z & ->).
  exists X, Z. split; [reflexivity|].
  apply in_app_or in H0 as [H0|[E|H0]]; [exact H0 | subst; lia |].
  exfalso. apply in_split in H0 as (Z1 & Z2 & ->).
  apply StronglySorted_between, fit_before_date in Hs. lia.
Qed.

Lemma find_lag_some (lag : list (fit_row * fit_row)) (q q' : fit_row) :
  In (q, q') lag -> exists q1, find_lag (p_date q) (p_code q) lag = Some q1.
Proof.
  intros Hin. unfold find_lag.
  destruct (find (fun e => (p_date (fst e) =? p_date q)
                           && String.eqb (p_code (fst e)) (p_code q)) lag)
    as [e|] eqn:E; [now exists (snd e)|].
  exfalso. pose proof (find_none _ _ E _ Hin) as Hn. cbn [fst] in Hn.
  now rewrite Nat.eqb_refl, String.eqb_refl in Hn.
Qed.

(** C1, amended.  On a panel with a unique (date, security) index, when
    [regress] returns, its output holds exactly the rows that are
    complete (no factor value and no return missing) and whose security
    has a complete row on an earlier date.

    First part: every row of the output is a row of the panel without a
    missing factor value and with its own return, and its reconstructed
    return is the intercept fitted on the latest earlier date on which
    the security has a complete row, plus the residual that the security
    had in that earlier fit, plus the sum over the factors of the current
    factor value times the beta of that earlier fit.  The residual is
    lagged with the parameters: it is not that of the current date.  A
    row whose security has no complete row on an earlier date is not in
    the output.

    Second part: every complete row whose security has a complete row on
    an earlier date is in the output, with a reconstructed return.  A row
    whose own return is missing is dropped, as the first part says. *)
Theorem regress_reconstructs_from_prior_fit
  (ols : list (list Q * Q) -> result (Q * list Q)) (p : panel) (method : string)
  (prints : list string) (out : list (row * Q)) :
  NoDup (map row_key (rows p)) ->
  regress ols p method = (prints, ok out) ->
  (forall r y,
     In (r, y) out ->
     exists r0 xs0 y0 i bs xs,
       In r (rows p) /\ In r0 (rows p)
       /\ r_code r0 = r_code r /\ r_date r0 < r_date r
       /\ complete_case (columns p) (factor_names_of p) r0 = Some (xs0, y0)
       /\ fit_on ols (columns p) (factor_names_of p)
                 (group_at (r_date r0) (rows (sort_index p))) = ok (i, bs)
       /\ all_some (map (fun f => cell_at (columns p) f r) (factor_names_of p)) = Some xs
       /\ complete_case (columns p) (factor_names_of p) r <> None
       /\ y = add_products (i + (y0 - add_products i xs0 bs))%Q xs bs
       /\ (forall r1, In r1 (rows p) -> r_code r1 = r_code r ->
           complete_case (columns p) (factor_names_of p) r1 <> None ->
           ~ (r_date r0 < r_date r1 < r_date r)))
  /\ (forall r r0,
        In r (rows p) -> In r0 (rows p) ->
        r_code r0 = r_code r -> r_date r0 < r_date r ->
        complete_case (columns p) (factor_names_of p) r <> None ->
        complete_case (columns p) (factor_names_of p) r0 <> None ->
        exists y, In (r, y) out).
Proof.
  intros Hn H. apply regress_ok in H. unfold common_regress in H.
  apply bind_ok in H as (P & HP & E). inversion E; subst out; clear E.
  unfold sort_index in *. cbn [columns rows] in *.
  set (S := sort_by key_leb (rows p)) in *.
  assert (HnS : NoDup (map row_key S)).
  { eapply Permutation_NoDup; [|exact Hn].
    apply Permutation_map. symmetry. apply sort_by_perm. }
  pose proof (params_sorted ols (columns p) (factor_names_of p) S HnS P HP) as HsortedP.
  split.
  - intros r y Hin.
    apply in_flat_map in Hin as (r1 & Hr1 & Hin). unfold combine_row in Hin.
    destruct (find_lag (r_date r1) (r_code r1) (lagged P)) as [q'|] eqn:Efind; [|contradiction].
    destruct (all_some (map (fun f => cell_at (columns p) f r1) (factor_names_of p)))
      as [xs|] eqn:Exs; [|contradiction].
    destruct Hin as [E|[]]. inversion E; subst r1 y; clear E.
    unfold find_lag in Efind.
    destruct (find _ (lagged P)) as [[q q0]|] eqn:Ef; [|discriminate].
    simpl in Efind. inversion Efind; subst q0; clear Efind.
    apply find_some in Ef as (Hlag & Hkey). simpl in Hkey.
    apply andb_true_iff in Hkey as (Hd & Hc).
    apply Nat.eqb_eq in Hd. apply String.eqb_eq in Hc.
    destruct (lagged_prior P q q' Hlag) as (X & Y & Z & EP & Hcode & HY).
    pose proof HsortedP as Hsorted.
    rewrite EP in Hsorted. pose proof (StronglySorted_between _ _ _ _ _ _ Hsorted) as Hbefore.
    assert (Hq' : In q' P) by (rewrite EP; apply in_or_app; right; now left).
    assert (Hq : In q P).
    { rewrite EP. apply in_or_app. right. right. apply in_or_app. right. now left. }
    destruct (params_In ols (columns p) (factor_names_of p) S P q' HP Hq')
      as (r0 & xs0 & y0 & i & bs & Hr0 & Hk0 & Hc0 & Hfit & Hi & Hb & Hres).
    destruct (params_In ols (columns p) (factor_names_of p) S P q HP Hq)
      as (rq & xsq & yq & _ & _ & Hrq & Hkq & Hcq & _).
    assert (Erq : rq = r).
    { apply (NoDup_keys_inj S); [exact HnS | exact Hrq | exact Hr1|].
      rewrite Hkq. unfold row_key. congruence. }
    subst rq.
    unfold row_key in Hk0. inversion Hk0 as [[Hk1 Hk2]].
    exists r0, xs0, y0, i, bs, xs.
    split; [now apply (sort_by_In key_leb (rows p))|].
    split; [now apply (sort_by_In key_leb (rows p))|].
    split; [congruence|]. split.
    + destruct Hbefore as [Hlt|[_ Hne]]; [lia | congruence].
    + split; [exact Hc0|]. split; [exact Hfit|]. split; [exact Exs|].
      split; [congruence|].
      split; [now rewrite Hi, Hb, Hres|].
      intros r2 Hr2 Hc2 Hcomplete.
      destruct (complete_case (columns p) (factor_names_of p) r2) as [xy|] eqn:E2;
        [|congruence].
      apply (sort_by_In key_leb (rows p)) in Hr2.
      destruct (params_has ols _ _ S P r2 xy HP Hr2 E2) as (q1 & Hq1 & Hd1 & Hcode1).
      rewrite EP in Hq1.
      pose proof (no_row_between X Y Z q q' q1 Hsorted HY Hq1) as Hno.
      intros Hbt. apply Hno; [congruence | lia].
  - intros r r0 Hr Hr0 Hcode Hlt Hcr Hcr0.
    apply (sort_by_In key_leb (rows p)) in Hr, Hr0. fold S in Hr, Hr0.
    destruct (complete_case (columns p) (factor_names_of p) r) as [[xs yr]|] eqn:Er;
      [|congruence].
    destruct (complete_case (columns p) (factor_names_of p) r0) as [xy0|] eqn:Er0;
      [|congruence].
    destruct (params_has ols _ _ S P r (xs, yr) HP Hr Er) as (q & Hq & Hqd & Hqc).
    destruct (params_has ols _ _ S P r0 xy0 HP Hr0 Er0) as (q0 & Hq0 & Hq0d & Hq0c).
    destruct (earlier_stands_before P q0 q HsortedP Hq0 Hq) as (X & Z & EP & HX); [lia|].
    destruct (shift_has_prior [] X Z q) as (q' & Hq').
    { left. exists q0. split; [exact HX | congruence]. }
    rewrite <- EP in Hq'.
    assert (Hlag : In (q, q') (lagged P)).
    { unfold lagged. apply in_flat_map. exists (q, Some q'). split; [exact Hq' | now left]. }
    destruct (find_lag_some (lagged P) q q' Hlag) as (q1 & Hfind).
    rewrite Hqd, Hqc in Hfind.
    assert (Hxs : all_some (map (fun f => cell_at (columns p) f r) (factor_names_of p))
                  = Some xs).
    { unfold complete_case in Er.
      destruct (all_some (map (fun f => cell_at (columns p) f r) (factor_names_of p)))
        as [xs'|]; [|discriminate].
      destruct (cell_at (columns p) "ret" r); [|discriminate].
      now inversion Er. }
    eexists. apply in_flat_map. exists r. split; [exact Hr|].
    unfold combine_row. rewrite Hfind, Hxs. now left.
Qed.

(** The closed-form fit used for the examples solves the normal
    equations on date 1 of the example: the residuals sum to zero and are
    orthogonal to the factor. *)
Lemma ols_single_factor_normal_equations :
  exists params,
    get_params ols_single_factor (sort_index panel_two_fits) ["F1"] = ok params
    /\ (Qsum (map p_resid (filter (fun k => p_date k =? 1) params)) == 0)%Q
    /\ (Qsum (map (fun xr => fst xr * snd xr)%Q
                  (combine [0; 1; 2]%Q
                           (map p_resid (filter (fun k => p_date k =? 1) params))))
        == 0)%Q.
Proof.
  eexists. split; [reflexivity|]. split; reflexivity.
Qed.

Lemma two_fits_output :
  exists out y,
    regress ols_single_factor panel_two_fits "common_regress" = ([], ok out)
    /\ In (mk_row 2 "C" [q 2; q 0], y) out
    /\ Qred y = 3%Q.
Proof.
  eexists. eexists. split; [reflexivity|].
  split; [cbv; right; right; left; reflexivity | reflexivity].
Qed.

Lemma regress_reconstructs_from_prior_fit_witness :
  NoDup (map row_key (rows panel_two_fits))
  /\ exists out y,
       regress ols_single_factor panel_two_fits "common_regress" = ([], ok out)
       /\ In (mk_row 2 "C" [q 2; q 0], y) out
       /\ Qred y = 3%Q
       /\ (exists r0 xs0 y0 i bs xs,
             In r0 (rows panel_two_fits)
             /\ r_code r0 = "C" /\ r_date r0 < 2
             /\ complete_case ["F1"; "ret"] ["F1"] r0 = Some (xs0, y0)
             /\ fit_on ols_single_factor ["F1"; "ret"] ["F1"]
                       (group_at (r_date r0) (rows (sort_index panel_two_fits))) = ok (i, bs)
             /\ all_some [q 2] = Some xs
             /\ y = add_products (i + (y0 - add_products i xs0 bs))%Q xs bs)
       /\ exists y', In (mk_row 2 "A" [q 0; q 0], y') out.
Proof.
  assert (Hn : NoDup (map row_key (rows panel_two_fits))).
  { repeat constructor; simpl; intuition discriminate. }
  split; [exact Hn|].
  destruct two_fits_output as (out & y & Hout & Hin & Hy).
  exists out, y. split; [exact Hout|]. split; [exact Hin|]. split; [exact Hy|].
  destruct (regress_reconstructs_from_prior_fit ols_single_factor panel_two_fits
              "common_regress" [] out Hn Hout) as (Hsound & Hcomplete).
  split.
  - destruct (Hsound _ y Hin)
      as (r0 & xs0 & y0 & i & bs & xs & _ & H0 & H1 & H2 & H3 & H4 & H5 & _ & H6 & _).
    exists r0, xs0, y0, i, bs, xs. repeat split; assumption.
  - apply (Hcomplete (mk_row 2 "A" [q 0; q 0]) (mk_row 1 "A" [q 0; q 0])).
    + cbn. tauto.
    + cbn. tauto.
    + reflexivity.
    + cbn. lia.
    + discriminate.
    + discriminate.
Defined.

(** The claim of C1 as stated fails: the reconstructed return carries the
    residual of the prior fit, not that of the current date.  For every
    security of date 2 the formula with the current residual gives
    another value than the code. *)
Lemma regress_residual_is_not_current :
  exists out params,
    regress ols_single_factor panel_two_fits "common_regress" = ([], ok out)
    /\ map (fun o => (fst o, Qred (snd o))) (reconstructed out)
       = [(2, "A", 0%Q); (2, "B", 0%Q); (2, "C", 3%Q)]
    /\ get_params ols_single_factor (sort_index panel_two_fits) ["F1"] = ok params
    /\ exists a1 b1 c1 a2 b2 c2,
         params = [a1; b1; c1; a2; b2; c2]
         /\ map p_date params = [1; 1; 1; 2; 2; 2]
         /\ map p_code params = ["A"; "B"; "C"; "A"; "B"; "C"]
         /\ Qred (claimed_return a1 a2 [0%Q]) = (-3 # 2)%Q
         /\ Qred (claimed_return b1 b2 [1%Q]) = 3%Q
         /\ Qred (claimed_return c1 c2 [2%Q]) = (3 # 2)%Q.
Proof.
  eexists. eexists. split; [reflexivity|]. split; [reflexivity|].
  split; [reflexivity|].
  do 6 eexists. split; [reflexivity|]. split; [reflexivity|]. split; [reflexivity|].
  repeat split; reflexivity.
Qed.

End RegressFacts.

(** ** Sliding windows *)

Module WindowFacts.
Import Tools.

Lemma tl_firstn_step {B} (n : nat) (l : list B) (x : B) (rest : list B) :
  1 <= n -> skipn n l = x :: rest ->
  tl (firstn n l) ++ [x] = firstn n (skipn 1 l).
Proof.
  revert l; induction n as [|n IH]; intros l Hn H; [lia|].
  destruct l as [|a l]; [discriminate|]. simpl in *.
  destruct n as [|n].
  - simpl in *. rewrite H. reflexivity.
  - destruct l as [|b l]; [discriminate|].
    specialize (IH (b :: l) ltac:(lia) H). simpl in IH. simpl.
    f_equal. exact IH.
Qed.

Lemma slide_slices {B} (n : nat) (it : list B) (k i : nat) :
  1 <= n -> i + n + k = length it ->
  slide (slice it i (i + n)) (skipn (i + n) it)
  = map (fun j => slice it j (j + n)) (seq (S i) k).
Proof.
  intros Hn. revert i; induction k as [|k IH]; intros i Hlen.
  - rewrite skipn_all2 by lia. reflexivity.
  - destruct (skipn (i + n) it) as [|x rest] eqn:E.
    + apply (f_equal (@length B)) in E. rewrite length_skipn in E. simpl in E. lia.
    + simpl. unfold slice at 1 2. replace (i + n - i) with n by lia.
      assert (E' : skipn n (skipn i it) = x :: rest)
        by (rewrite skipn_skipn; replace (n + i) with (i + n) by lia; exact E).
      rewrite (tl_firstn_step n (skipn i it) x rest Hn E').
      rewrite skipn_skipn. replace (1 + i) with (S i) by lia.
      assert (Er : rest = skipn (S i + n) it).
      { replace (S i + n) with (1 + (i + n)) by lia.
        rewrite <- skipn_skipn, E. reflexivity. }
      rewrite Er.
      replace (firstn n (skipn (S i) it)) with (slice it (S i) (S i + n))
        by (unfold slice; f_equal; lia).
      f_equal.
      apply IH. lia.
Qed.

Lemma windows_of_iterator {B} (n : nat) (it : list B) :
  1 <= n -> n <= length it ->
  (if length (firstn n it) =? n then [firstn n it] else []) ++ slide (firstn n it) (skipn n it)
  = map (fun j => slice it j (j + n)) (seq 0 (length it - n + 1)).
Proof.
  intros Hn Hlen. rewrite length_firstn, Nat.min_l by lia. rewrite Nat.eqb_refl.
  replace (length it - n + 1) with (S (length it - n)) by lia. simpl.
  f_equal; [unfold slice; simpl; f_equal; lia|].
  assert (Hsum : 0 + n + (length it - n) = length it) by lia.
  pose proof (slide_slices n it (length it - n) 0 Hn Hsum) as H.
  unfold slice in H at 1. simpl in H. rewrite Nat.sub_0_r in H. exact H.
Qed.

(** X1.  Without [longest], a sequence of at least [n] elements gives the
    [len - n + 1] windows [seq[i:i+n]], in order. *)
Theorem window_slices (B : Type) (none : B) (data : list B) (n : nat) :
  1 <= n -> n <= length data ->
  window none data n false
  = map (fun i => slice data i (i + n)) (seq 0 (length data - n + 1)).
Proof.
  intros Hn Hlen. unfold window. now apply windows_of_iterator.
Qed.

Lemma window_slices_witness :
  1 <= 3 /\ 3 <= length [1; 2; 3; 4; 5]
  /\ window 0 [1; 2; 3; 4; 5] 3 false = [[1; 2; 3]; [2; 3; 4]; [3; 4; 5]].
Proof.
  split; [lia|]. split; [simpl; lia|].
  exact (window_slices nat 0 [1; 2; 3; 4; 5] 3 ltac:(lia) ltac:(simpl; lia)).
Defined.

(** X2.  Without [longest], a sequence shorter than [n] gives no window
    at all, not a shorter one. *)
Theorem window_too_short (B : Type) (none : B) (data : list B) (n : nat) :
  length data < n -> window none data n false = [].
Proof.
  intros H. unfold window.
  rewrite firstn_all2 by lia. rewrite skipn_all2 by lia.
  destruct (length data =? n) eqn:E; [apply Nat.eqb_eq in E; lia | reflexivity].
Qed.

Lemma window_too_short_witness :
  length [1; 2] < 3 /\ window 0 [1; 2] 3 false = [].
Proof.
  split; [simpl; lia|].
  exact (window_too_short nat 0 [1; 2] 3 ltac:(simpl; lia)).
Defined.

(** X3.  With [longest=True] there is one window per element: the window
    of an element starts at it, has [n] entries and is padded with [None]
    past the end, so that the first entries of the windows give the
    sequence back. *)
Theorem window_longest (B : Type) (none : B) (data : list B) (n : nat) :
  1 <= n ->
  window none data n true
  = map (fun i => firstn n (skipn i data ++ repeat none (n - 1))) (seq 0 (length data))
  /\ map (hd none) (window none data n true) = data.
Proof.
  intros Hn.
  assert (E : window none data n true
              = map (fun i => firstn n (skipn i data ++ repeat none (n - 1)))
                    (seq 0 (length data))).
  { unfold window. destruct data as [|a data]; [|].
    - simpl. rewrite firstn_all2 by (rewrite repeat_length; lia).
      rewrite skipn_all2 by (rewrite repeat_length; lia).
      rewrite repeat_length.
      destruct (n - 1 =? n) eqn:E; [apply Nat.eqb_eq in E; lia | reflexivity].
    - rewrite windows_of_iterator; [|exact Hn|rewrite length_app, repeat_length; cbn [length]; lia].
      rewrite length_app, repeat_length.
      replace (length (a :: data) + (n - 1) - n + 1) with (length (a :: data)) by (cbn [length]; lia).
      apply map_ext_in. intros i Hi. apply in_seq in Hi.
      unfold slice. replace (i + n - i) with n by lia.
      f_equal. rewrite skipn_app.
      replace (i - length (a :: data)) with 0 by lia. reflexivity. }
  split; [exact E|]. rewrite E, map_map.
  clear E. induction data as [|a data IH]; [reflexivity|].
  simpl. destruct n as [|n]; [lia|]. simpl. f_equal.
  rewrite <- seq_shift, map_map. exact IH.
Qed.

Lemma window_longest_witness :
  1 <= 3
  /\ window None [Some 1; Some 2; Some 3; Some 4] 3 true
     = [[Some 1; Some 2; Some 3]; [Some 2; Some 3; Some 4];
        [Some 3; Some 4; None]; [Some 4; None; None]]
  /\ map (hd None) (window None [Some 1; Some 2; Some 3; Some 4] 3 true)
     = [Some 1; Some 2; Some 3; Some 4].
Proof.
  split; [lia|].
  split; [reflexivity|].
  exact (proj2 (window_longest (option nat) None [Some 1; Some 2; Some 3; Some 4] 3
                  ltac:(lia))).
Defined.

(** X4.  With [n = 0] the first window is the empty tuple and every
    element then comes as a window of one: the windows do not have [n]
    entries. *)
Theorem window_zero (B : Type) (none : B) (data : list B) (longest : bool) :
  window none data 0 longest = [] :: map (fun x => [x]) data.
Proof.
  unfold window. simpl.
  assert (E : (if longest then data ++ [] else data) = data)
    by (destruct longest; [apply app_nil_r | reflexivity]).
  rewrite E. f_equal. clear E.
  induction data as [|a data IH]; simpl; [reflexivity|].
  f_equal.
  assert (H : forall r, tl r = [] -> slide r data = map (fun x => [x]) data).
  { clear. induction data as [|b data IH]; intros r Hr; simpl; [reflexivity|].
    rewrite Hr. simpl. f_equal. apply IH. reflexivity. }
  apply H. reflexivity.
Qed.

End WindowFacts.

(** ** More on the industry lookup *)

Module BatchFacts.
Import Util.

Lemma cutter_explicit (n : nat) :
  100 < n ->
  exists k, cutter n = map (fun i => i * 100) (seq 0 (S k)) ++ [n - 1]
            /\ n - 1 <= k * 100 + 100.
Proof.
  intros Hn. unfold cutter, py_range.
  exists ((n + 100 - 1) / 100 - 1).
  pose proof (Nat.div_mod_eq (n + 100 - 1) 100) as E.
  pose proof (Nat.mod_upper_bound (n + 100 - 1) 100) as Hb.
  replace (S ((n + 100 - 1) / 100 - 1)) with ((n + 100 - 1) / 100) by lia.
  split; [reflexivity | lia].
Qed.

Lemma steps_bound (m k s : nat) :
  m <= (s + k) * 100 + 100 ->
  Forall (fun ij => snd ij - fst ij <= 100)
         (combine (removelast (s * 100 :: map (fun i => i * 100) (seq (S s) k) ++ [m]))
                  (map (fun i => i * 100) (seq (S s) k) ++ [m])).
Proof.
  revert s; induction k as [|k IH]; intros s H.
  - cbn [seq map app removelast combine].
    constructor; [cbn [fst snd]; lia | constructor].
  - cbn [seq map app].
    change (removelast (s * 100 :: S s * 100 :: map (fun i => i * 100) (seq (S (S s)) k) ++ [m]))
      with (s * 100 :: removelast (S s * 100 :: map (fun i => i * 100) (seq (S (S s)) k) ++ [m])).
    cbn [combine]. constructor; [cbn [fst snd]; lia|].
    apply (IH (S s)). lia.
Qed.

(** X5.  No request to the upstream service carries more than 100
    identifiers, whatever the length of the list. *)
Theorem requests_at_most_100 (A : Type) (codes : list A) :
  Forall (fun batch => length batch <= 100) (requests codes).
Proof.
  unfold requests. destruct (100 <? length codes) eqn:E.
  - apply Nat.ltb_lt in E. destruct (cutter_explicit _ E) as (k & Hc & Hk).
    unfold dict_cutter. rewrite Hc. cbn [seq map app tl].
    apply Forall_map.
    eapply Forall_impl; [|apply (steps_bound (length codes - 1) k 0); lia].
    intros [i j] H. unfold slice. cbn [fst snd] in *. rewrite length_firstn. lia.
  - apply Nat.ltb_ge in E. constructor; [exact E | constructor].
Qed.

End BatchFacts.

(** ** Outliers, scaling and directions *)

Module ToolsFacts.
Import Util Factors Tools MonadFacts.

(** *** [mean_abs_deviation] *)

Lemma valid_sub_cells (data : list cell) (m : Q) :
  valid (abs_cells (sub_cells data (Some m)))
  = map (fun x => Qabs (x - m)) (valid data).
Proof.
  unfold abs_cells, sub_cells. induction data as [|c data IH]; simpl; [reflexivity|].
  destruct c as [x|]; simpl; now rewrite IH.
Qed.

Lemma fold_Qplus_acc (l : list Q) (acc : Q) :
  (fold_left Qplus l acc == acc + fold_left Qplus l 0)%Q.
Proof.
  revert acc; induction l as [|x l IH]; intros acc; simpl; [ring|].
  rewrite (IH (acc + x)%Q), (IH (0 + x)%Q). ring.
Qed.

Lemma Qsum_cons (x : Q) (l : list Q) : (Qsum (x :: l) == x + Qsum l)%Q.
Proof.
  unfold Qsum. simpl. rewrite fold_Qplus_acc. ring.
Qed.

Lemma Qsum_nonneg_all (l : list Q) :
  Forall (fun v => 0 <= v)%Q l -> (0 <= Qsum l)%Q.
Proof.
  induction 1 as [|x l Hx _ IH]; [apply Qle_refl|].
  rewrite Qsum_cons. lra.
Qed.

Lemma Qsum_zero_iff (l : list Q) :
  Forall (fun v => 0 <= v)%Q l ->
  (Qsum l == 0)%Q <-> Forall (fun v => v == 0)%Q l.
Proof.
  induction 1 as [|x l Hx Hl IH]; [split; [constructor | reflexivity]|].
  rewrite Qsum_cons. pose proof (Qsum_nonneg_all l Hl) as Hs. split.
  - intros H. assert (x == 0)%Q by lra. assert (Qsum l == 0)%Q by lra.
    constructor; [assumption | now apply IH].
  - intros H. inversion H as [|? ? Hx0 Hl0]; subst.
    apply IH in Hl0. lra.
Qed.

Lemma Q_of_nat_S_pos (n : nat) : (0 < Q_of_nat (S n))%Q.
Proof. unfold Q_of_nat, Qlt. simpl. lia. Qed.

Lemma mean_cells_some (l : list cell) (m : Q) :
  mean_cells l = Some m ->
  exists k, length (valid l) = S k
            /\ m = (Qsum (valid l) / Q_of_nat (S k))%Q.
Proof.
  unfold mean_cells. destruct (valid l) as [|v vs]; [discriminate|].
  intros H. inversion H. exists (length vs). split; reflexivity.
Qed.

Lemma Qabs_zero_eq (x m : Q) : (Qabs (x - m) == 0)%Q <-> (x == m)%Q.
Proof.
  split; intros H.
  - destruct (Qlt_le_dec (x - m) 0) as [Hneg|Hnn].
    + rewrite Qabs_neg in H by lra. lra.
    + rewrite Qabs_pos in H by lra. lra.
  - setoid_replace (x - m)%Q with 0%Q by lra. reflexivity.
Qed.

(** X6.  The mean absolute deviation is missing exactly when the data
    has no value; otherwise it is not negative, and it is zero exactly
    when every value equals the mean. *)
Theorem mean_abs_deviation_sign (data : list cell) :
  (mean_abs_deviation data = None <-> valid data = [])
  /\ forall m d,
       mean_cells data = Some m -> mean_abs_deviation data = Some d ->
       (0 <= d)%Q /\ ((d == 0)%Q <-> Forall (fun x => x == m)%Q (valid data)).
Proof.
  split.
  - unfold mean_abs_deviation, mean_cells at 2.
    destruct (valid data) as [|v vs] eqn:E.
    + split; [reflexivity|]. intros _. unfold mean_cells.
      replace (valid (abs_cells (sub_cells data None))) with (@nil Q); [reflexivity|].
      clear E. unfold abs_cells, sub_cells. induction data as [|c data IH]; simpl; [reflexivity|].
      destruct c; simpl; exact IH.
    + unfold mean_cells. rewrite valid_sub_cells, E. simpl. split; discriminate.
  - intros m d Hm Hd. unfold mean_abs_deviation in Hd. rewrite Hm in Hd.
    apply mean_cells_some in Hd. destruct Hd as (k & Hk & Hd).
    rewrite valid_sub_cells in Hk, Hd.
    set (devs := map (fun x => Qabs (x - m)) (valid data)) in *.
    assert (Hdev : Forall (fun v => 0 <= v)%Q devs).
    { apply Forall_map. apply Forall_forall. intros x _. apply Qabs_nonneg. }
    pose proof (Q_of_nat_S_pos k) as Hpos.
    pose proof (Qsum_nonneg_all _ Hdev) as Hsum.
    subst d. split.
    + apply Qle_shift_div_l; [exact Hpos|]. rewrite Qmult_0_l. exact Hsum.
    + split.
      * intros H0.
        assert (Hz : (Qsum devs == 0)%Q).
        { assert (Hq : (Qsum devs == (Qsum devs / Q_of_nat (S k)) * Q_of_nat (S k))%Q)
            by (field; lra).
          rewrite Hq, H0. ring. }
        apply (Qsum_zero_iff _ Hdev) in Hz. unfold devs in Hz.
        rewrite Forall_map in Hz. revert Hz. apply Forall_impl.
        intros x Hx. now apply Qabs_zero_eq.
      * intros Hall.
        assert (Hz : Forall (fun v => v == 0)%Q devs).
        { unfold devs. rewrite Forall_map. revert Hall.
          apply Forall_impl. intros x Hx. now apply Qabs_zero_eq. }
        apply (Qsum_zero_iff _ Hdev) in Hz. rewrite Hz. field. lra.
Qed.

Lemma mean_abs_deviation_sign_witness :
  exists d, mean_abs_deviation [Some 1%Q; Some 2%Q; None; Some 6%Q] = Some d
            /\ (0 <= d)%Q.
Proof.
  eexists. split; [reflexivity|].
  eapply (proj2 (mean_abs_deviation_sign [Some 1%Q; Some 2%Q; None; Some 6%Q]));
    reflexivity.
Defined.

(** *** [get_factor_name] *)

Lemma dedup_In_iff (x : string) (l : list string) : In x (dedup l) <-> In x l.
Proof.
  induction l as [|y l IH]; simpl; [tauto|].
  destruct (mem y l) eqn:E.
  - rewrite IH. split; [tauto|]. intros [->|H]; [|exact H].
    unfold mem in E. apply existsb_exists in E. destruct E as (z & Hz & Ez).
    apply String.eqb_eq in Ez. now subst.
  - simpl. rewrite IH. tauto.
Qed.

(** X7.  [get_factor_name] fails exactly when every column is one of the
    four kept ones; when it answers, the name is a column of the frame
    that is not kept ([set.pop] takes an element of the set). *)
Theorem get_factor_name_is_factor (set_pop : list string -> string)
  (cols : list string) :
  (forall fs, fs <> [] -> In (set_pop fs) fs) ->
  (get_factor_name set_pop cols = raise (KeyError "pop from an empty set")
   <-> Forall (fun c => mem c keep_columns = true) cols)
  /\ (forall f, get_factor_name set_pop cols = ok f ->
                In f cols /\ mem f keep_columns = false)
  /\ (forall e, get_factor_name set_pop cols = raise e ->
                e = KeyError "pop from an empty set").
Proof.
  intros Hpop. unfold get_factor_name.
  set (fs := dedup (filter (fun c => negb (mem c keep_columns)) cols)).
  assert (Hin : forall f, In f fs <-> In f cols /\ mem f keep_columns = false).
  { intros f. unfold fs. rewrite dedup_In_iff, filter_In.
    rewrite negb_true_iff. tauto. }
  assert (Hnil : fs = [] <-> Forall (fun c => mem c keep_columns = true) cols).
  { split.
    - intros E. apply Forall_forall. intros c Hc.
      destruct (mem c keep_columns) eqn:Em; [reflexivity|].
      assert (In c fs) by (apply Hin; tauto). rewrite E in H. destruct H.
    - intros Hall. destruct fs as [|f fs'] eqn:E; [reflexivity|].
      assert (Hf : In f (f :: fs')) by now left.
      apply Hin in Hf. destruct Hf as (Hf & Hm).
      rewrite Forall_forall in Hall. apply Hall in Hf. congruence. }
  split; [|split].
  - rewrite <- Hnil. destruct fs as [|f [|g fs']]; split; try discriminate; reflexivity.
  - intros f Hf. apply Hin.
    destruct fs as [|f1 [|g fs']] eqn:E; try discriminate.
    + inversion Hf; subst. now left.
    + inversion Hf; subst. apply Hpop. discriminate.
  - intros e He. destruct fs as [|f1 [|g fs']]; try discriminate.
    now inversion He.
Qed.

Lemma get_factor_name_is_factor_witness :
  get_factor_name (hd "") ["cap"; "pe"; "ret"] = ok "pe"
  /\ In "pe" ["cap"; "pe"; "ret"] /\ mem "pe" keep_columns = false.
Proof.
  split; [reflexivity|].
  apply (get_factor_name_is_factor (hd "") ["cap"; "pe"; "ret"]).
  - intros [|f fs] H; [congruence | now left].
  - reflexivity.
Defined.

(** *** [extreme_process] *)

Lemma clip_spec (m t x : Q) :
  let r := Qabs t in
  let y := clip (m - t) (m + t) x in
  (m - r <= y <= m + r)%Q
  /\ ((m - r <= x <= m + r)%Q -> y = x)
  /\ ((x < m - r)%Q -> (y == m - r)%Q)
  /\ ((m + r < x)%Q -> (y == m + r)%Q).
Proof.
  intros r y. unfold y, clip, r.
  destruct (Qle_bool (m - t) (m + t)) eqn:E.
  - apply Qle_bool_iff in E. assert (Ht : (0 <= t)%Q) by lra.
    rewrite (Qabs_pos t Ht).
    destruct (Qle_bool (m - t) x) eqn:E1; simpl.
    + apply Qle_bool_iff in E1.
      destruct (Qle_bool x (m + t)) eqn:E2; simpl.
      * apply Qle_bool_iff in E2. repeat split; try lra; tauto.
      * assert (~ (x <= m + t)%Q) by (rewrite <- Qle_bool_iff; congruence).
        repeat split; try lra.
    + assert (~ (m - t <= x)%Q) by (rewrite <- Qle_bool_iff; congruence).
      repeat split; try lra.
  - assert (Ht : ~ (m - t <= m + t)%Q) by (rewrite <- Qle_bool_iff; congruence).
    assert (Hneg : (t <= 0)%Q) by lra.
    rewrite (Qabs_neg t Hneg).
    destruct (Qle_bool (m + t) x) eqn:E1; simpl.
    + apply Qle_bool_iff in E1.
      destruct (Qle_bool x (m - t)) eqn:E2; simpl.
      * apply Qle_bool_iff in E2. repeat split; try lra; tauto.
      * assert (~ (x <= m - t)%Q) by (rewrite <- Qle_bool_iff; congruence).
        repeat split; try lra.
    + assert (~ (m + t <= x)%Q) by (rewrite <- Qle_bool_iff; congruence).
      repeat split; try lra.
Qed.

Lemma lookup_set_col_other (name g : string) (values : list cell) (df : frame) :
  g <> name ->
  column g (set_col name values df) = column g df.
Proof.
  intros Hg. unfold column, set_col, lookup. cbn [f_cols].
  induction (f_cols df) as [|[c v] l IH]; [reflexivity|].
  cbn [map fst find].
  destruct (String.eqb c name) eqn:E; cbn [fst].
  - apply String.eqb_eq in E. subst c.
    assert (E' : String.eqb name g = false) by (apply String.eqb_neq; congruence).
    rewrite E'. exact IH.
  - destruct (String.eqb c g); [reflexivity | exact IH].
Qed.

Lemma lookup_set_col_same (name : string) (values col : list cell) (df : frame) :
  column name df = ok col ->
  column name (set_col name values df) = ok values.
Proof.
  unfold column, set_col, lookup. cbn [f_cols].
  induction (f_cols df) as [|[c v] l IH]; [discriminate|].
  cbn [map fst find].
  destruct (String.eqb c name) eqn:E; cbn [fst].
  - rewrite E. reflexivity.
  - rewrite E. exact IH.
Qed.

(** X8.  When the mean and the spread of the factor column are numbers,
    [extreme_process] prints nothing and returns the frame with that
    column clipped: every value lies within [|num * spread|] of the old
    mean, a value already there is unchanged, a value beyond a bound is
    put on that bound, a missing value stays missing, and the index and
    the other columns are the input's. *)
Theorem extreme_process_clips (set_pop : list string -> string) (sqrtQ : Q -> Q)
  (clip_na : frame -> py frame) (data : frame) (num : Q) (method f : string)
  (col : list cell) (m i : Q) :
  get_factor_name set_pop (map fst (f_cols data)) = ok f ->
  column f data = ok col ->
  mean_cells col = Some m ->
  (if String.eqb method "mad" then mean_abs_deviation col else std_cells sqrtQ col)
  = Some i ->
  let r := Qabs (num * i) in
  exists out col',
    extreme_process set_pop sqrtQ clip_na data num method = ret out
    /\ f_index out = f_index data
    /\ map fst (f_cols out) = map fst (f_cols data)
    /\ (forall g, g <> f -> column g out = column g data)
    /\ column f out = ok col'
    /\ Forall2 (fun old new =>
                  match old with
                  | None => new = None
                  | Some x =>
                      exists y, new = Some y
                        /\ (m - r <= y <= m + r)%Q
                        /\ ((m - r <= x <= m + r)%Q -> y = x)
                        /\ ((x < m - r)%Q -> (y == m - r)%Q)
                        /\ ((m + r < x)%Q -> (y == m + r)%Q)
                  end) col col'.
Proof.
  intros Hf Hcol Hm Hi r.
  exists (set_col f (map (option_map (clip (m - num * i) (m + num * i))) col) data).
  exists (map (option_map (clip (m - num * i) (m + num * i))) col).
  split; [|split; [|split; [|split; [|split]]]].
  - unfold extreme_process. rewrite Hf, DispatchFacts.pbind_lift_ok.
    rewrite Hcol, DispatchFacts.pbind_lift_ok. rewrite Hm, Hi. reflexivity.
  - reflexivity.
  - unfold set_col. cbn [f_cols]. rewrite map_map. apply map_ext.
    intros [c v]. cbn [fst]. now destruct (String.eqb c f).
  - intros g Hg. now apply lookup_set_col_other.
  - eapply lookup_set_col_same. exact Hcol.
  - clear Hcol Hm Hi. induction col as [|c col IH]; [constructor|].
    cbn [map]. constructor; [|exact IH].
    destruct c as [x|]; [|reflexivity]. cbn [option_map].
    eexists. split; [reflexivity|]. apply clip_spec.
Qed.

Lemma extreme_process_clips_witness :
  exists out col',
    extreme_process MoreExamples.pop_first MoreExamples.sqrt_01 MoreExamples.no_clip_na
                    MoreExamples.frame_pe 1 "mad" = ret out
    /\ column "pe" out = ok col'
    /\ map (option_map Qred) col' = [Some 1%Q; Some 2%Q; None; Some 47%Q].
Proof.
  destruct (extreme_process_clips MoreExamples.pop_first MoreExamples.sqrt_01
              MoreExamples.no_clip_na MoreExamples.frame_pe 1 "mad" "pe"
              [Some 1%Q; Some 2%Q; None; Some 60%Q] (63 # 3) (2106 # 81)
              eq_refl eq_refl eq_refl eq_refl)
    as (out & col' & Hout & _ & _ & _ & Hcol & _).
  exists out, col'. split; [exact Hout|]. split; [exact Hcol|].
  vm_compute in Hout. inversion Hout; subst out.
  vm_compute in Hcol. inversion Hcol; subst col'. reflexivity.
Defined.

(** *** [data_scale] *)

Lemma sum_skipna_Fin (qs : list Q) (acc : Q) :
  fold_left (fun a x => if is_nan x then a else fl_add a x) (map Fin qs) (Fin acc)
  = Fin (fold_left Qplus qs acc).
Proof.
  revert acc; induction qs as [|x qs IH]; intros acc; [reflexivity|].
  cbn [map fold_left is_nan fl_add]. apply IH.
Qed.

Lemma Qis_zero_false (s : Q) : ~ (s == 0)%Q -> Qis_zero s = false.
Proof.
  intros H. unfold Qis_zero. destruct (Qeq_bool s 0) eqn:E; [|reflexivity].
  apply Qeq_bool_iff in E. contradiction.
Qed.

Lemma scaled_cell (m s x : Q) (col : list cell) (i : nat) :
  ~ (s == 0)%Q ->
  nth_error col i = Some (Some x) ->
  nth_error (map (fun c => fl_div (fl_of_cell c) (Fin s)) (sub_cells col (Some m))) i
  = Some (Fin ((x - m) / s)).
Proof.
  intros Hs. unfold sub_cells. revert i; induction col as [|c col IH]; intros [|i] H;
    try discriminate; cbn [map nth_error] in *.
  - inversion H; subst c. cbn [fl_of_cell fl_div]. now rewrite (Qis_zero_false _ Hs).
  - now apply IH.
Qed.

(** X9.  With the method ["normal"], when the standard deviation of the
    factor column is a positive number, scaling keeps the missing cells
    and never reverses two values: the scaled column is missing exactly
    where the input is, and of two values of the input the one that is
    not larger has a scaled value that is not larger.  (Subtracting one
    mean and dividing by one positive number are monotone, also when
    they round.) *)
Theorem data_scale_normal_keeps_order (set_pop : list string -> string)
  (sqrtQ : Q -> Q) (data : frame) (sc : scaled) (col : list cell) (s : Q) :
  data_scale set_pop sqrtQ data "normal" = ok sc ->
  column (s_name sc) data = ok col ->
  std_cells sqrtQ col = Some s ->
  (0 < s)%Q ->
  Forall2 (fun c v => c = None <-> v = NaN) col (s_values sc)
  /\ forall i j x y,
       nth_error col i = Some (Some x) ->
       nth_error col j = Some (Some y) ->
       (x <= y)%Q ->
       exists a b,
         nth_error (s_values sc) i = Some (Fin a)
         /\ nth_error (s_values sc) j = Some (Fin b)
         /\ (a <= b)%Q.
Proof.
  intros Hsc Hcol Hs Hpos. unfold data_scale in Hsc.
  assert (Hs0 : ~ (s == 0)%Q) by lra.
  destruct (get_factor_name set_pop (map fst (f_cols data))) as [e|f]; [discriminate|].
  cbn [bind String.eqb Ascii.eqb Bool.eqb] in Hsc.
  destruct (column f data) as [e|col0] eqn:Ecol; [discriminate|].
  cbn [bind] in Hsc. inversion Hsc; subst sc; clear Hsc.
  cbn [s_name s_values] in *. rewrite Ecol in Hcol. inversion Hcol; subst col0; clear Hcol.
  rewrite Hs. cbn [fl_of_cell].
  assert (Hlen : 2 <= length (valid col)).
  { unfold std_cells in Hs. destruct (length (valid col) <? 2) eqn:E; [discriminate|].
    apply Nat.ltb_ge in E. exact E. }
  assert (Hm : mean_cells col
               = Some (Qsum (valid col) / Q_of_nat (length (valid col)))%Q).
  { unfold mean_cells. destruct (valid col); [simpl in Hlen; lia | reflexivity]. }
  rewrite Hm. generalize (Qsum (valid col) / Q_of_nat (length (valid col)))%Q as m.
  intros m. clear Hm Hs Hlen Ecol. split.
  - unfold sub_cells. induction col as [|c col IH]; [constructor|].
    cbn [map]. constructor; [|exact IH].
    destruct c as [x|]; cbn [fl_of_cell fl_div].
    + rewrite (Qis_zero_false _ Hs0). split; discriminate.
    + split; reflexivity.
  - intros i j x y Hi Hj Hxy.
    exists ((x - m) / s)%Q, ((y - m) / s)%Q.
    split; [now apply scaled_cell|]. split; [now apply scaled_cell|].
    unfold Qdiv. apply Qmult_le_compat_r; [lra|].
    apply Qinv_le_0_compat. lra.
Qed.

Lemma data_scale_normal_keeps_order_witness :
  exists sc a b,
    data_scale MoreExamples.pop_first MoreExamples.sqrt_01 MoreExamples.frame_unit "normal"
    = ok sc
    /\ nth_error (s_values sc) 0 = Some (Fin a)
    /\ nth_error (s_values sc) 3 = Some (Fin b)
    /\ (a <= b)%Q.
Proof.
  eexists.
  pose proof (fun s => data_scale_normal_keeps_order MoreExamples.pop_first
                         MoreExamples.sqrt_01 MoreExamples.frame_unit _
                         [Some 1%Q; None; Some 2%Q; Some 3%Q] s
                         eq_refl eq_refl) as H0.
  destruct (H0 _ eq_refl eq_refl) as (_ & H).
  destruct (H 0 3 1%Q 3%Q eq_refl eq_refl) as (a & b & Ha & Hb & Hab);
    [discriminate|].
  exists a, b. split; [reflexivity|]. split; [exact Ha|]. split; [exact Hb | exact Hab].
Defined.

(** X10.  A method other than ["normal"] and ["cap"] makes [data_scale]
    raise: [ValueError] when the frame has a factor column, and the
    [KeyError] of [get_factor_name] when it has none. *)
Theorem data_scale_unknown_method (set_pop : list string -> string)
  (sqrtQ : Q -> Q) (data : frame) (method : string) :
  method <> "normal" -> method <> "cap" ->
  exists e, data_scale set_pop sqrtQ data method = raise e
    /\ (e = ValueError "标准化算法现在仅支持normal与cap"
        \/ e = KeyError "pop from an empty set")
    /\ (e = KeyError "pop from an empty set"
        <-> Forall (fun c => mem c keep_columns = true) (map fst (f_cols data))).
Proof.
  intros Hn Hc. apply String.eqb_neq in Hn, Hc. unfold data_scale.
  remember (map fst (f_cols data)) as cols.
  unfold get_factor_name.
  set (fs := dedup (filter (fun c => negb (mem c keep_columns)) cols)).
  assert (Hnil : fs = [] <-> Forall (fun c => mem c keep_columns = true) cols).
  { split.
    - intros E. apply Forall_forall. intros c Hin.
      destruct (mem c keep_columns) eqn:Em; [reflexivity|].
      assert (H : In c fs).
      { unfold fs. apply dedup_In_iff, filter_In. rewrite Em. now split. }
      rewrite E in H. destruct H.
    - intros Hall. destruct fs as [|f fs'] eqn:E; [reflexivity|].
      assert (Hf : In f fs) by (rewrite E; now left).
      unfold fs in Hf. apply dedup_In_iff, filter_In in Hf. destruct Hf as (Hf & Hm).
      rewrite Forall_forall in Hall. rewrite (Hall _ Hf) in Hm. discriminate. }
  destruct fs as [|f [|g fs']]; cbn [bind raise ok]; rewrite ?Hn, ?Hc.
  - eexists. split; [reflexivity|]. split; [now right|]. rewrite <- Hnil. tauto.
  - eexists. split; [reflexivity|]. split; [now left|]. rewrite <- Hnil.
    split; discriminate.
  - eexists. split; [reflexivity|]. split; [now left|]. rewrite <- Hnil.
    split; discriminate.
Qed.

Lemma data_scale_unknown_method_witness :
  exists e,
    data_scale MoreExamples.pop_first MoreExamples.sqrt_01 MoreExamples.frame_pe "zscore"
    = raise e
    /\ (e = ValueError "标准化算法现在仅支持normal与cap"
        \/ e = KeyError "pop from an empty set")
    /\ (e = KeyError "pop from an empty set"
        <-> Forall (fun c => mem c keep_columns = true)
                   (map fst (f_cols MoreExamples.frame_pe))).
Proof.
  apply data_scale_unknown_method; discriminate.
Defined.

(** *** [__frame_to_rank] *)

Lemma Qmult_sign_twice (x : Q) (v : bool) : (x * sign_of v * sign_of v)%Q = x.
Proof.
  destruct x as [a b]. destruct v; unfold Qmult, sign_of; cbn [Qnum Qden];
    rewrite !Pos.mul_1_r; f_equal; lia.
Qed.

Lemma mapM_involutive {A} (g : A -> result A) (l l1 : list A) :
  (forall a b, g a = ok b -> g b = ok a) ->
  mapM g l = ok l1 -> mapM g l1 = ok l.
Proof.
  intros Hg. revert l1; induction l as [|a l IH]; intros l1 H.
  - inversion H. reflexivity.
  - cbn [mapM] in H. destruct (g a) as [e|b] eqn:Ea; [discriminate|].
    cbn [bind] in H. destruct (mapM g l) as [e|bs] eqn:El; [discriminate|].
    inversion H; subst l1. cbn [mapM]. rewrite (Hg _ _ Ea). cbn [bind].
    rewrite (IH bs eq_refl). reflexivity.
Qed.

(** X11.  Applying the directions twice gives the frame back: a frame
    that [__frame_to_rank] returns is turned into the original one by a
    second call with the same directions. *)
Theorem frame_to_rank_involution (direction : list (string * bool)) (df df1 : frame) :
  __frame_to_rank direction df = ok df1 ->
  __frame_to_rank direction df1 = ok df.
Proof.
  unfold __frame_to_rank. destruct df as [idx cols]. cbn [f_cols f_index].
  match goal with |- context [mapM ?g cols] => set (step := g) end.
  destruct (mapM step cols) as [e|cols1] eqn:E; [discriminate|].
  cbn [bind]. intros H. inversion H; subst df1; clear H. cbn [f_cols f_index].
  rewrite (mapM_involutive step cols cols1); [reflexivity | | exact E].
  intros [c v] b. unfold step. cbn [fst snd].
  destruct (negb (mem c ["cap"])) eqn:Ec.
  - destruct (lookup c direction) as [w|] eqn:El; [|discriminate].
    intros Hb. inversion Hb; subst b; clear Hb. cbn [fst snd].
    rewrite Ec, El. unfold ok. do 2 f_equal.
    rewrite map_map. rewrite <- (map_id v) at 2. apply map_ext.
    intros [x|]; [|reflexivity]. cbn [option_map]. now rewrite Qmult_sign_twice.
  - intros Hb. inversion Hb; subst b. cbn [fst]. now rewrite Ec.
Qed.

Lemma frame_to_rank_involution_witness :
  __frame_to_rank [("pe", true)]
    (mk_frame ["a"; "b"] [("pe", [Some (3 # 1); None]); ("cap", [Some (5 # 1); Some (7 # 1)])])
  = ok (mk_frame ["a"; "b"]
          [("pe", [Some (-3 # 1); None]); ("cap", [Some (5 # 1); Some (7 # 1)])])
  /\ __frame_to_rank [("pe", true)]
       (mk_frame ["a"; "b"]
          [("pe", [Some (-3 # 1); None]); ("cap", [Some (5 # 1); Some (7 # 1)])])
     = ok (mk_frame ["a"; "b"]
             [("pe", [Some (3 # 1); None]); ("cap", [Some (5 # 1); Some (7 # 1)])]).
Proof.
  split; [reflexivity|].
  apply frame_to_rank_involution. reflexivity.
Defined.

(** X12.  [__frame_to_rank] succeeds exactly when every column other
    than [cap] has a direction; then the index, the column names and the
    [cap] column are the input's, and otherwise the [KeyError] names a
    column of the frame, not [cap], that the directions lack. *)
Theorem frame_to_rank_needs_directions (direction : list (string * bool)) (df : frame) :
  ((exists df1, __frame_to_rank direction df = ok df1)
   <-> Forall (fun nc => fst nc = "cap" \/ lookup (fst nc) direction <> None) (f_cols df))
  /\ (forall df1, __frame_to_rank direction df = ok df1 ->
        f_index df1 = f_index df
        /\ map fst (f_cols df1) = map fst (f_cols df)
        /\ column "cap" df1 = column "cap" df)
  /\ (forall e, __frame_to_rank direction df = raise e ->
        exists c, e = KeyError c /\ In c (map fst (f_cols df))
                  /\ c <> "cap" /\ lookup c direction = None).
Proof.
  unfold __frame_to_rank, column. destruct df as [idx cols]. cbn [f_cols f_index].
  match goal with |- context [mapM ?g cols] => set (step := g) end.
  assert (Hcap : forall c : string, negb (mem c ["cap"]) = false <-> c = "cap").
  { intros c. unfold mem. cbn [existsb]. rewrite orb_false_r, negb_false_iff.
    apply String.eqb_eq. }
  assert (Hstep : forall l,
            match mapM step l with
            | inr l1 => Forall (fun nc => fst nc = "cap" \/ lookup (fst nc) direction <> None) l
                        /\ map fst l1 = map fst l
                        /\ lookup "cap" l1 = lookup "cap" l
            | inl e => ~ Forall (fun nc => fst nc = "cap" \/ lookup (fst nc) direction <> None) l
                       /\ exists c, e = KeyError c /\ In c (map fst l)
                                    /\ c <> "cap" /\ lookup c direction = None
            end).
  { induction l as [|[c v] l IH]; [cbn; auto|].
    cbn [mapM]. unfold step at 1. cbn [fst snd].
    destruct (negb (mem c ["cap"])) eqn:Ec.
    - assert (Hne : c <> "cap").
      { intros Heq. apply Hcap in Heq. congruence. }
      destruct (lookup c direction) as [w|] eqn:El.
      + cbn [bind]. destruct (mapM step l) as [e|l1].
        * cbn [bind]. destruct IH as (Hno & c' & He & Hin & Hc' & Hl').
          split; [intros HF; inversion HF; contradiction|].
          exists c'. cbn [map fst In]. auto.
        * cbn [bind ok]. destruct IH as (HF & Hnames & Hlk). split; [|split].
          -- constructor; [right; cbn [fst]; congruence | exact HF].
          -- cbn [map fst]. now rewrite Hnames.
          -- unfold lookup in *. cbn [find fst].
             assert (E : String.eqb c "cap" = false) by now apply String.eqb_neq.
             rewrite E. exact Hlk.
      + cbn [bind raise]. split.
        * intros HF. inversion HF as [|? ? [H|H] _]; cbn [fst] in H; congruence.
        * exists c. cbn [map fst In]. auto.
    - apply Hcap in Ec. subst c. cbn [bind]. destruct (mapM step l) as [e|l1].
      + cbn [bind]. destruct IH as (Hno & c' & He & Hin & Hc' & Hl').
        split; [intros HF; inversion HF; contradiction|].
        exists c'. cbn [map fst In]. auto.
      + cbn [bind ok]. destruct IH as (HF & Hnames & Hlk). split; [|split].
        * constructor; [left; reflexivity | exact HF].
        * cbn [map fst]. now rewrite Hnames.
        * reflexivity. }
  specialize (Hstep cols). destruct (mapM step cols) as [e|cols1]; cbn [bind].
  - destruct Hstep as (Hno & Hc). split; [|split].
    + split; [intros (df1 & H); discriminate | intros H; contradiction].
    + intros df1 H. discriminate.
    + intros e' H. inversion H; subst e'. exact Hc.
  - destruct Hstep as (HF & Hnames & Hlk). split; [|split].
    + split; [intros _; exact HF | intros _; eexists; reflexivity].
    + intros df1 H. inversion H; subst df1. cbn [f_index f_cols].
      split; [reflexivity|]. split; [exact Hnames|].
      exact (f_equal (fun o : option (list cell) =>
                        match o with
                        | Some c => ok c
                        | None => raise (KeyError "cap")
                        end) Hlk).
    + intros e H. discriminate.
Qed.

End ToolsFacts.

(** ** Errors and edge cases of [regress], [score] and [dynamic_score] *)

Module PanelFacts.
Import Factors Examples MonadFacts DispatchFacts.

Lemma pbind_lift_raise {A B} (e : exn) (k : A -> py B) :
  pbind (lift (raise e)) k = ([], inl e).
Proof. reflexivity. Qed.

Lemma no_factor_names (p : panel) :
  Forall (fun c => mem c reserved = true) (columns p) -> factor_names_of p = [].
Proof.
  intros H. unfold factor_names_of.
  replace (filter (fun c => negb (mem c reserved)) (columns p)) with (@nil string);
    [reflexivity|].
  induction H as [|c l Hc _ IH]; [reflexivity|]. cbn [filter]. now rewrite Hc.
Qed.

(** X13.  On a panel whose columns are all among ret, cap,
    benchmark_returns and group, the three entry points raise the same
    [ValueError] before anything else: whatever the method and the other
    arguments, nothing is printed and no collaborator is called. *)
Theorem no_factor_column_raises (p : panel)
  (ols : list (list Q * Q) -> result (Q * list Q))
  (ic : list cell -> list cell -> cell) (sqrtQ : Q -> Q)
  (ag : add_group_args -> panel -> list string) (fd : list (string * bool))
  (cw : panel -> list string -> direction_arg -> py (list (row * fl)))
  (s1 s2 : panel -> list string -> direction_arg -> nat -> py (list (row * fl)))
  (method : string) (direction : direction_arg) (score_window num_group : nat)
  (group_ascending : group_ascending_arg) :
  Forall (fun c => mem c reserved = true) (columns p) ->
  regress ols p method
  = ([], inl (ValueError "fac_ret_data must have at least 1 factor, got 0."))
  /\ score ic sqrtQ ag fd cw p method direction score_window
     = ([], inl (ValueError "fac_ret_data must have at least 1 factor, got 0."))
  /\ dynamic_score ag s1 s2 cw p method direction score_window num_group group_ascending
     = ([], inl (ValueError "fac_ret_data must have at least 1 factor, got 0.")).
Proof.
  intros H. apply no_factor_names in H.
  unfold regress, score, dynamic_score.
  rewrite !check_factors_sorted. unfold check_factors. rewrite H.
  repeat split.
Qed.

Lemma no_factor_column_raises_witness :
  regress MoreExamples.no_ols MoreExamples.panel_only_ret "equal_weighted"
  = ([], inl (ValueError "fac_ret_data must have at least 1 factor, got 0."))
  /\ score no_ic no_sqrt add_group [] no_context MoreExamples.panel_only_ret
           "equal_weighted" (DirBool false) 12
     = ([], inl (ValueError "fac_ret_data must have at least 1 factor, got 0."))
  /\ dynamic_score add_group MoreExamples.no_strategy MoreExamples.no_strategy no_context
                   MoreExamples.panel_only_ret "equal_weighted" (DirBool false) 12 5
                   (GaBool false)
     = ([], inl (ValueError "fac_ret_data must have at least 1 factor, got 0.")).
Proof.
  apply no_factor_column_raises. repeat constructor.
Defined.

(** X14.  On a panel with a factor column, [regress] raises [KeyError]
    and prints that the method is not valid in two cases: for every
    method name other than common_regress, and for common_regress itself
    when the panel has no [ret] column. *)
Theorem regress_key_errors (ols : list (list Q * Q) -> result (Q * list Q))
  (p : panel) :
  factor_names_of p <> [] ->
  (forall method, method <> "common_regress" ->
     regress ols p method
     = ([(method ++ " is not a valid method. valid methods are: ['common_regress']")%string],
        inl (KeyError method)))
  /\ (mem "ret" (columns p) = false ->
      regress ols p "common_regress"
      = (["common_regress is not a valid method. valid methods are: ['common_regress']"],
         inl (KeyError "ret"))).
Proof.
  intros Hf. unfold regress. rewrite check_factors_sorted. unfold check_factors.
  destruct (factor_names_of p) as [|f fs] eqn:E; [congruence|].
  cbv iota. split.
  - intros method Hm. rewrite pbind_lift_ok, dispatch_unknown; [reflexivity|].
    cbn. apply String.eqb_neq in Hm. now rewrite Hm.
  - intros Hret. rewrite pbind_lift_ok. unfold dispatch. cbn [lookup find fst snd option_map String.eqb Ascii.eqb Bool.eqb].
    unfold common_regress, get_params. cbn [sort_index columns]. rewrite Hret.
    reflexivity.
Qed.

Lemma regress_key_errors_witness :
  regress MoreExamples.no_ols MoreExamples.panel_only_factor "common_regress"
  = (["common_regress is not a valid method. valid methods are: ['common_regress']"],
     inl (KeyError "ret")).
Proof.
  apply (regress_key_errors MoreExamples.no_ols MoreExamples.panel_only_factor).
  - vm_compute. discriminate.
  - reflexivity.
Defined.

(** X15.  On a panel with a factor column, [dynamic_score] with a method
    name outside the five valid ones raises [KeyError] after printing the
    list of the valid names; and its equal-weighted method with
    [direction=None] always fails on the unbound [rnk], since only a flag
    and a dictionary are handled. *)
Theorem dynamic_score_errors
  (ag : add_group_args -> panel -> list string)
  (s1 s2 : panel -> list string -> direction_arg -> nat -> py (list (row * fl)))
  (s3 : panel -> list string -> direction_arg -> py (list (row * fl)))
  (p : panel) (score_window num_group : nat) (group_ascending : group_ascending_arg) :
  factor_names_of p <> [] ->
  (forall method direction,
     mem method valid_methods = false ->
     dynamic_score ag s1 s2 s3 p method direction score_window num_group group_ascending
     = ([(method ++ " is not a valid method. valid methods are: ['equal_weighted', 'ic_weighted', 'icir_weighted', 'ret_weighted', 'context_weighted']")%string],
        inl (KeyError method)))
  /\ dynamic_score ag s1 s2 s3 p "equal_weighted" DirNone score_window num_group
                   group_ascending
     = ([], inl (OtherError "UnboundLocalError: local variable 'rnk' referenced before assignment")).
Proof.
  intros Hf. unfold dynamic_score, check_factors.
  destruct (factor_names_of p) as [|f fs] eqn:E; [congruence|].
  cbv iota. split.
  - intros method direction Hm.
    rewrite pbind_lift_ok, dispatch_unknown; [reflexivity | exact Hm].
  - rewrite pbind_lift_ok. reflexivity.
Qed.

Lemma dynamic_score_errors_witness :
  dynamic_score add_group MoreExamples.no_strategy MoreExamples.no_strategy no_context
                MoreExamples.panel_only_factor "equal_weighted" DirNone 12 5 (GaBool false)
  = ([], inl (OtherError "UnboundLocalError: local variable 'rnk' referenced before assignment")).
Proof.
  apply (dynamic_score_errors add_group MoreExamples.no_strategy MoreExamples.no_strategy
           no_context MoreExamples.panel_only_factor 12 5 (GaBool false)).
  vm_compute. discriminate.
Defined.

Lemma get_ic_ok (ic : list cell -> list cell -> cell) (p : panel) (facs : list string) :
  mem "ret" (columns p) = true ->
  exists t, get_ic ic p facs = ok t /\ length t = length (dates_of (rows p)).
Proof.
  intros H. unfold get_ic. rewrite H. unfold groupby_date.
  induction (dates_of (rows p)) as [|d ds IH]; [now exists []|].
  destruct IH as (t & Ht & Hl). cbn [map mapM bind ok]. rewrite Ht. cbn [bind].
  eexists. split; [reflexivity|]. cbn [length]. now rewrite Hl.
Qed.

(** X16.  A window of 0 rows is refused: on a panel with rows, a factor
    column and the [ret] column, [score] with [score_window=0] raises the
    [ValueError] of the rolling mean for the IC and the ICIR methods,
    whatever the direction, before any rank is computed and without
    printing. *)
Theorem score_window_zero_raises
  (ic : list cell -> list cell -> cell) (sqrtQ : Q -> Q)
  (ag : add_group_args -> panel -> list string) (fd : list (string * bool))
  (cw : panel -> list string -> direction_arg -> py (list (row * fl)))
  (p : panel) (direction : direction_arg) :
  factor_names_of p <> [] ->
  mem "ret" (columns p) = true ->
  rows p <> [] ->
  score ic sqrtQ ag fd cw p "ic_weighted" direction 0
  = ([], inl (ValueError "min_periods 1 must be <= window 0"))
  /\ score ic sqrtQ ag fd cw p "icir_weighted" direction 0
     = ([], inl (ValueError "min_periods 1 must be <= window 0")).
Proof.
  intros Hf Hret _. unfold score. rewrite check_factors_sorted. unfold check_factors.
  destruct (factor_names_of p) as [|f fs] eqn:E; [congruence|].
  cbv iota.
  destruct (get_ic_ok ic (sort_index p) (f :: fs) Hret) as (t & Ht & _).
  split; rewrite pbind_lift_ok; unfold dispatch;
    cbn [lookup find fst snd option_map String.eqb Ascii.eqb Bool.eqb];
    unfold ic_weighted, icir_weighted, ic_weights, icir_weights,
           ic_contributions, icir_ratios;
    rewrite Ht; reflexivity.
Qed.

Lemma score_window_zero_raises_witness :
  score no_ic no_sqrt add_group [] no_context MoreExamples.panel_shuffled
        "ic_weighted" (DirBool false) 0
  = ([], inl (ValueError "min_periods 1 must be <= window 0")).
Proof.
  apply (score_window_zero_raises no_ic no_sqrt add_group [] no_context
           MoreExamples.panel_shuffled (DirBool false)).
  - vm_compute. discriminate.
  - reflexivity.
  - discriminate.
Defined.

End PanelFacts.

(** ** The order of the rows *)

Module OrderFacts.
Import Factors Examples SortFacts RegressFacts.

Lemma string_leb_iff (a b : string) :
  String.leb a b = true <-> OrderedTypeEx.String_as_OT.lt a b \/ a = b.
Proof.
  unfold String.leb.
  pose proof (OrderedTypeEx.String_as_OT.cmp_lt a b) as Hlt.
  pose proof (OrderedTypeEx.String_as_OT.cmp_eq a b) as Heq.
  unfold OrderedTypeEx.String_as_OT.cmp in *.
  destruct (String.compare a b); split; intros H; try reflexivity; try discriminate.
  - right. now apply Heq.
  - left. now apply Hlt.
  - destruct H as [H|H]; [apply Hlt in H | apply Heq in H]; discriminate.
Qed.

Lemma string_leb_trans (a b c : string) :
  String.leb a b = true -> String.leb b c = true -> String.leb a c = true.
Proof.
  rewrite !string_leb_iff. intros [H1| ->] [H2| ->]; auto.
  left. eapply OrderedTypeEx.String_as_OT.lt_trans; eassumption.
Qed.

Lemma key_leb_total (a b : row) : key_leb a b = true \/ key_leb b a = true.
Proof.
  unfold key_leb.
  destruct (Nat.lt_trichotomy (r_date a) (r_date b)) as [H|[H|H]].
  - left. apply Nat.ltb_lt in H. now rewrite H.
  - rewrite H, Nat.eqb_refl. cbn [andb].
    destruct (String.leb_total (r_code a) (r_code b)) as [E|E]; rewrite E;
      [left | right]; apply orb_true_r.
  - right. apply Nat.ltb_lt in H. now rewrite H.
Qed.

Lemma key_leb_trans (a b c : row) :
  key_leb a b = true -> key_leb b c = true -> key_leb a c = true.
Proof.
  unfold key_leb. intros H1 H2.
  apply orb_true_iff in H1, H2. apply orb_true_iff.
  rewrite !andb_true_iff, !Nat.ltb_lt, !Nat.eqb_eq in *.
  destruct H1 as [H1|[H1 L1]], H2 as [H2|[H2 L2]]; try (left; lia).
  right. split; [lia|]. eapply string_leb_trans; eassumption.
Qed.

Lemma key_leb_antisym (a b : row) :
  key_leb a b = true -> key_leb b a = true -> row_key a = row_key b.
Proof.
  unfold key_leb, row_key. intros H1 H2.
  apply orb_true_iff in H1, H2.
  rewrite !andb_true_iff, !Nat.ltb_lt, !Nat.eqb_eq in *.
  destruct H1 as [H1|[H1 L1]], H2 as [H2|[H2 L2]]; try lia.
  f_equal; [exact H1 | now apply String.leb_antisym].
Qed.

Section Sorting.
Context {A : Type}.
Variable le : A -> A -> bool.
Hypothesis le_total : forall a b, le a b = true \/ le b a = true.
Hypothesis le_trans : forall a b c, le a b = true -> le b c = true -> le a c = true.

Lemma insert_by_sorted (x : A) (l : list A) :
  StronglySorted (fun a b => le a b = true) l ->
  StronglySorted (fun a b => le a b = true) (insert_by le x l).
Proof.
  induction 1 as [|y l Hs IH Hy]; cbn [insert_by].
  - repeat constructor.
  - destruct (le x y) eqn:E.
    + constructor; [now constructor|]. constructor; [exact E|].
      revert Hy. apply Forall_impl. intros z. now apply le_trans.
    + constructor; [exact IH|].
      eapply Permutation_Forall; [symmetry; apply insert_by_perm|].
      constructor; [|exact Hy].
      destruct (le_total x y) as [H|H]; [congruence | exact H].
Qed.

Lemma sort_by_sorted (l : list A) :
  StronglySorted (fun a b => le a b = true) (sort_by le l).
Proof.
  induction l as [|x l IH]; [constructor|]. now apply insert_by_sorted.
Qed.

Lemma sorted_sort_id (l : list A) :
  StronglySorted (fun a b => le a b = true) l -> sort_by le l = l.
Proof.
  induction 1 as [|x l Hs IH Hx]; [reflexivity|].
  cbn [sort_by fold_right]. fold (sort_by le l). rewrite IH.
  destruct l as [|y l]; [reflexivity|]. cbn [insert_by].
  inversion Hx as [|? ? Hxy _]; subst. now rewrite Hxy.
Qed.

Lemma sorted_perm_unique (l1 l2 : list A) :
  (forall a b, In a l1 -> In b l1 -> le a b = true -> le b a = true -> a = b) ->
  StronglySorted (fun a b => le a b = true) l1 ->
  StronglySorted (fun a b => le a b = true) l2 ->
  Permutation l1 l2 -> l1 = l2.
Proof.
  intros Hanti H1; revert l2; induction H1 as [|a l1 Hs1 IH Ha]; intros l2 H2 HP.
  - apply Permutation_nil in HP. now subst.
  - destruct l2 as [|b l2]; [symmetry in HP; apply Permutation_nil in HP; discriminate|].
    inversion H2 as [|? ? Hs2 Hb]; subst.
    assert (Eab : a = b).
    { assert (Hina : In a (b :: l2)) by (eapply Permutation_in; [exact HP | now left]).
      assert (Hinb : In b (a :: l1))
        by (eapply Permutation_in; [symmetry; exact HP | now left]).
      destruct Hina as [E|Hina]; [now symmetry|].
      destruct Hinb as [E|Hinb]; [exact E|].
      rewrite Forall_forall in Ha, Hb.
      apply Hanti; [now left | now right | now apply Ha | now apply Hb]. }
    subst b. f_equal. apply IH; [|exact Hs2|].
    + intros x y Hx Hy. apply Hanti; now right.
    + eapply Permutation_cons_inv. exact HP.
Qed.

End Sorting.

(** X17.  The order in which the rows of the panel are given does not
    matter to [regress] and [score]: two panels with the same columns and
    the same rows, each (date, security) pair once, give the same
    printed lines and the same outcome, since both functions start by
    sorting the index. *)
Theorem row_order_is_irrelevant (p p' : panel)
  (ols : list (list Q * Q) -> result (Q * list Q))
  (ic : list cell -> list cell -> cell) (sqrtQ : Q -> Q)
  (ag : add_group_args -> panel -> list string) (fd : list (string * bool))
  (cw : panel -> list string -> direction_arg -> py (list (row * fl)))
  (method : string) (direction : direction_arg) (score_window : nat) :
  columns p = columns p' ->
  Permutation (rows p) (rows p') ->
  NoDup (map row_key (rows p)) ->
  sort_index p = sort_index p'
  /\ regress ols p method = regress ols p' method
  /\ score ic sqrtQ ag fd cw p method direction score_window
     = score ic sqrtQ ag fd cw p' method direction score_window.
Proof.
  intros Hc HP Hnd.
  assert (E : sort_index p = sort_index p').
  { unfold sort_index. rewrite Hc. f_equal.
    apply (sorted_perm_unique key_leb).
    - intros a b Ha Hb H1 H2.
      apply (NoDup_keys_inj (rows p)); [exact Hnd | | |].
      + now apply sort_by_In in Ha.
      + now apply sort_by_In in Hb.
      + now apply key_leb_antisym.
    - apply sort_by_sorted; [apply key_leb_total | apply key_leb_trans].
    - apply sort_by_sorted; [apply key_leb_total | apply key_leb_trans].
    - rewrite !sort_by_perm. exact HP. }
  split; [exact E|]. unfold regress, score. rewrite E. split; reflexivity.
Qed.

Lemma row_order_is_irrelevant_witness :
  sort_index MoreExamples.panel_shuffled
  = sort_index (mk_panel (columns MoreExamples.panel_shuffled)
                         (rev (rows MoreExamples.panel_shuffled)))
  /\ regress MoreExamples.no_ols MoreExamples.panel_shuffled "common_regress"
     = regress MoreExamples.no_ols
               (mk_panel (columns MoreExamples.panel_shuffled)
                         (rev (rows MoreExamples.panel_shuffled)))
               "common_regress"
  /\ score no_ic no_sqrt add_group [] no_context MoreExamples.panel_shuffled
           "equal_weighted" (DirBool false) 12
     = score no_ic no_sqrt add_group [] no_context
             (mk_panel (columns MoreExamples.panel_shuffled)
                       (rev (rows MoreExamples.panel_shuffled)))
             "equal_weighted" (DirBool false) 12.
Proof.
  assert (Hnd : NoDup (map row_key (rows MoreExamples.panel_shuffled))).
  { repeat constructor; cbn; intuition discriminate. }
  destruct (row_order_is_irrelevant MoreExamples.panel_shuffled
              (mk_panel (columns MoreExamples.panel_shuffled)
                        (rev (rows MoreExamples.panel_shuffled)))
              MoreExamples.no_ols no_ic no_sqrt add_group [] no_context
              "common_regress" (DirBool false) 12
              eq_refl (Permutation_rev _) Hnd) as (H1 & H2 & _).
  destruct (row_order_is_irrelevant MoreExamples.panel_shuffled
              (mk_panel (columns MoreExamples.panel_shuffled)
                        (rev (rows MoreExamples.panel_shuffled)))
              MoreExamples.no_ols no_ic no_sqrt add_group [] no_context
              "equal_weighted" (DirBool false) 12
              eq_refl (Permutation_rev _) Hnd) as (_ & _ & H3).
  split; [exact H1|]. split; [exact H2 | exact H3].
Defined.

End OrderFacts.

(** ** The shape of a score *)

Module ScoreFacts.
Import Factors Examples MonadFacts SortFacts DispatchFacts OrderFacts.
Import RankCompleteFacts WeightFacts RegressFacts ToolsFacts.

Lemma pbind_ok_inv {A B} (m : py A) (k : A -> py B) (out : list string) (b : B) :
  pbind m k = (out, inr b) ->
  exists o1 a o2, m = (o1, inr a) /\ k a = (o2, inr b) /\ out = o1 ++ o2.
Proof.
  destruct m as [o1 [e|a]]; cbn [pbind]; intros H; [discriminate|].
  destruct (k a) as [o2 r] eqn:E. cbn [fst snd] in H. inversion H; subst.
  now exists o1, a, o2.
Qed.

Lemma pbind_ret {A B} (a : A) (k : A -> py B) : pbind (ret a) k = k a.
Proof. unfold pbind, ret, ok. cbn. now destruct (k a). Qed.

Lemma join_panel_ok_inv {A} (p : panel) (a b : A) (o : list string) :
  join_panel p a = (o, inr b) -> b = a /\ mem "score" (columns p) = false.
Proof.
  unfold join_panel. destruct (mem "score" (columns p)); [discriminate|].
  unfold ret. intros H. inversion H. auto.
Qed.

Lemma dispatch_ok_inv {A} (valid_method : list (string * py A)) (method : string)
  (out : list string) (a : A) :
  dispatch valid_method method = (out, inr a) ->
  lookup method valid_method = Some (out, inr a).
Proof.
  unfold dispatch. destruct (lookup method valid_method) as [[o [e|b]]|].
  - destruct e; discriminate.
  - intros H. now inversion H.
  - cbn. discriminate.
Qed.

Lemma ascending_flags_length (fd : list (string * bool)) (direction : direction_arg)
  (facs : list string) (o : list string) (flags : list bool) :
  ascending_flags fd direction facs = (o, inr flags) -> length flags = length facs.
Proof.
  destruct direction as [|b|d]; cbn [ascending_flags].
  - unfold lift. intros H. inversion H as [[Ho Hm]]. now apply mapM_length in Hm.
  - unfold ret. intros H. inversion H. apply length_map.
  - intros H. apply pbind_ok_inv in H as (o1 & u & o2 & _ & H & _).
    unfold ret in H. inversion H. apply length_map.
Qed.

Lemma rows_of_length {A} (dflt : A) (n : nat) (cols : list (list A)) :
  length (rows_of dflt n cols) = n
  /\ Forall (fun r => length r = length cols) (rows_of dflt n cols).
Proof.
  unfold rows_of. split; [now rewrite length_map, length_seq|].
  apply Forall_map. apply Forall_forall. intros i _. apply length_map.
Qed.

Lemma get_rank_shape (fd : list (string * bool)) (p : panel) (facs : list string)
  (direction : direction_arg) (o : list string) (rnk : list (list nat)) :
  get_rank fd p facs direction = (o, inr rnk) ->
  length rnk = length (rows p) /\ Forall (fun r => length r = length facs) rnk.
Proof.
  unfold get_rank. intros H.
  apply pbind_ok_inv in H as (o1 & flags & o2 & Hfl & H & _).
  apply ascending_flags_length in Hfl.
  unfold ret in H. inversion H as [[Ho Hr]].
  match goal with |- context [rows_of 0 ?n ?c] =>
    destruct (rows_of_length 0 n c) as (H1 & H2) end.
  split; [exact H1|].
  rewrite length_map, length_combine, Hfl, Nat.min_id in H2. exact H2.
Qed.

Lemma map_fst_sort {B} (l : list (row * B)) :
  map fst (sort_by (fun a b : row * B => key_leb (fst a) (fst b)) l)
  = sort_by key_leb (map fst l).
Proof.
  induction l as [|x l IH]; [reflexivity|].
  cbn [sort_by fold_right map].
  change (fold_right (insert_by (fun a b : row * B => key_leb (fst a) (fst b))) [] l)
    with (sort_by (fun a b : row * B => key_leb (fst a) (fst b)) l).
  change (fold_right (insert_by key_leb) [] (map fst l)) with (sort_by key_leb (map fst l)).
  rewrite <- IH. clear IH.
  induction (sort_by (fun a b : row * B => key_leb (fst a) (fst b)) l) as [|y s IHs];
    [reflexivity|].
  cbn [insert_by map]. destruct (key_leb (fst x) (fst y)); [reflexivity|].
  cbn [map]. now rewrite IHs.
Qed.

Lemma map_fst_scored {B C} (g : row * C -> B) (rs : list row) (rnk : list C) :
  length rnk = length rs ->
  map fst (map (fun rr => (fst rr, g rr)) (combine rs rnk)) = rs.
Proof.
  revert rnk; induction rs as [|r rs IH]; intros [|c rnk] H; try discriminate;
    [reflexivity|].
  cbn [combine map fst]. f_equal. apply IH. now inversion H.
Qed.

Lemma scored_rows {B} (g : row * list nat -> B) (p : panel) (rnk : list (list nat)) :
  length rnk = length (rows (sort_index p)) ->
  map fst (sort_by (fun a b : row * B => key_leb (fst a) (fst b))
             (map (fun rr => (fst rr, g rr)) (combine (rows (sort_index p)) rnk)))
  = rows (sort_index p).
Proof.
  intros H. rewrite map_fst_sort, (map_fst_scored g _ _ H).
  apply sorted_sort_id. unfold sort_index. cbn [rows].
  apply sort_by_sorted; [apply key_leb_total | apply key_leb_trans].
Qed.

(** X18.  Whenever [score] returns with one of the methods equal_weighted,
    ic_weighted, icir_weighted and ret_weighted, the result has exactly
    the rows of the panel in index order: one score per (date, security)
    row, none dropped, none repeated. *)
Theorem score_keeps_rows
  (ic : list cell -> list cell -> cell) (sqrtQ : Q -> Q)
  (ag : add_group_args -> panel -> list string) (fd : list (string * bool))
  (cw : panel -> list string -> direction_arg -> py (list (row * fl)))
  (p : panel) (method : string) (direction : direction_arg) (score_window : nat)
  (prints : list string) (out : list (row * fl)) :
  mem method ["equal_weighted"; "ic_weighted"; "icir_weighted"; "ret_weighted"] = true ->
  score ic sqrtQ ag fd cw p method direction score_window = (prints, inr out) ->
  map fst out = rows (sort_index p)
  /\ Permutation (map fst out) (rows p).
Proof.
  intros Hm H.
  assert (Hrows : map fst out = rows (sort_index p)).
  { unfold score in H.
    apply pbind_ok_inv in H as (o1 & facs & o2 & _ & H & _).
    apply dispatch_ok_inv in H.
    unfold mem in Hm. cbn [existsb] in Hm. rewrite orb_false_r in Hm.
    repeat (apply orb_true_iff in Hm; destruct Hm as [Hm|Hm]);
      apply String.eqb_eq in Hm; subst method;
      cbn [lookup find fst snd option_map String.eqb Ascii.eqb Bool.eqb] in H;
      inversion H as [H']; clear H.
    - unfold equal_weighted in H'.
      apply pbind_ok_inv in H' as (o3 & rnk & o4 & Hr & H & _).
      apply get_rank_shape in Hr as (Hr & _).
      apply join_panel_ok_inv in H as (-> & _). now apply scored_rows.
    - unfold ic_weighted in H'.
      apply pbind_ok_inv in H' as (o3 & w & o4 & _ & H' & _).
      apply pbind_ok_inv in H' as (o5 & rnk & o6 & Hr & H & _).
      apply get_rank_shape in Hr as (Hr & _).
      apply join_panel_ok_inv in H as (-> & _). unfold weighted_score.
      now apply scored_rows.
    - unfold icir_weighted in H'.
      apply pbind_ok_inv in H' as (o3 & w & o4 & _ & H' & _).
      apply pbind_ok_inv in H' as (o5 & rnk & o6 & Hr & H & _).
      apply get_rank_shape in Hr as (Hr & _).
      apply join_panel_ok_inv in H as (-> & _). unfold weighted_score.
      now apply scored_rows.
    - unfold ret_weighted in H'.
      apply pbind_ok_inv in H' as (o3 & rnk & o4 & Hr & H' & _).
      apply pbind_ok_inv in H' as (o5 & w & o6 & _ & H & _).
      apply get_rank_shape in Hr as (Hr & _).
      apply join_panel_ok_inv in H as (-> & _). unfold weighted_score.
      now apply scored_rows. }
  split; [exact Hrows|]. rewrite Hrows. unfold sort_index. cbn [rows].
  apply sort_by_perm.
Qed.

Lemma score_keeps_rows_witness :
  exists out,
    score no_ic no_sqrt add_group [] no_context MoreExamples.panel_shuffled
          "equal_weighted" (DirBool false) 12 = ([], inr out)
    /\ map fst out = rows (sort_index MoreExamples.panel_shuffled)
    /\ Permutation (map fst out) (rows MoreExamples.panel_shuffled).
Proof.
  eexists. split; [reflexivity|].
  eapply (score_keeps_rows no_ic no_sqrt add_group [] no_context
            MoreExamples.panel_shuffled "equal_weighted" (DirBool false) 12 []);
    reflexivity.
Defined.

(** *** The equal-weighted score *)

Lemma sorted_by_fst {B} (l : list (row * B)) :
  StronglySorted (fun a b => key_leb a b = true) (map fst l) ->
  StronglySorted (fun a b : row * B => key_leb (fst a) (fst b) = true) l.
Proof.
  induction l as [|x l IH]; [constructor|]. cbn [map]. intros H.
  inversion H as [|? ? Hs Hx]; subst. constructor; [now apply IH|].
  rewrite Forall_map in Hx. exact Hx.
Qed.

Lemma weight_at_const (d : nat) (c : list fl) (ds : list nat) :
  In d ds -> weight_at d (map (fun d' => (d', c)) ds) = c.
Proof.
  unfold weight_at. induction ds as [|d' ds IH]; [contradiction|].
  cbn [map find fst]. destruct (d' =? d) eqn:E; [reflexivity|].
  intros [H|H]; [subst; rewrite Nat.eqb_refl in E; discriminate | now apply IH].
Qed.

Lemma products_ones {A} (ranks : list nat) (facs : list A) :
  length ranks = length facs ->
  products ranks (map (fun _ => Fin 1) facs)
  = map Fin (map (fun r => Q_of_nat r * 1)%Q ranks).
Proof.
  unfold products. revert facs; induction ranks as [|r ranks IH]; intros [|f facs] H;
    try discriminate; [reflexivity|].
  cbn [map combine fst snd fl_mul fl_of_nat]. f_equal. apply IH. now inversion H.
Qed.

Lemma Qsum_times_one (ranks : list nat) :
  (Qsum (map (fun r => Q_of_nat r * 1) ranks) == Qsum (map Q_of_nat ranks))%Q.
Proof.
  induction ranks as [|r ranks IH]; [reflexivity|].
  cbn [map]. rewrite !Qsum_cons, IH. ring.
Qed.

Lemma mean_of_ranks {A} (ranks : list nat) (facs : list A) :
  facs <> [] -> length ranks = length facs ->
  fl_eq (mean_skipna (products ranks (map (fun _ => Fin 1) facs)))
        (Fin (Qsum (map Q_of_nat ranks) / Q_of_nat (length facs))).
Proof.
  intros Hne Hlen. rewrite (products_ones ranks facs Hlen). unfold mean_skipna.
  set (qs := map (fun r => (Q_of_nat r * 1)%Q) ranks).
  assert (Hf : filter (fun x => negb (is_nan x)) (map Fin qs) = map Fin qs).
  { induction qs as [|x qs IH]; [reflexivity|]. cbn [map filter is_nan negb]. now rewrite IH. }
  rewrite Hf.
  assert (Hq : length (map Fin qs) = length facs)
    by (unfold qs; now rewrite !length_map).
  destruct (map Fin qs) as [|y ys] eqn:E.
  - destruct facs; [congruence | discriminate].
  - rewrite <- E in Hq |- *. unfold sum_skipna. rewrite sum_skipna_Fin, Hq.
    unfold fl_of_nat. cbn [fl_div].
    assert (Hn : ~ (Q_of_nat (length facs) == 0)%Q).
    { destruct facs as [|f facs]; [congruence|]. cbn [length].
      pose proof (Q_of_nat_pos (length facs)). lra. }
    rewrite (Qis_zero_false _ Hn). cbn [fl_eq].
    change (fold_left Qplus qs 0%Q) with (Qsum qs). unfold qs.
    now rewrite Qsum_times_one.
Qed.

(** X19.  With one flag as the direction and at least one factor column
    the equal-weighted [score] prints nothing and fails in one case only:
    when the panel has a column named [score], the join of the scores to
    the panel raises [ValueError].  Otherwise it returns, and the score
    of every row is the arithmetic mean of the ranks of that row over the
    factors. *)
Theorem equal_weighted_is_mean_rank
  (ic : list cell -> list cell -> cell) (sqrtQ : Q -> Q)
  (ag : add_group_args -> panel -> list string) (fd : list (string * bool))
  (cw : panel -> list string -> direction_arg -> py (list (row * fl)))
  (p : panel) (b : bool) (score_window : nat) :
  factor_names_of p <> [] ->
  exists rnk,
    get_rank fd (sort_index p) (factor_names_of p) (DirBool b) = ret rnk
    /\ (mem "score" (columns p) = true ->
        score ic sqrtQ ag fd cw p "equal_weighted" (DirBool b) score_window
        = ([], inl join_overlap))
    /\ (mem "score" (columns p) = false ->
        exists out,
          score ic sqrtQ ag fd cw p "equal_weighted" (DirBool b) score_window
          = ([], inr out)
          /\ Forall2 (fun o rr =>
                        fst o = fst rr
                        /\ fl_eq (snd o)
                                 (Fin (Qsum (map Q_of_nat (snd rr))
                                       / Q_of_nat (length (factor_names_of p)))))
                     out (combine (rows (sort_index p)) rnk)).
Proof.
  intros Hf. set (facs := factor_names_of p) in *.
  set (rnk := rows_of 0 (length (rows (sort_index p)))
                (map (fun f => score_rank_column (negb b) (map r_date (rows (sort_index p)))
                                 (map (cell_at (columns (sort_index p)) f) (rows (sort_index p))))
                     facs)).
  assert (Er : get_rank fd (sort_index p) facs (DirBool b) = ret rnk)
    by apply get_rank_columns.
  destruct (get_rank_shape fd (sort_index p) facs (DirBool b) [] rnk Er) as (Hlen & Hcols).
  set (ds := dates_of (rows (sort_index p))).
  set (mean_of := fun rr : row * list nat =>
         (fst rr,
          mean_skipna (products (snd rr)
             (weight_at (r_date (fst rr))
                (map (fun d => (d, map (fun _ : string => Fin 1) facs)) ds))))).
  assert (Hscore : score ic sqrtQ ag fd cw p "equal_weighted" (DirBool b) score_window
                   = join_panel p (map mean_of (combine (rows (sort_index p)) rnk))).
  { assert (Ecf : check_factors p = ok facs).
    { unfold check_factors. fold facs. destruct facs; [congruence | reflexivity]. }
    unfold score. rewrite check_factors_sorted, Ecf, pbind_lift_ok. unfold dispatch.
    cbn [lookup find fst snd option_map String.eqb Ascii.eqb Bool.eqb].
    unfold equal_weighted. rewrite Er, pbind_ret.
    assert (Es : sort_by scored_leb (map mean_of (combine (rows (sort_index p)) rnk))
                 = map mean_of (combine (rows (sort_index p)) rnk)).
    { apply (sorted_sort_id scored_leb). apply sorted_by_fst.
      unfold mean_of. rewrite (map_fst_scored _ _ _ Hlen).
      unfold sort_index. cbn [rows].
      apply sort_by_sorted; [apply key_leb_total | apply key_leb_trans]. }
    fold ds. fold mean_of. rewrite Es.
    unfold join_panel. change (columns (sort_index p)) with (columns p).
    destruct (mem "score" (columns p)); reflexivity. }
  exists rnk. split; [exact Er|]. split.
  - intros Hs. rewrite Hscore. unfold join_panel. now rewrite Hs.
  - intros Hs. exists (map mean_of (combine (rows (sort_index p)) rnk)). split.
    + rewrite Hscore. unfold join_panel. now rewrite Hs.
    + assert (Hd : forall r, In r (rows (sort_index p)) -> In (r_date r) ds).
      { intros r Hin. apply dates_of_In. now exists r. }
      clear Er Hscore. clearbody rnk ds. revert Hd rnk Hlen Hcols.
      generalize (rows (sort_index p)) as rs.
      induction rs as [|r rs IH]; intros Hd [|rk rnk] Hlen Hcols;
        try discriminate; [constructor|].
      cbn [combine map]. inversion Hcols as [|? ? Hrk Hcols']; subst. constructor.
      * unfold mean_of. cbn [fst snd]. split; [reflexivity|].
        rewrite weight_at_const by (apply Hd; now left).
        apply mean_of_ranks; assumption.
      * apply IH; [intros r' Hr'; apply Hd; now right | now inversion Hlen | exact Hcols'].
Qed.

Lemma equal_weighted_is_mean_rank_witness :
  (exists rnk out,
     get_rank [] (sort_index MoreExamples.panel_shuffled)
              (factor_names_of MoreExamples.panel_shuffled) (DirBool false) = ret rnk
     /\ score no_ic no_sqrt add_group [] no_context MoreExamples.panel_shuffled
              "equal_weighted" (DirBool false) 12 = ([], inr out)
     /\ Forall2 (fun o rr =>
                   fst o = fst rr
                   /\ fl_eq (snd o)
                            (Fin (Qsum (map Q_of_nat (snd rr))
                                  / Q_of_nat (length (factor_names_of MoreExamples.panel_shuffled)))))
                out (combine (rows (sort_index MoreExamples.panel_shuffled)) rnk))
  /\ score no_ic no_sqrt add_group [] no_context MoreExamples.panel_with_score
           "equal_weighted" (DirBool false) 12
     = ([], inl join_overlap).
Proof.
  split.
  - destruct (equal_weighted_is_mean_rank no_ic no_sqrt add_group [] no_context
                MoreExamples.panel_shuffled false 12) as (rnk & Hr & _ & H).
    + vm_compute. discriminate.
    + destruct (H eq_refl) as (out & Hout & Hall).
      exists rnk, out. split; [exact Hr|]. split; [exact Hout | exact Hall].
  - destruct (equal_weighted_is_mean_rank no_ic no_sqrt add_group [] no_context
                MoreExamples.panel_with_score false 12) as (rnk & _ & H & _).
    + vm_compute. discriminate.
    + apply H. reflexivity.
Defined.

(** *** The IC weights *)

Lemma member_le_sum (c : list fl) (a : Q) :
  Forall nonneg_or_nan c -> In (Fin a) c -> (a <= qsum_from 0 c)%Q.
Proof.
  induction 1 as [|x c Hx Hc IH]; [contradiction|].
  pose proof (qsum_nonneg c Hc) as Hs.
  intros [E|Hin].
  - subst x. cbn [qsum_from]. rewrite qsum_from_acc. lra.
  - specialize (IH Hin). destruct x as [v| | |]; cbn [qsum_from nonneg_or_nan] in *;
      try contradiction; [|exact IH].
    rewrite qsum_from_acc. lra.
Qed.

Lemma normalize_unit (c : list fl) :
  Forall nonneg_or_nan c ->
  Forall (fun x => x = NaN \/ exists a, x = Fin a /\ (0 <= a <= 1)%Q) (normalize c).
Proof.
  intros H.
  assert (E : sum_skipna c = Fin (qsum_from 0 c))
    by apply (sum_skipna_finite c 0 (nonneg_or_nan_finite c H)).
  unfold normalize. rewrite E. apply Forall_map. apply Forall_forall.
  intros x Hin. pose proof H as H'. rewrite Forall_forall in H'. specialize (H' x Hin).
  destruct x as [a| | |]; cbn [nonneg_or_nan] in H'; try contradiction; [|now left].
  pose proof (member_le_sum c a H Hin) as Hle.
  cbn [fl_div]. unfold Qis_zero.
  destruct (Qeq_bool (qsum_from 0 c) 0) eqn:Ez.
  - apply Qeq_bool_iff in Ez. assert (Ha : (a == 0)%Q) by lra.
    apply Qeq_bool_iff in Ha. rewrite Ha. now left.
  - right. eexists. split; [reflexivity|].
    assert (Hpos : (0 < qsum_from 0 c)%Q).
    { assert (Hn : ~ (qsum_from 0 c == 0)%Q).
      { intros Hq. apply Qeq_bool_iff in Hq. congruence. }
      pose proof (qsum_nonneg c H). lra. }
    split.
    + apply Qle_shift_div_l; [exact Hpos | lra].
    + apply Qle_shift_div_r; [exact Hpos | lra].
Qed.

(** X20.  The weights of the IC method are proper shares: whenever they
    are computed, each weight of each date is missing or a number between
    0 and 1, never negative and never infinite. *)
Theorem ic_weights_are_shares
  (ic : list cell -> list cell -> cell) (p : panel) (facs : list string)
  (score_window : nat) (W : list (nat * list fl)) (d : nat) (ws : list fl) :
  ic_weights ic p facs score_window = ok W ->
  In (d, ws) W ->
  Forall (fun x => x = NaN \/ exists a, x = Fin a /\ (0 <= a <= 1)%Q) ws.
Proof.
  unfold ic_weights. intros H Hin.
  apply bind_ok in H as (C & HC & H). inversion H; subst W; clear H.
  apply in_map_iff in Hin as ([d' c] & E & Hin). cbn [fst snd] in E.
  inversion E; subst. apply normalize_unit.
  eapply ic_contributions_nonneg; eassumption.
Qed.

Lemma ic_weights_are_shares_witness :
  exists W d ws,
    ic_weights MoreExamples.half_ic MoreExamples.panel_shuffled ["F1"] 12 = ok W
    /\ In (d, ws) W
    /\ Forall (fun x => x = NaN \/ exists a, x = Fin a /\ (0 <= a <= 1)%Q) ws.
Proof.
  eexists _, _, _. split; [vm_compute; reflexivity|].
  split; [left; reflexivity|].
  eapply (ic_weights_are_shares MoreExamples.half_ic MoreExamples.panel_shuffled ["F1"] 12);
    [vm_compute; reflexivity | left; reflexivity].
Defined.

(** *** One date *)

Lemma filter_all {A} (f : A -> bool) (l : list A) :
  Forall (fun x => f x = true) l -> filter f l = l.
Proof.
  induction 1 as [|x l Hx _ IH]; [reflexivity|]. cbn [filter]. now rewrite Hx, IH.
Qed.

Lemma groupby_apply_one_date {A B} (dflt : B) (f : list A -> list B)
  (dates : list nat) (col : list A) (d : nat) :
  length dates = length col ->
  Forall (eq d) dates ->
  length (f col) = length col ->
  groupby_apply dflt f dates col = f col.
Proof.
  intros Hlen Hd Hf. unfold groupby_apply.
  assert (Hcol : map snd (filter (fun e : nat * A => fst e =? d) (combine dates col)) = col).
  { clear Hf. revert col Hlen. induction Hd as [|a dates Ha _ IH]; intros [|c col] H;
      try discriminate; [reflexivity|].
    cbn [combine filter fst]. subst a. rewrite Nat.eqb_refl. cbn [map snd].
    f_equal. apply IH. now inversion H. }
  etransitivity; [|apply (map_nth_seq (f col) dflt)]. rewrite Hf.
  apply map_ext_in. intros i Hi. apply in_seq in Hi.
  assert (Hn : nth i dates 0 = d).
  { rewrite Forall_forall in Hd. symmetry. apply Hd. apply nth_In. lia. }
  rewrite Hn, Hcol. f_equal.
  rewrite filter_all.
  - rewrite length_firstn. lia.
  - apply Forall_forall. intros x Hx. apply Nat.eqb_eq.
    rewrite Forall_forall in Hd. apply Hd.
    rewrite <- (firstn_skipn i dates). apply in_or_app. now left.
Qed.

(** X21.  On a panel with a single date the two ways of counting the
    missing values coincide: [dynamic_score]'s rank column, which adds
    the count over the whole column, equals [score]'s, which adds it date
    by date. *)
Theorem single_date_ranks_agree (asc : bool) (dates : list nat) (vs : list cell)
  (d : nat) :
  length dates = length vs ->
  Forall (eq d) dates ->
  dynamic_rank_column asc dates vs = score_rank_column asc dates vs.
Proof.
  intros Hlen Hd. unfold dynamic_rank_column, score_rank_column.
  rewrite (groupby_apply_one_date None (rank_first asc) dates vs d Hlen Hd
             (rank_first_length asc vs)).
  rewrite (groupby_apply_one_date None add_nulls dates (rank_first asc vs) d);
    [reflexivity | | exact Hd | apply add_nulls_length].
  now rewrite rank_first_length.
Qed.

Lemma single_date_ranks_agree_witness :
  dynamic_rank_column false [3; 3; 3] [Some 1%Q; None; Some 2%Q]
  = score_rank_column false [3; 3; 3] [Some 1%Q; None; Some 2%Q].
Proof.
  apply (single_date_ranks_agree false [3; 3; 3] [Some 1%Q; None; Some 2%Q] 3).
  - reflexivity.
  - repeat constructor.
Defined.

End ScoreFacts.

(** ** What neutralization keeps *)

Module NeutralInvariants.
Import Util Examples MonadFacts.

Lemma reindex_same_missing (c : list cell) (resid : list Q) :
  length resid = length (valid c) ->
  Forall2 (fun a b : cell => a = None <-> b = None) c (reindex c resid).
Proof.
  revert resid; induction c as [|[x|] c IH]; intros resid H; cbn [reindex].
  - constructor.
  - destruct resid as [|r rs]; [discriminate|].
    constructor; [split; discriminate|]. apply IH. now inversion H.
  - constructor; [tauto|]. now apply IH.
Qed.

Lemma same_missing_refl (c : list cell) :
  Forall2 (fun a b : cell => a = None <-> b = None) c c.
Proof. induction c; constructor; tauto. Qed.

Lemma update_col_same_missing (orig new : list cell) :
  Forall2 (fun a b : cell => a = None <-> b = None) orig new ->
  Forall2 (fun a b : cell => a = None <-> b = None) orig (update_col orig new).
Proof.
  unfold update_col. induction 1 as [|a b orig new Hab _ IH]; [constructor|].
  cbn [combine map fst snd]. constructor; [|exact IH].
  destruct b as [y|]; [exact Hab | tauto].
Qed.

Lemma update_col_self (c : list cell) : update_col c c = c.
Proof.
  unfold update_col. induction c as [|a c IH]; [reflexivity|].
  cbn [combine map fst snd]. rewrite IH. now destruct a.
Qed.

(** The outcomes of a worker on a column that the frame has. *)
Lemma worker_cases (smf : string -> frame -> result (list Q))
  (col formula : string) (df : frame) (c : list cell) :
  column col df = ok c ->
  (__single_neutral smf col formula df = ok None
   /\ mem col reserved_neutral = false /\ count_nan c = length (f_index df))
  \/ (exists c',
        __single_neutral smf col formula df = ok (Some (col, c'))
        /\ Forall2 (fun a b : cell => a = None <-> b = None) c c'
        /\ (mem col reserved_neutral = true -> c' = c)
        /\ (mem col reserved_neutral = false -> count_nan c <> length (f_index df))).
Proof.
  intros Hc. unfold __single_neutral, try_neutral. rewrite Hc. cbn [bind ok].
  destruct (mem col reserved_neutral) eqn:Er; cbn [negb].
  - right. exists c. repeat split; auto using same_missing_refl. discriminate.
  - destruct (count_nan c =? length (f_index df)) eqn:En; cbn [negb].
    + left. apply Nat.eqb_eq in En. auto.
    + apply Nat.eqb_neq in En. right.
      destruct (smf (replace_Y formula col) (fillna0 (dropna_rows c df))) as [e|resid];
        cbn [bind].
      * exists c. repeat split; auto using same_missing_refl.
      * destruct (length resid =? length (valid c)) eqn:El.
        -- apply Nat.eqb_eq in El. exists (reindex c resid).
           repeat split; auto using reindex_same_missing. discriminate.
        -- exists c. repeat split; auto using same_missing_refl.
Qed.

(** X22.  A worker never lets an exception of the regression out: on a
    column that the frame has, [__single_neutral] returns, and what it
    returns is [None] exactly when the column is a target that is
    entirely missing; otherwise it is a column of the same name with
    values at the same rows, and a column of ret, cap or
    benchmark_returns is returned as it is. *)
Theorem single_neutral_worker_returns (smf : string -> frame -> result (list Q))
  (col formula : string) (df : frame) (c : list cell) :
  column col df = ok c ->
  exists r,
    __single_neutral smf col formula df = ok r
    /\ (r = None
        <-> mem col reserved_neutral = false /\ count_nan c = length (f_index df))
    /\ (forall nc, r = Some nc ->
          fst nc = col
          /\ Forall2 (fun a b : cell => a = None <-> b = None) c (snd nc)
          /\ (mem col reserved_neutral = true -> snd nc = c)).
Proof.
  intros Hc.
  destruct (worker_cases smf col formula df c Hc)
    as [(H & Hr & Hn)|(c' & H & Hs & Hres & Hnot)].
  - exists None. split; [exact H|]. split; [tauto|]. discriminate.
  - exists (Some (col, c')). split; [exact H|]. split.
    + split; [discriminate|]. intros (Hr & Hn). exfalso. now apply Hnot.
    + intros nc E. inversion E; subst nc. cbn [fst snd]. auto.
Qed.

Lemma single_neutral_worker_returns_witness :
  exists r,
    __single_neutral MoreExamples.exact_fit "M1" "Y~x1" MoreExamples.frame_partly_missing
    = ok r
    /\ r = Some ("M1", [Some 0%Q; None; Some 0%Q]).
Proof.
  destruct (single_neutral_worker_returns MoreExamples.exact_fit "M1" "Y~x1"
              MoreExamples.frame_partly_missing [q 3; None; q 5] eq_refl)
    as (r & H & _).
  exists r. split; [exact H|].
  vm_compute in H. now inversion H.
Defined.

Lemma lookup_NoDup {A} (k : string) (v : A) (l : list (string * A)) :
  NoDup (map fst l) -> In (k, v) l -> lookup k l = Some v.
Proof.
  unfold lookup. induction l as [|[k' v'] l IH]; [contradiction|].
  cbn [map fst find]. intros Hnd Hin. inversion Hnd as [|? ? Hnot Hnd']; subst.
  destruct Hin as [E|Hin].
  - inversion E; subst. now rewrite String.eqb_refl.
  - destruct (String.eqb k' k) eqn:Ek.
    + apply String.eqb_eq in Ek. subst k'. exfalso. apply Hnot.
      apply in_map_iff. now exists (k, v).
    + now apply IH.
Qed.

Lemma lookup_In {A} (k : string) (v : A) (l : list (string * A)) :
  lookup k l = Some v -> In (k, v) l.
Proof.
  unfold lookup. destruct (find (fun c => String.eqb (fst c) k) l) as [[k' v']|] eqn:E;
    [|discriminate].
  cbn [option_map snd]. intros H. inversion H; subst v'.
  apply find_some in E as (Hin & Ek). cbn [fst] in Ek.
  apply String.eqb_eq in Ek. now subst k'.
Qed.

Lemma map_fst_combine {A B} (xs : list A) (ys : list B) :
  length xs = length ys -> map fst (combine xs ys) = xs.
Proof.
  revert ys; induction xs as [|x xs IH]; intros [|y ys] H; try discriminate;
    [reflexivity|].
  cbn [combine map fst]. f_equal. apply IH. now inversion H.
Qed.

Lemma in_combine_exists {A B} (xs : list A) (ys : list B) (x : A) :
  length xs = length ys -> In x xs -> exists y, In (x, y) (combine xs ys).
Proof.
  revert ys; induction xs as [|x' xs IH]; intros [|y ys] H Hin; try discriminate;
    [contradiction|].
  destruct Hin as [->|Hin].
  - exists y. now left.
  - destruct (IH ys) as (y' & Hy); [now inversion H | exact Hin|].
    exists y'. now right.
Qed.

Lemma mapM_total {A B} (f : A -> result B) (l : list A) :
  (forall a, In a l -> exists b, f a = ok b) -> exists bs, mapM f l = ok bs.
Proof.
  induction l as [|a l IH]; intros H; [now exists []|].
  destruct (H a) as (b & Hb); [now left|].
  destruct IH as (bs & Hbs); [intros x Hx; apply H; now right|].
  exists (b :: bs). cbn [mapM]. rewrite Hb. cbn [bind]. rewrite Hbs. reflexivity.
Qed.

Lemma renamed_length (cols : list string) : length (renamed cols) = length cols.
Proof. unfold renamed. apply length_map. Qed.

Lemma forall2_combine {A} (R : list cell -> string * list cell -> Prop)
  (g : string * list cell -> string * list cell)
  (names : list string) (l : list (A * list cell)) :
  length names = length l ->
  (forall x, In x (combine names (map snd l)) -> R (snd x) (g x)) ->
  Forall2 (fun nc0 nc => R (snd nc0) nc) l (map g (combine names (map snd l))).
Proof.
  revert names; induction l as [|nc0 l IH]; intros [|n names] H HR; try discriminate;
    [constructor|].
  cbn [map combine]. constructor.
  - apply (HR (n, snd nc0)). now left.
  - apply IH; [now inversion H|]. intros x Hx. apply HR. now right.
Qed.

(** X23.  [single_neutral] on a cross-section whose new column names are
    distinct.  It lets no exception of a regression out: it fails only
    with one of the two [ValueError]s of [pd.concat], when there is no
    target column or when every worker returned [None], which needs every
    target to be outside ret, cap and benchmark_returns.  When it
    returns, the index is the input's, the columns carry the new names in
    the input's order, every column has values exactly at the rows where
    the input has values, and the columns named ret, cap and
    benchmark_returns are the input's. *)
Theorem single_neutral_outcomes (smf : string -> frame -> result (list Q))
  (df0 : frame) :
  NoDup (renamed (map fst (f_cols df0))) ->
  match single_neutral smf df0 with
  | inr df =>
      f_index df = f_index df0
      /\ map fst (f_cols df) = renamed (map fst (f_cols df0))
      /\ Forall2 (fun nc0 nc =>
                    (mem (fst nc) reserved_neutral = true -> snd nc = snd nc0)
                    /\ Forall2 (fun a b : cell => a = None <-> b = None)
                               (snd nc0) (snd nc))
                 (f_cols df0) (f_cols df)
  | inl e =>
      (e = ValueError "No objects to concatenate"
       /\ field_y (map fst (f_cols df0)) = [])
      \/ (e = ValueError "All objects passed were None"
          /\ field_y (map fst (f_cols df0)) <> []
          /\ Forall (fun col => mem col reserved_neutral = false)
                    (field_y (map fst (f_cols df0))))
  end.
Proof.
  intros Hnd. unfold single_neutral.
  set (cols := map fst (f_cols df0)) in *.
  set (names := renamed cols) in *.
  set (cells := map snd (f_cols df0)).
  set (dfr := mk_frame (f_index df0) (combine names cells)).
  set (formula := formula_of cols).
  assert (Hlen : length names = length cells).
  { unfold names, cells, cols. now rewrite renamed_length, !length_map. }
  assert (Hnames : map fst (f_cols dfr) = names) by (apply map_fst_combine; exact Hlen).
  assert (Hcol : forall n c, In (n, c) (combine names cells) -> column n dfr = ok c).
  { intros n c Hin. unfold column.
    rewrite (lookup_NoDup n c (f_cols dfr)); [reflexivity | | exact Hin].
    rewrite Hnames. exact Hnd. }
  assert (Hy : forall col, In col (field_y cols) -> exists c, column col dfr = ok c).
  { intros col Hin. unfold field_y in Hin. apply filter_In in Hin as (Hin & _).
    destruct (in_combine_exists names cells col Hlen Hin) as (c & Hc).
    exists c. now apply Hcol. }
  destruct (mapM_total (fun col => __single_neutral smf col formula dfr) (field_y cols))
    as (res & Hres).
  { intros col Hin. destruct (Hy col Hin) as (c & Hc).
    destruct (worker_cases smf col formula dfr c Hc) as [(H & _)|(c' & H & _)];
      eexists; exact H. }
  rewrite Hres. cbn [bind ok].
  assert (Hreslen : length res = length (field_y cols)) by (eapply mapM_length; exact Hres).
  unfold pd_concat_axis1.
  destruct res as [|r0 res'] eqn:Eres.
  - cbn [bind raise]. left. split; [reflexivity|].
    destruct (field_y cols); [reflexivity | discriminate].
  - set (other := flat_map (fun o : option (string * list cell) =>
                              match o with Some c => [c] | None => [] end) (r0 :: res')).
    cbn [bind]. cbv iota. fold other.
    destruct other as [|o1 other'] eqn:Eother.
    + cbn [bind raise]. right. split; [reflexivity|]. split.
      * intros E. rewrite E in Hreslen. discriminate.
      * apply Forall_forall. intros col Hin.
        destruct (mapM_In_inv _ _ _ col Hres Hin) as (r & Hr & Hrin).
        destruct r as [nc|].
        -- exfalso. assert (Hnc : In nc other).
           { apply in_flat_map. exists (Some nc). split; [exact Hrin | now left]. }
           rewrite Eother in Hnc. destruct Hnc.
        -- destruct (Hy col Hin) as (c & Hc).
           destruct (worker_cases smf col formula dfr c Hc) as [(_ & H & _)|(c' & H & _)];
             [exact H | rewrite Hr in H; unfold ok in H; discriminate H].
    + cbn [bind ok]. rewrite <- Eother. clear Eother o1 other'.
      unfold update. cbn [f_index f_cols].
      split; [reflexivity|]. split.
      * unfold dfr. cbn [f_cols]. rewrite map_map.
        rewrite <- (map_fst_combine names cells Hlen) at 2.
        apply map_ext. intros [n c]. cbn [fst]. now destruct (lookup n other).
      * unfold dfr. cbn [f_cols]. unfold cells.
        apply (forall2_combine
                 (fun orig nc =>
                    (mem (fst nc) reserved_neutral = true -> snd nc = orig)
                    /\ Forall2 (fun a b : cell => a = None <-> b = None) orig (snd nc))).
        { unfold names, cols. now rewrite renamed_length, length_map. }
        intros [n orig] Hin. cbn [fst snd].
        destruct (lookup n other) as [new|] eqn:El; cbn [fst snd];
          [|split; [reflexivity | apply same_missing_refl]].
        apply lookup_In in El. unfold other in El.
        apply in_flat_map in El as (r & Hrin & Hr).
        destruct r as [nc|]; [|destruct Hr]. destruct Hr as [Hr|[]]. subst nc.
        destruct (mapM_In _ _ _ _ Hres Hrin) as (col & Hcin & Hw).
        destruct (Hy col Hcin) as (c & Hc).
        destruct (worker_cases smf col formula dfr c Hc)
          as [(H & _)|(c' & H & Hs & Hresv & _)];
          [rewrite Hw in H; unfold ok in H; discriminate H|].
        rewrite H in Hw. inversion Hw; subst col c'.
        rewrite (Hcol n orig Hin) in Hc. inversion Hc; subst c.
        split.
        -- intros Hm. rewrite (Hresv Hm). apply update_col_self.
        -- now apply update_col_same_missing.
Qed.

Lemma single_neutral_outcomes_witness :
  exists df,
    single_neutral MoreExamples.exact_fit MoreExamples.frame_partly_missing = ok df
    /\ f_cols df = [("M1", [Some 0%Q; None; Some 0%Q]);
                    ("x1", [Some 1%Q; Some 0%Q; Some 1%Q]);
                    ("ret", [Some 4%Q; Some 5%Q; None])].
Proof.
  pose proof (single_neutral_outcomes MoreExamples.exact_fit
                MoreExamples.frame_partly_missing) as H.
  assert (Hnd : NoDup (renamed (map fst (f_cols MoreExamples.frame_partly_missing)))).
  { repeat constructor; cbn; intuition discriminate. }
  specialize (H Hnd).
  destruct (single_neutral MoreExamples.exact_fit MoreExamples.frame_partly_missing)
    as [e|df] eqn:E.
  - vm_compute in E. discriminate E.
  - exists df. split; [reflexivity|]. vm_compute in E. now inversion E.
Defined.

(** *** The regressor that stands for [cap] *)

Lemma str_of_nat_inj (n m : nat) : str_of_nat n = str_of_nat m -> n = m.
Proof.
  unfold str_of_nat. intros H.
  apply DecimalNat.Unsigned.to_uint_inj.
  assert (E : Some (Nat.to_uint n) = Some (Nat.to_uint m))
    by (rewrite <- !NilEmpty.usu; now rewrite H).
  now inversion E.
Qed.

Lemma combine_snd_unique {A B} (xs : list A) (ys : list B) (a b : A) (y : B) :
  NoDup ys -> In (a, y) (combine xs ys) -> In (b, y) (combine xs ys) -> a = b.
Proof.
  revert ys; induction xs as [|x xs IH]; intros [|y' ys] Hnd Ha Hb; try contradiction.
  inversion Hnd as [|? ? Hnot Hnd']; subst. cbn [combine] in Ha, Hb.
  destruct Ha as [Ea|Ha], Hb as [Eb|Hb].
  - inversion Ea; inversion Eb; congruence.
  - inversion Ea; subst. exfalso. apply Hnot. eapply in_combine_r. exact Hb.
  - inversion Eb; subst. exfalso. apply Hnot. eapply in_combine_r. exact Ha.
  - eapply IH; eassumption.
Qed.

Lemma labels_NoDup (s n : nat) :
  NoDup (map (fun i => ("x" ++ str_of_nat i)%string) (seq s n)).
Proof.
  revert s; induction n as [|n IH]; intros s; [constructor|].
  cbn [seq map]. constructor; [|apply IH].
  intros H. apply in_map_iff in H as (j & E & Hj).
  inversion E as [E']. apply str_of_nat_inj in E'. apply in_seq in Hj. lia.
Qed.

Lemma label_in_dic (cols : list string) (col x : string) :
  In (col, x) (field_dic cols) -> first_char x = "x".
Proof.
  unfold field_dic. intros H. apply in_combine_r in H.
  apply in_map_iff in H as (i & <- & _). reflexivity.
Qed.

(** X24.  When a cross-section with distinct column names has a [cap]
    column, the formula built by [single_neutral] names a regressor that
    no column of the renamed frame carries: [cap] receives a name x_k in
    [field_dic], the formula lists it, and the column itself keeps the
    name cap. *)
Theorem cap_regressor_is_no_column (cols : list string) :
  NoDup cols ->
  In "cap" cols ->
  exists x,
    lookup "cap" (field_dic cols) = Some x
    /\ In x (map snd (field_dic cols))
    /\ formula_of cols = ("Y~" ++ join "+" (map snd (field_dic cols)))%string
    /\ ~ In x (renamed cols)
    /\ In "cap" (renamed cols).
Proof.
  intros Hnd Hcap.
  assert (Hfx : In "cap" (field_x cols)).
  { unfold field_x. apply filter_In. split; [exact Hcap | reflexivity]. }
  assert (Hndx : NoDup (field_x cols)) by (unfold field_x; now apply NoDup_filter).
  assert (Hlen : length (field_x cols)
                 = length (map (fun i => ("x" ++ str_of_nat i)%string)
                               (seq 1 (length (field_x cols)))))
    by now rewrite length_map, length_seq.
  destruct (in_combine_exists _ _ "cap" Hlen Hfx) as (x & Hx). fold (field_dic cols) in Hx.
  assert (Hdic : NoDup (map fst (field_dic cols))).
  { unfold field_dic. now rewrite (map_fst_combine _ _ Hlen). }
  exists x. split; [now apply lookup_NoDup|]. split.
  { apply in_map_iff. now exists ("cap", x). }
  split; [reflexivity|]. split.
  - unfold renamed. intros Hin. apply in_map_iff in Hin as (col & E & Hcol).
    destruct (mem col (field_x cols) && negb (mem col ["cap"])) eqn:Eb.
    + apply andb_true_iff in Eb as (Eb1 & Eb2).
      assert (Hne : col <> "cap").
      { intros ->. discriminate Eb2. }
      assert (Hcx : In col (field_x cols)).
      { unfold mem in Eb1. apply existsb_exists in Eb1 as (z & Hz & Ez).
        apply String.eqb_eq in Ez. now subst. }
      destruct (in_combine_exists _ _ col Hlen Hcx) as (x' & Hx').
      fold (field_dic cols) in Hx'.
      rewrite (lookup_NoDup col x' (field_dic cols) Hdic Hx') in E. subst x'.
      apply Hne. unfold field_dic in Hx, Hx'.
      eapply combine_snd_unique; [apply labels_NoDup | exact Hx' | exact Hx].
    + subst col. apply label_in_dic in Hx.
      apply andb_false_iff in Eb as [Eb|Eb].
      * assert (Hk : mem (first_char x) ["M"; "r"; "b"] = true).
        { unfold field_x in Eb. destruct (mem (first_char x) ["M"; "r"; "b"]) eqn:Em;
            [reflexivity|]. exfalso.
          assert (In x (filter (fun x0 => negb (mem (first_char x0) ["M"; "r"; "b"])) cols))
            by (apply filter_In; rewrite Em; now split).
          unfold mem in Eb at 1.
          assert (existsb (String.eqb x)
                    (filter (fun x0 => negb (mem (first_char x0) ["M"; "r"; "b"])) cols) = true)
            by (apply existsb_exists; exists x; split; [assumption | apply String.eqb_refl]).
          congruence. }
        rewrite Hx in Hk. discriminate Hk.
      * apply negb_false_iff in Eb. unfold mem in Eb. cbn [existsb] in Eb.
        rewrite orb_false_r in Eb. apply String.eqb_eq in Eb. subst x. discriminate Hx.
  - unfold renamed. apply in_map_iff. exists "cap". split; [|exact Hcap].
    replace (mem "cap" ["cap"]) with true by reflexivity. cbn [negb].
    now rewrite andb_false_r.
Qed.

Lemma cap_regressor_is_no_column_witness :
  exists x,
    lookup "cap" (field_dic ["M1"; "ind"; "cap"; "ret"]) = Some x
    /\ In x (map snd (field_dic ["M1"; "ind"; "cap"; "ret"]))
    /\ formula_of ["M1"; "ind"; "cap"; "ret"]
       = ("Y~" ++ join "+" (map snd (field_dic ["M1"; "ind"; "cap"; "ret"])))%string
    /\ ~ In x (renamed ["M1"; "ind"; "cap"; "ret"])
    /\ In "cap" (renamed ["M1"; "ind"; "cap"; "ret"]).
Proof.
  apply cap_regressor_is_no_column.
  - repeat constructor; cbn; intuition discriminate.
  - cbn. tauto.
Defined.

End NeutralInvariants.

(** ** Groups of equal size *)

Module GroupFacts.
Import Factors Examples Tools RankCompleteFacts.

Lemma positions_partition (s : nat) (g : list cell) :
  Permutation
    (map fst (positions_from s g)
     ++ flat_map (fun iv : nat * cell => match snd iv with
                                         | None => [fst iv]
                                         | Some _ => []
                                         end)
                 (combine (seq s (length g)) g))
    (seq s (length g)).
Proof.
  revert s; induction g as [|c g IH]; intros s; [constructor|].
  change (positions_from s (c :: g))
    with ((match c with Some v => [(s, v)] | None => [] end) ++ positions_from (S s) g).
  cbn [length seq combine flat_map snd fst].
  destruct c as [v|]; cbn [app map fst].
  - constructor. apply IH.
  - symmetry. apply Permutation_cons_app. symmetry. apply IH.
Qed.

(** The ranks that [na_option='bottom'] gives are 1, ..., n, each once. *)
Lemma rank_bottom_perm (asc : bool) (data : list cell) :
  Permutation (rank_bottom asc data) (seq 1 (length data)).
Proof.
  unfold rank_bottom.
  set (order := argsort asc data ++ _).
  assert (Ho : Permutation order (seq 0 (length data))).
  { unfold order. rewrite argsort_perm. apply positions_partition. }
  assert (Hnd : NoDup order).
  { eapply Permutation_NoDup; [symmetry; exact Ho | apply seq_NoDup]. }
  rewrite <- Ho.
  rewrite <- (map_map (fun i => position i order) S).
  rewrite (position_self order Hnd), seq_shift.
  now rewrite (Permutation_length Ho), length_seq.
Qed.

Lemma sum_bucket_sizes (n k : nat) : k <> 0 -> list_sum (bucket_sizes n k) = n.
Proof.
  intros Hk. unfold bucket_sizes.
  assert (H : forall a m j,
             list_sum (map (fun i => a + (if i <? m then 1 else 0)) (seq 0 j))
             = j * a + Nat.min m j).
  { intros a m j. induction j as [|j IH]; [cbn; lia|].
    rewrite seq_S, map_app, list_sum_app, IH. cbn [map list_sum].
    change (0 + j) with j.
    destruct (j <? m) eqn:E; [apply Nat.ltb_lt in E | apply Nat.ltb_ge in E];
      [change (list_sum [a + 1]) with (a + 1 + 0) | change (list_sum [a + 0]) with (a + 0 + 0)];
      lia. }
  rewrite H. pose proof (Nat.mod_upper_bound n k Hk).
  pose proof (Nat.div_mod_eq n k). lia.
Qed.

Lemma bucket_of_bound (sizes : list nat) (r : nat) :
  1 <= r <= list_sum sizes -> bucket_of sizes r < length sizes.
Proof.
  revert r; induction sizes as [|s sizes IH]; intros r H.
  - change (list_sum []) with 0 in H. lia.
  - change (list_sum (s :: sizes)) with (s + list_sum sizes) in H.
    cbn [bucket_of length]. destruct (r <=? s) eqn:E; [apply Nat.lt_0_succ|].
    apply Nat.leb_gt in E. apply -> Nat.succ_lt_mono. apply IH. lia.
Qed.

Lemma bucket_of_mono (sizes : list nat) (r1 r2 : nat) :
  r1 <= r2 -> bucket_of sizes r1 <= bucket_of sizes r2.
Proof.
  revert r1 r2; induction sizes as [|s sizes IH]; intros r1 r2 H; [reflexivity|].
  cbn [bucket_of]. destruct (r1 <=? s) eqn:E1; [lia|].
  apply Nat.leb_gt in E1. destruct (r2 <=? s) eqn:E2.
  - apply Nat.leb_le in E2. lia.
  - apply le_n_S. apply IH. lia.
Qed.

Lemma count_occ_map_S (l : list nat) (g : nat) :
  count_occ Nat.eq_dec (map S l) (S g) = count_occ Nat.eq_dec l g
  /\ count_occ Nat.eq_dec (map S l) 0 = 0.
Proof.
  induction l as [|x l (IH1 & IH2)]; [split; reflexivity|].
  cbn [map count_occ]. rewrite IH1, IH2.
  split.
  - destruct (Nat.eq_dec (S x) (S g)), (Nat.eq_dec x g); try lia.
  - destruct (Nat.eq_dec (S x) 0); lia.
Qed.

Lemma count_occ_zeros (l : list nat) (g : nat) :
  count_occ Nat.eq_dec (map (fun _ => 0) l) g = if g =? 0 then length l else 0.
Proof.
  induction l as [|x l IH]; [now destruct (g =? 0)|].
  cbn [map count_occ length]. rewrite IH.
  destruct (Nat.eq_dec 0 g) as [<-|Hg]; [reflexivity|].
  destruct g; [congruence | reflexivity].
Qed.

Lemma count_bucket (sizes : list nat) (g : nat) :
  count_occ Nat.eq_dec (map (bucket_of sizes) (seq 1 (list_sum sizes))) g
  = nth g sizes 0.
Proof.
  revert g; induction sizes as [|s sizes IH]; intros g; [now destruct g|].
  change (list_sum (s :: sizes)) with (s + list_sum sizes). rewrite seq_app, map_app, count_occ_app.
  assert (E1 : map (bucket_of (s :: sizes)) (seq 1 s) = map (fun _ => 0) (seq 1 s)).
  { apply map_ext_in. intros r Hr. apply in_seq in Hr. cbn [bucket_of].
    destruct (r <=? s) eqn:E; [reflexivity|]. apply Nat.leb_gt in E. lia. }
  assert (E2 : map (bucket_of (s :: sizes)) (seq (1 + s) (list_sum sizes))
               = map S (map (bucket_of sizes) (seq 1 (list_sum sizes)))).
  { rewrite map_map. replace (1 + s) with (s + 1) by lia.
    assert (Es : forall len a, seq (s + a) len = map (fun r => s + r) (seq a len)).
    { induction len as [|len IHl]; intros a; [reflexivity|].
      cbn [seq map]. f_equal. rewrite <- IHl. f_equal. lia. }
    rewrite Es, !map_map. apply map_ext_in. intros r Hr. apply in_seq in Hr.
    cbn [bucket_of]. destruct (s + r <=? s) eqn:E.
    - apply Nat.leb_le in E. lia.
    - f_equal. f_equal. lia. }
  rewrite E1, E2, count_occ_zeros, length_seq.
  destruct (count_occ_map_S (map (bucket_of sizes) (seq 1 (list_sum sizes))) (pred g))
    as (HS & H0).
  destruct g as [|g]; cbn [Nat.eqb nth].
  - rewrite H0. lia.
  - cbn [pred] in HS. rewrite HS, IH. reflexivity.
Qed.

Lemma combine_map_combine {A B C} (G : A * B -> C) (xs : list A) (ys : list B) :
  combine xs (map G (combine xs ys))
  = map (fun xy => (fst xy, G xy)) (combine xs ys).
Proof.
  revert ys; induction xs as [|x xs IH]; intros [|y ys]; try reflexivity.
  cbn [combine map fst]. f_equal. apply IH.
Qed.

(** The loop over the groups, from any start: a rank within the part
    that is left receives the name of its bucket, the other ranks keep
    what they have. *)
Lemma loop_closed (idx : list nat) (sizes : list nat) :
  forall (grp0 start : nat) (groups : list (option string)),
  fst (fold_left
         (fun st ge => (set_group idx (fst st) (snd st) (snd ge) (fst ge), snd ge))
         (combine (seq grp0 (length (cumsum_from start sizes))) (cumsum_from start sizes))
         (groups, start))
  = match sizes with
    | [] => groups
    | _ =>
        map (fun ig =>
               if (start <? fst ig) && (fst ig <=? start + list_sum sizes)
               then Some (group_name (grp0 + bucket_of sizes (fst ig - start)))
               else snd ig)
            (combine idx groups)
    end.
Proof.
  induction sizes as [|s sizes IH]; intros grp0 start groups; [reflexivity|].
  cbn [cumsum_from length seq combine fold_left fst snd].
  rewrite (IH (S grp0) (start + s)).
  destruct sizes as [|s' sizes'].
  - unfold set_group. apply map_ext. intros [r g]. cbn [fst snd bucket_of].
    change (list_sum [s]) with (s + 0).
    replace (start + (s + 0)) with (start + s) by lia.
    destruct ((start <? r) && (r <=? start + s)) eqn:E; [|reflexivity].
    apply andb_true_iff in E as (E1 & E2).
    apply Nat.ltb_lt in E1. apply Nat.leb_le in E2.
    replace (r - start <=? s) with true by (symmetry; apply Nat.leb_le; lia).
    now rewrite Nat.add_0_r.
  - unfold set_group at 1. rewrite combine_map_combine, map_map.
    apply map_ext. intros [r g]. cbn [fst snd].
    set (rest := s' :: sizes'). change (list_sum (s :: rest)) with (s + list_sum rest).
    change (bucket_of (s :: rest) (r - start))
      with (if r - start <=? s then 0 else S (bucket_of rest (r - start - s))).
    destruct (Nat.ltb_spec start r) as [E1|E1];
      destruct (Nat.leb_spec r (start + s)) as [E2|E2];
      destruct (Nat.ltb_spec (start + s) r) as [E3|E3];
      destruct (Nat.leb_spec r (start + s + list_sum rest)) as [E4|E4];
      destruct (Nat.leb_spec r (start + (s + list_sum rest))) as [E5|E5];
      destruct (Nat.leb_spec (r - start) s) as [E6|E6];
      cbn [andb]; try lia; try reflexivity.
    + now rewrite Nat.add_0_r.
    + do 2 f_equal. replace (r - (start + s)) with (r - start - s) by lia. lia.
Qed.

(** X26.  [cut_group] with at least one group gives every row the name
    of the bucket of its rank, no row is left without a group, and the
    groups are as even as can be: group g has [n // k] rows and one more
    when g is below [n mod k]; a row with a better rank is never in a
    later group. *)
Theorem cut_group_balanced (data : list cell) (num_group : nat) (ascending : bool) :
  num_group <> 0 ->
  let n := length data in
  let sizes := bucket_sizes n num_group in
  let buckets := map (bucket_of sizes) (rank_bottom ascending data) in
  cut_group data num_group ascending = ok (map (fun b => Some (group_name b)) buckets)
  /\ Forall (fun b => b < num_group) buckets
  /\ (forall g, g < num_group ->
        count_occ Nat.eq_dec buckets g
        = n / num_group + (if g <? n mod num_group then 1 else 0))
  /\ (forall r1 r2, r1 <= r2 -> bucket_of sizes r1 <= bucket_of sizes r2).
Proof.
  intros Hk n sizes buckets.
  pose proof (rank_bottom_perm ascending data) as Hperm. fold n in Hperm.
  pose proof (sum_bucket_sizes n num_group Hk) as Hsum. fold sizes in Hsum.
  assert (Hlen : length sizes = num_group)
    by (unfold sizes, bucket_sizes; now rewrite length_map, length_seq).
  assert (Hr : Forall (fun r => 1 <= r <= n) (rank_bottom ascending data)).
  { eapply Permutation_Forall; [symmetry; exact Hperm|].
    apply Forall_forall. intros r Hin. apply in_seq in Hin. lia. }
  split; [|split; [|split]].
  - unfold cut_group. apply Nat.eqb_neq in Hk. rewrite Hk. fold n. fold sizes.
    f_equal. rewrite (loop_closed (rank_bottom ascending data) sizes 0 0).
    destruct sizes as [|s sizes'] eqn:Es; [apply Nat.eqb_neq in Hk; cbn in Hlen; lia|].
    unfold buckets. rewrite Hsum.
    clear Hperm. induction Hr as [|r idx Hr1 _ IH]; [reflexivity|].
    cbn [map combine fst snd]. f_equal; [|exact IH].
    replace (0 <? r) with true by (symmetry; apply Nat.ltb_lt; lia).
    replace (r <=? 0 + n) with true by (symmetry; apply Nat.leb_le; lia).
    cbn [andb Nat.add]. now rewrite Nat.sub_0_r.
  - unfold buckets. apply Forall_map. revert Hr. apply Forall_impl.
    intros r Hr. rewrite <- Hlen. apply bucket_of_bound. lia.
  - intros g Hg. unfold buckets.
    assert (Hc : Permutation (map (bucket_of sizes) (rank_bottom ascending data))
                             (map (bucket_of sizes) (seq 1 (list_sum sizes))))
      by (rewrite Hsum; now apply Permutation_map).
    rewrite (proj1 (Permutation_count_occ Nat.eq_dec _ _) Hc g), count_bucket.
    unfold sizes, bucket_sizes.
    rewrite (nth_indep _ 0 (n / num_group + (if 0 <? n mod num_group then 1 else 0)))
      by (now rewrite length_map, length_seq).
    rewrite (map_nth (fun i => n / num_group + (if i <? n mod num_group then 1 else 0))).
    now rewrite seq_nth.
  - intros r1 r2. apply bucket_of_mono.
Qed.

Lemma cut_group_balanced_witness :
  cut_group [Some 5%Q; None; Some 9%Q; Some 7%Q; Some 1%Q] 2 false
  = ok [Some "Q1"; Some "Q2"; Some "Q1"; Some "Q1"; Some "Q2"].
Proof.
  destruct (cut_group_balanced [Some 5%Q; None; Some 9%Q; Some 7%Q; Some 1%Q] 2 false)
    as (H & _); [discriminate|].
  rewrite H. reflexivity.
Defined.

End GroupFacts.

(** ** The rows that [regress] returns *)

Module RegressShape.
Import Factors Examples MonadFacts RegressFacts.

Lemma all_some_In (l : list cell) (xs : list Q) :
  all_some l = Some xs -> forall c, In c l -> c <> None.
Proof.
  revert xs; induction l as [|[x|] l IH]; intros xs H c Hin; [contradiction| |discriminate].
  cbn [all_some] in H. destruct (all_some l) as [xs'|]; [|discriminate].
  destruct Hin as [<-|Hin]; [discriminate|]. now apply (IH xs').
Qed.

(** X27.  The rows of a result of [regress] are rows of the panel, in
    index order and each at most once: they are the sorted rows that
    pass a test; and no row of the result has a missing factor value. *)
Theorem regress_keeps_index_order (ols : list (list Q * Q) -> result (Q * list Q))
  (p : panel) (method : string) (prints : list string) (out : list (row * Q)) :
  regress ols p method = (prints, inr out) ->
  (exists keep : row -> bool, map fst out = filter keep (rows (sort_index p)))
  /\ Forall (fun o => forall f, In f (factor_names_of p) ->
                                cell_at (columns p) f (fst o) <> None) out.
Proof.
  intros H. apply regress_ok in H. unfold common_regress in H.
  apply bind_ok in H as (params & _ & H). inversion H as [Hout]; clear H.
  clear Hout. cbn [sort_index columns rows].
  set (comb := combine_row (columns p) (factor_names_of p) (lagged params)).
  split.
  - exists (fun r => match comb r with [] => false | _ => true end).
    induction (sort_by key_leb (rows p)) as [|r rs IH]; [reflexivity|].
    cbn [flat_map filter]. rewrite map_app, IH. unfold comb at 1 3, combine_row.
    destruct (find_lag (r_date r) (r_code r) (lagged params)); [|reflexivity].
    destruct (all_some (map (fun f => cell_at (columns p) f r) (factor_names_of p)));
      reflexivity.
  - apply Forall_forall. intros o Hin f Hf.
    apply in_flat_map in Hin as (r & _ & Hin). unfold comb, combine_row in Hin.
    destruct (find_lag (r_date r) (r_code r) (lagged params)); [|destruct Hin].
    destruct (all_some (map (fun f => cell_at (columns p) f r) (factor_names_of p)))
      as [xs|] eqn:E; [|destruct Hin].
    destruct Hin as [<-|[]]. cbn [fst].
    apply (all_some_In _ _ E). apply in_map_iff. now exists f.
Qed.

Lemma regress_keeps_index_order_witness :
  exists out,
    regress ols_single_factor panel_two_fits "common_regress" = ([], inr out)
    /\ map fst out = [mk_row 2 "A" [q 0; q 0]; mk_row 2 "B" [q 1; q 3];
                      mk_row 2 "C" [q 2; q 0]]
    /\ Forall (fun o => forall f, In f (factor_names_of panel_two_fits) ->
                                  cell_at (columns panel_two_fits) f (fst o) <> None) out.
Proof.
  eexists. split; [vm_compute; reflexivity|]. split; [reflexivity|].
  eapply (regress_keeps_index_order ols_single_factor panel_two_fits "common_regress" []).
  vm_compute. reflexivity.
Defined.

End RegressShape.

(** ** Directions and the first date of the ICIR weights *)

Module DirectionFacts.
Import Factors Examples MonadFacts ScoreFacts.

(** X28.  A direction dictionary that gives every factor the flag [b],
    entries left out counting as [False], ranks as the flag [b] does, in
    [score] and in [dynamic_score]; the only difference is the warning,
    printed exactly when the dictionary has not as many entries as there
    are factors. *)
Theorem uniform_dict_is_flag (fd : list (string * bool)) (p : panel)
  (facs : list string) (d : list (string * bool)) (b : bool) :
  (forall f, In f facs -> dict_direction d f = b) ->
  get_rank fd p facs (DirDict d)
  = ((if length d =? length facs then [] else [direction_warning]),
     snd (get_rank fd p facs (DirBool b)))
  /\ dynamic_get_rank p facs (DirDict d)
     = ((if length d =? length facs then [] else [direction_warning]),
        snd (dynamic_get_rank p facs (DirBool b))).
Proof.
  intros H.
  assert (E : map (fun col => negb (dict_direction d col)) facs
              = map (fun _ => negb b) facs).
  { apply map_ext_in. intros f Hf. now rewrite (H f Hf). }
  unfold get_rank, dynamic_get_rank, ascending_flags. rewrite E.
  destruct (length d =? length facs); split; reflexivity.
Qed.

Lemma uniform_dict_is_flag_witness :
  get_rank [] (panel_abc (q 1) (q 2) (q 3)) ["F1"] (DirDict [])
  = ([direction_warning],
     snd (get_rank [] (panel_abc (q 1) (q 2) (q 3)) ["F1"] (DirBool false))).
Proof.
  apply (uniform_dict_is_flag [] (panel_abc (q 1) (q 2) (q 3)) ["F1"] [] false).
  intros f _. reflexivity.
Defined.

Lemma div_by_one (c : cell) :
  fl_eq (fl_div (fl_of_cell c) (fl_of_cell (Some 1%Q))) (fl_of_cell c).
Proof.
  destruct c as [a|]; cbn [fl_of_cell fl_div]; [|exact I].
  replace (Qis_zero 1) with false by reflexivity. cbn [fl_eq]. field.
Qed.

Lemma ratios_over_ones (row stds : list cell) :
  length stds = length row ->
  Forall2 fl_eq
    (map (fun m_s : cell * cell => fl_div (fl_of_cell (fst m_s)) (fl_of_cell (snd m_s)))
         (combine row (map (fun _ : cell => Some 1%Q) stds)))
    (map fl_of_cell row).
Proof.
  revert stds; induction row as [|c row IH]; intros [|s stds] H; try discriminate;
    [constructor|].
  cbn [map combine fst snd]. constructor; [apply div_by_one|].
  apply IH. now inversion H.
Qed.

(** X29.  On the first date the ICIR ratios are the rolling means of the
    absolute ICs themselves: the first row of the rolling standard
    deviation is set to 1, so that whenever both are computed the first
    row of the ICIR table equals the first row of the IC table. *)
Theorem icir_first_date_is_ic
  (ic : list cell -> list cell -> cell) (sqrtQ : Q -> Q) (p : panel)
  (facs : list string) (score_window : nat) (R C : list (nat * list fl)) :
  icir_ratios ic sqrtQ p facs score_window = ok R ->
  ic_contributions ic p facs score_window = ok C ->
  exists d r c R' C',
    R = (d, r) :: R' /\ C = (d, c) :: C' /\ Forall2 fl_eq r c.
Proof.
  unfold icir_ratios, ic_contributions. intros HR HC.
  destruct (get_ic ic p facs) as [e|t]; [discriminate|]. cbn [bind] in HR, HC.
  unfold rolling in HR, HC. destruct (score_window =? 0) eqn:Ew; [discriminate|].
  cbn [bind ok] in HR, HC.
  destruct t as [|[d0 ics] t]; [discriminate|].
  cbn [map length seq] in HR, HC.
  inversion HC; subst C; clear HC. inversion HR; subst R; clear HR.
  cbn [map combine fst snd].
  do 5 eexists. split; [reflexivity|]. split; [reflexivity|].
  apply ratios_over_ones. now rewrite !length_map.
Qed.

Lemma icir_first_date_is_ic_witness :
  exists d r c R' C',
    icir_ratios MoreExamples.half_ic MoreExamples.sqrt_01 MoreExamples.panel_shuffled
                ["F1"] 12 = ok ((d, r) :: R')
    /\ ic_contributions MoreExamples.half_ic MoreExamples.panel_shuffled ["F1"] 12
       = ok ((d, c) :: C')
    /\ Forall2 fl_eq r c.
Proof.
  destruct (icir_first_date_is_ic MoreExamples.half_ic MoreExamples.sqrt_01
              MoreExamples.panel_shuffled ["F1"] 12 _ _ eq_refl eq_refl)
    as (d & r & c & R' & C' & HR & HC & H).
  exists d, r, c, R', C'.
  split; [now rewrite <- HR|]. split; [now rewrite <- HC | exact H].
Defined.

End DirectionFacts.

(** ** Ascending against descending ranks *)

Module MirrorFacts.
Import Factors Examples SortFacts RankCompleteFacts RegressFacts OrderFacts.

Lemma StronglySorted_rev {A} (R : A -> A -> Prop) (l : list A) :
  StronglySorted R l -> StronglySorted (fun a b => R b a) (rev l).
Proof.
  induction 1 as [|a l Hs IH Ha]; [constructor|].
  cbn [rev]. apply StronglySorted_app; [exact IH | repeat constructor|].
  intros x y Hx [<-|[]]. rewrite Forall_forall in Ha. apply Ha. now apply in_rev.
Qed.

Lemma position_app_in (i : nat) (l1 l2 : list nat) :
  In i l1 -> position i (l1 ++ l2) = position i l1.
Proof.
  induction l1 as [|x l1 IH]; [contradiction|]. cbn [app position].
  destruct (x =? i) eqn:E; [reflexivity|].
  intros [H|H]; [subst; rewrite Nat.eqb_refl in E; discriminate|].
  now rewrite IH.
Qed.

Lemma position_app_notin (i : nat) (l1 l2 : list nat) :
  ~ In i l1 -> position i (l1 ++ l2) = length l1 + position i l2.
Proof.
  induction l1 as [|x l1 IH]; [reflexivity|]. cbn [app position length In].
  intros H. destruct (x =? i) eqn:E.
  - apply Nat.eqb_eq in E. tauto.
  - rewrite IH by tauto. reflexivity.
Qed.

Lemma position_rev (i : nat) (l : list nat) :
  NoDup l -> In i l ->
  S (position i l) + S (position i (rev l)) = length l + 1.
Proof.
  induction 1 as [|a l Ha Hn IH]; [contradiction|].
  cbn [rev position length]. intros [->|Hin].
  - rewrite Nat.eqb_refl.
    rewrite position_app_notin by (now rewrite <- in_rev).
    rewrite length_rev. cbn [position]. rewrite Nat.eqb_refl. lia.
  - destruct (a =? i) eqn:E.
    + apply Nat.eqb_eq in E. subst. contradiction.
    + rewrite position_app_in by (now apply -> in_rev). specialize (IH Hin). lia.
Qed.

Lemma positions_values (s : nat) (g : list cell) :
  map snd (positions_from s g) = valid g.
Proof.
  revert s; induction g as [|c g IH]; intros s; [reflexivity|].
  change (positions_from s (c :: g))
    with ((match c with Some v => [(s, v)] | None => [] end) ++ positions_from (S s) g).
  destruct c as [v|]; cbn [app map snd valid flat_map]; now rewrite IH.
Qed.

Lemma distinct_values_inj {A} (f : A -> Q) (l : list A) :
  ForallOrdPairs (fun x y => ~ (x == y)%Q) (map f l) ->
  forall a b, In a l -> In b l -> (f a == f b)%Q -> a = b.
Proof.
  induction l as [|x l IH]; [contradiction|]. cbn [map]. intros H a b Ha Hb E.
  inversion H as [|? ? Hx Hl]; subst. rewrite Forall_forall in Hx.
  destruct Ha as [->|Ha], Hb as [->|Hb]; auto.
  - exfalso. apply (Hx (f b)); [now apply in_map | exact E].
  - exfalso. apply (Hx (f a)); [now apply in_map | now symmetry].
Qed.

Lemma value_leb_total (asc : bool) (a b : nat * Q) :
  value_leb asc a b = true \/ value_leb asc b a = true.
Proof.
  unfold value_leb.
  destruct asc; rewrite !Qle_bool_iff;
    destruct (Qlt_le_dec (snd a) (snd b)) as [H|H]; auto using Qlt_le_weak.
Qed.

Lemma value_leb_trans (asc : bool) (a b c : nat * Q) :
  value_leb asc a b = true -> value_leb asc b c = true -> value_leb asc a c = true.
Proof.
  unfold value_leb. destruct asc; rewrite !Qle_bool_iff; intros H1 H2;
    eapply Qle_trans; eassumption.
Qed.

Lemma argsort_descending (g : list cell) :
  ForallOrdPairs (fun x y => ~ (x == y)%Q) (valid g) ->
  argsort false g = rev (argsort true g).
Proof.
  intros Hd. unfold argsort. rewrite <- map_rev. f_equal.
  apply (sorted_perm_unique (value_leb false)).
  - intros a b Ha Hb H1 H2. apply sort_by_In in Ha, Hb.
    rewrite <- (positions_values 0 g) in Hd.
    apply (distinct_values_inj snd (valid_positions g) Hd a b Ha Hb).
    unfold value_leb in H1, H2. apply Qle_bool_iff in H1, H2. now apply Qle_antisym.
  - apply sort_by_sorted; [apply value_leb_total | apply value_leb_trans].
  - apply (StronglySorted_rev (fun a b => value_leb true a b = true)).
    apply sort_by_sorted; [apply value_leb_total | apply value_leb_trans].
  - rewrite sort_by_perm. rewrite <- Permutation_rev. symmetry. apply sort_by_perm.
Qed.

Lemma positions_from_In (s : nat) (g : list cell) (i : nat) (v : Q) :
  In (i, Some v) (combine (seq s (length g)) g) -> In i (map fst (positions_from s g)).
Proof.
  revert s; induction g as [|c g IH]; intros s; [contradiction|].
  change (positions_from s (c :: g))
    with ((match c with Some v => [(s, v)] | None => [] end) ++ positions_from (S s) g).
  cbn [length seq combine In]. intros [E|H].
  - inversion E; subst. now left.
  - rewrite map_app. apply in_or_app. right. now apply IH.
Qed.

Lemma mirrored_positions (order : list nat) (n : nat) (l : list (nat * cell)) :
  NoDup order -> length order = n ->
  (forall i v, In (i, Some v) l -> In i order) ->
  Forall2 (fun a d => match a, d with
                      | Some x, Some y => x + y = n + 1
                      | None, None => True
                      | _, _ => False
                      end)
          (map (fun iv : nat * cell => match snd iv with
                                       | Some _ => Some (S (position (fst iv) order))
                                       | None => None
                                       end) l)
          (map (fun iv : nat * cell => match snd iv with
                                       | Some _ => Some (S (position (fst iv) (rev order)))
                                       | None => None
                                       end) l).
Proof.
  intros Hn Hl. induction l as [|[i [v|]] l IH]; intros Hin; [constructor| |].
  - cbn [map fst snd]. constructor.
    + rewrite <- Hl. apply position_rev; [exact Hn|]. apply (Hin i v). now left.
    + apply IH. intros j w Hj. apply (Hin j w). now right.
  - cbn [map fst snd]. constructor; [exact I|].
    apply IH. intros j w Hj. apply (Hin j w). now right.
Qed.

(** X30.  When the values of a date are pairwise different, the flag
    mirrors the ranks: the ascending and the descending rank of a value
    add up to the number of values plus one, and a missing value has no
    rank either way. *)
Theorem direction_mirrors_ranks (g : list cell) :
  ForallOrdPairs (fun x y => ~ (x == y)%Q) (valid g) ->
  Forall2 (fun a d => match a, d with
                      | Some x, Some y => x + y = length (valid g) + 1
                      | None, None => True
                      | _, _ => False
                      end)
          (rank_first true g) (rank_first false g).
Proof.
  intros Hd. unfold rank_first. rewrite (argsort_descending g Hd).
  apply mirrored_positions.
  - eapply Permutation_NoDup; [symmetry; apply argsort_perm | apply positions_from_NoDup].
  - rewrite (Permutation_length (argsort_perm true g)), length_map.
    now rewrite <- (positions_values 0 g), length_map.
  - intros i v H. eapply Permutation_in; [symmetry; apply argsort_perm|].
    eapply positions_from_In. exact H.
Qed.

Lemma direction_mirrors_ranks_witness :
  rank_first true [q 5; None; q 9; q 7] = [Some 1; None; Some 3; Some 2]
  /\ rank_first false [q 5; None; q 9; q 7] = [Some 3; None; Some 1; Some 2]
  /\ Forall2 (fun a d => match a, d with
                         | Some x, Some y => x + y = length (valid [q 5; None; q 9; q 7]) + 1
                         | None, None => True
                         | _, _ => False
                         end)
             (rank_first true [q 5; None; q 9; q 7])
             (rank_first false [q 5; None; q 9; q 7]).
Proof.
  split; [reflexivity|]. split; [reflexivity|].
  apply direction_mirrors_ranks.
  repeat constructor; intros H; vm_compute in H; discriminate H.
Defined.

End MirrorFacts.
